(** * Wallpaper preview box (boxes/background_preview_box.cpp)

    A shallow embedding of the wallpaper preview dialog of the desktop
    client and of the helpers that live in the same translation unit:

    - [Slug]    : [IsValidWallPaperSlug];
    - [Frames]  : the frame cache of the [ServiceCheck] check view
                  ([framesForStyle], [FillFrame], [paintFrame]);
    - [Pattern] : [ColorizePattern] over a byte buffer of 32-bit pixels;
    - [Preview] : the box itself, as a transition system over the events
                  the toolkit delivers to it.

    Definitions come first, the statements about them follow. *)

From Stdlib Require Import ZArith NArith QArith Qround Qpower Lqa Lia List Bool Ascii.
From stdpp Require Import base option list gmap.
Import ListNotations.

Local Open Scope Z_scope.

(** ** Slugs *)

Module Slug.

(** [QChar] is a UTF-16 code unit, [QString] a sequence of them. *)
Definition QChar := N.
Definition QString := list QChar.

(** A character literal of the source, compared with a [QChar] through its
    Latin-1 code. *)
Definition latin1 (c : ascii) : QChar := N_of_ascii c.

Definition kMaxWallPaperSlugLength : Z := 255.

Definition isEmpty (s : QString) : bool :=
  match s with [] => true | _ :: _ => false end.

Definition size (s : QString) : Z := Z.of_nat (length s).

(** The predicate handed to [ranges::find_if]: the character is none of
    the accepted ones. *)
Definition bad_slug_char (ch : QChar) : bool :=
  (negb (ch =? latin1 "."))%N
  && (negb (ch =? latin1 "_"))%N
  && (negb (ch =? latin1 "-"))%N
  && ((ch <? latin1 "0") || (latin1 "9" <? ch))%N
  && ((ch <? latin1 "a") || (latin1 "z" <? ch))%N
  && ((ch <? latin1 "A") || (latin1 "Z" <? ch))%N.

Definition IsValidWallPaperSlug (slug : QString) : bool :=
  if isEmpty slug || (size slug >? kMaxWallPaperSlugLength) then false
  else match find bad_slug_char slug with
       | None => true
       | Some _ => false
       end.

(** What the accepted alphabet is, said directly. *)
Definition is_ascii_letter (ch : QChar) : Prop :=
  (latin1 "a" <= ch <= latin1 "z")%N \/ (latin1 "A" <= ch <= latin1 "Z")%N.
Definition is_ascii_digit (ch : QChar) : Prop :=
  (latin1 "0" <= ch <= latin1 "9")%N.
Definition slug_char (ch : QChar) : Prop :=
  is_ascii_letter ch \/ is_ascii_digit ch
  \/ ch = latin1 "." \/ ch = latin1 "_" \/ ch = latin1 "-".

End Slug.

(** ** Double precision arithmetic *)

Module Float64.

(** A finite [float64] value is the rational it denotes.  An arithmetic
    operation is the exact operation followed by rounding to the nearest
    binary64 value, ties to even: 53 bits of precision, exponent of the
    last place at least -1074.  Overflow to infinity is not represented;
    infinities and NaN are not values of this type. *)
Definition float64 := Q.

Definition pow2 (e : Z) : Q := Qpower 2 e.

(** For [0 < x], the [e] with [2^e <= x < 2^(e+1)]. *)
Definition binade (x : Q) : Z :=
  let e0 := Z.log2 (Qnum x) - Z.log2 (Zpos (Qden x)) in
  if Qlt_le_dec x (pow2 e0) then e0 - 1 else e0.

(** Nearest integer, ties to even. *)
Definition rne (y : Q) : Z :=
  let f := Qfloor y in
  match Qcompare (y - inject_Z f) (1 # 2) with
  | Lt => f
  | Gt => f + 1
  | Eq => if Z.even f then f else f + 1
  end.

Definition round_pos (x : Q) : Q :=
  let q := Z.max (binade x - 52) (-1074) in
  (inject_Z (rne (x / pow2 q)) * pow2 q)%Q.

Definition round64 (x : Q) : float64 :=
  match Qcompare x 0 with
  | Eq => 0%Q
  | Gt => round_pos x
  | Lt => (- round_pos (- x))%Q
  end.

Definition mul (a b : float64) : float64 := round64 (a * b).
Definition div (a b : float64) : float64 := round64 (a / b).
Definition sub (a b : float64) : float64 := round64 (a - b).

Definition gt (a b : float64) : bool := negb (Qle_bool a b).
Definition lt (a b : float64) : bool := negb (Qle_bool b a).

(** [float64(i)] for a 32-bit [int] is exact. *)
Definition of_int (i : Z) : float64 := inject_Z i.

(** [std::round]: nearest integer, halfway cases away from zero. *)
Definition std_round (x : float64) : float64 :=
  if Qle_bool 0 x then inject_Z (Qfloor (x + (1 # 2)))
  else inject_Z (Qceiling (x - (1 # 2))).

(** [int(x)]: the fractional part is discarded. *)
Definition to_int (x : float64) : Z :=
  if Qle_bool 0 x then Qfloor x else Qceiling x.

End Float64.


(** ** Contract checks *)

Module Contract.

(** The [Expects] and [Assert] checks of the file.  A failed check
    terminates the process; a function that contains one returns a
    [Result]. *)
Inductive Violation : Type :=
| FillFrame_Expects_count
| FillFrame_Expects_index
| paintFrame_Assert_index
| ColorizePattern_Assert_resultIntsAdded
| ColorizePattern_Assert_depth
| ColorizePattern_Assert_bytesPerLine
| ColorizePattern_Assert_maskBytesAdded
| ColorizePattern_Assert_maskDepth
| paintImage_Expects_scaled
| step_radial_Expects_document.

Inductive Result (A : Type) : Type :=
| Ok (a : A)
| Failed (v : Violation).
Arguments Ok {A} a.
Arguments Failed {A} v.

Definition bind {A B : Type} (r : Result A) (k : A -> Result B) : Result B :=
  match r with
  | Ok a => k a
  | Failed v => Failed v
  end.

(** [check v b] passes when [b] holds and fails with [v] otherwise. *)
Definition check (v : Violation) (b : bool) : Result unit :=
  if b then Ok tt else Failed v.

Definition succeeded {A : Type} (r : Result A) : bool :=
  match r with Ok _ => true | Failed _ => false end.

(** A 32-bit [int] with its wrap-around. *)
Definition INT_MAX : Z := 2 ^ 31 - 1.
Definition int_wrap (z : Z) : Z := (z + 2 ^ 31) mod 2 ^ 32 - 2 ^ 31.

End Contract.

#[export] Instance Result_bind : MBind Contract.Result :=
  fun A B k r => Contract.bind r k.
#[export] Instance Result_ret : MRet Contract.Result :=
  fun A a => Contract.Ok a.

(** ** The frame cache of the check view *)

Module Frames.
Import Float64 Contract.

(** The fields of [style::ServiceCheck] the generator reads.  The other
    fields (shift, thickness, tip, stroke, color, ...) only parametrise
    the two frame painters. *)
Record ServiceCheck : Type := {
  diameter : Z;
  duration : Z;
}.

(** What [FillFrame] paints into a slot of the strip: which of the two
    painters runs, and with which progress. *)
Inductive FramePainting : Type :=
| PaintFillingFrame (progress : float64)
| PaintCheckingFrame (progress : float64).

(** The strip image: its size in device pixels and the paintings done so
    far, each with the horizontal translation it was painted at. *)
Record StripImage : Type := {
  strip_width : Z;
  strip_height : Z;
  strip_painted : list (Z * FramePainting);
}.

Record FramesData : Type := {
  image : StripImage;
  ready : list bool;
}.

(** [p.drawImage(QPoint(left, top), image, QRect(x, 0, part, part))]. *)
Record DrawImage : Type := {
  draw_left : Z;
  draw_top : Z;
  source_x : Z;
  source_part : Z;
}.

(** [_data], keyed by the address of the style. *)
Abbreviation Generator := (gmap nat FramesData).

Section Generator.

(** Constants of the application and the memory the style pointers point
    into. *)
Variable AnimationTimerDelta : Z.
Variable cIntRetinaFactor : Z.
Variable style_at : nat -> ServiceCheck.

Definition frame_count (st : nat) : Z :=
  int_wrap (Z.quot (duration (style_at st)) AnimationTimerDelta + 2).

Definition framesForStyle (st : nat) (g : Generator) : FramesData * Generator :=
  match g !! st with
  | Some frames => (frames, g)
  | None =>
      let size := diameter (style_at st) in
      let count := frame_count st in
      let result :=
        {| image := {| strip_width := count * size * cIntRetinaFactor;
                       strip_height := size * cIntRetinaFactor;
                       strip_painted := [] |};
           ready := replicate (Z.to_nat count) false |} in
      (result, <[st := result]> g)
  end.

Definition FillFrame (img : StripImage) (st : nat) (index count : Z)
  : Result StripImage :=
  check FillFrame_Expects_count (count >? 1) ;;
  check FillFrame_Expects_index ((index >=? 0) && (index <? count)) ;;
  let progress := div (of_int index) (of_int (int_wrap (count - 1))) in
  let painting :=
    if gt progress (1 # 2)
    then PaintCheckingFrame (mul (sub progress (1 # 2)) 2%Q)
    else PaintFillingFrame (mul progress 2%Q) in
  Ok {| strip_width := strip_width img;
        strip_height := strip_height img;
        strip_painted :=
          strip_painted img ++ [(index * diameter (style_at st), painting)] |}.

(** The index of the frame shown for the animation value [toggled]. *)
Definition frame_index (toggled : float64) (count : Z) : Z :=
  to_int (std_round (mul toggled (of_int (int_wrap (count - 1))))).

Definition paintFrame (left top : Z) (st : nat) (toggled : float64)
    (g : Generator) : Result (Generator * DrawImage) :=
  let '(frames, g) := framesForStyle st g in
  let count := int_wrap (Z.of_nat (length (ready frames))) in
  let index := frame_index toggled count in
  check paintFrame_Assert_index ((index >=? 0) && (index <? count)) ;;
  frames' ←
    match ready frames !! Z.to_nat index with
    | Some true => Ok frames
    | _ =>
        img ← FillFrame (image frames) st index count;
        Ok {| image := img; ready := <[Z.to_nat index := true]> (ready frames) |}
    end;
  let size := diameter (style_at st) in
  let part := size * cIntRetinaFactor in
  Ok (<[st := frames']> g,
      {| draw_left := left; draw_top := top;
         source_x := index * part; source_part := part |}).

Definition invalidate (g : Generator) : Generator := ∅.

(** The states of the generator: empty at construction, then changed by
    [paintFrame] and [invalidate] only. *)
Inductive generated : Generator -> Prop :=
| generated_new : generated ∅
| generated_paint g left top st toggled g' d :
    generated g ->
    paintFrame left top st toggled g = Ok (g', d) ->
    generated g'
| generated_invalidate g :
    generated g -> generated (invalidate g).

(** Every cached entry has as many frames as its style asks for. *)
Definition sized (g : Generator) : Prop :=
  forall st frames, g !! st = Some frames ->
    length (ready frames) = Z.to_nat (frame_count st).

End Generator.

End Frames.

(** ** Colorizing a pattern *)

Module Pattern.
Import Contract.

(** [QImage::Format]: the format the function works in, and the others. *)
Inductive Format : Type :=
| Format_ARGB32_Premultiplied
| Format_Other (tag : nat).

Definition Format_eqb (a b : Format) : bool :=
  match a, b with
  | Format_ARGB32_Premultiplied, Format_ARGB32_Premultiplied => true
  | Format_Other m, Format_Other n => Nat.eqb m n
  | _, _ => false
  end.

(** A [QImage] as the function sees it: its geometry and its pixel buffer,
    a sequence of bytes, [bytesPerLine] for each scan line. *)
Record QImage : Type := {
  format : Format;
  width : Z;
  height : Z;
  depth : Z;
  bytesPerLine : Z;
  bits : list Z;
}.

Definition with_bits (image : QImage) (b : list Z) : QImage :=
  {| format := format image; width := width image; height := height image;
     depth := depth image; bytesPerLine := bytesPerLine image; bits := b |}.

(** Byte [k] of a 32-bit value, least significant first: the machine is
    little-endian, so this is the byte at offset [k] of the stored word. *)
Definition byte_of (k : Z) (v : Z) : Z := Z.land (Z.shiftr v (8 * k)) 255.

(** [*p] for a byte pointer at offset [o] of the buffer. *)
Definition load8 (b : list Z) (o : Z) : Z := default 0 (b !! Z.to_nat o).

(** [*p = v] for a [uint32] pointer [i] words into the buffer. *)
Definition store32 (b : list Z) (i : Z) (v : Z) : list Z :=
  let o := Z.to_nat (4 * i) in
  <[(o + 3)%nat := byte_of 3 v]>
    (<[(o + 2)%nat := byte_of 2 v]>
      (<[(o + 1)%nat := byte_of 1 v]>
        (<[o := byte_of 0 v]> b))).

(** The pixel at column [x] of line [y] of a 32-bit image, as its four
    bytes in memory order. *)
Definition pixel_bytes (image : QImage) (x y : Z) : list (option Z) :=
  let o := Z.to_nat (y * bytesPerLine image + 4 * x) in
  [bits image !! o; bits image !! (o + 1)%nat;
   bits image !! (o + 2)%nat; bits image !! (o + 3)%nat].

(** The last of the four bytes of a pixel: its alpha. *)
Definition alpha_byte (image : QImage) (x y : Z) : option Z :=
  bits image !! Z.to_nat (y * bytesPerLine image + 4 * x + 3).

Section Colorize.

(** [QColor], the [anim::Shifted] representation of a color with its
    [operator*] by a multiplier, and [QImage::convertToFormat] belong to
    the toolkit and to the animation helpers. *)
Variable QColor : Type.
Variable Shifted : Type.
Variable shifted : QColor -> Shifted.
Variable shifted_mul : Shifted -> Z -> Shifted.
Variable unshifted : Shifted -> Z.
Variable convertToFormat : QImage -> Format -> QImage.

(** The state of the two running pointers and of the buffer they point
    into: [maskBytes] as a byte offset, [resultInts] as a word offset. *)
Record Cursor : Type := {
  buffer : list Z;
  maskBytes : Z;
  resultInts : Z;
}.

(** The body of the inner loop. *)
Definition pixel_step (pattern : Shifted)
    (maskBytesPerPixel resultIntsPerPixel : Z) (c : Cursor) : Cursor :=
  let maskOpacity := load8 (buffer c) (maskBytes c) + 1 in
  {| buffer := store32 (buffer c) (resultInts c)
                 (unshifted (shifted_mul pattern maskOpacity));
     maskBytes := maskBytes c + maskBytesPerPixel;
     resultInts := resultInts c + resultIntsPerPixel |}.

(** [for (auto x = 0; x != width; ++x)], with [n] iterations to go. *)
Fixpoint line_loop (pattern : Shifted)
    (maskBytesPerPixel resultIntsPerPixel : Z) (n : nat) (c : Cursor)
  : Cursor :=
  match n with
  | O => c
  | S n =>
      line_loop pattern maskBytesPerPixel resultIntsPerPixel n
        (pixel_step pattern maskBytesPerPixel resultIntsPerPixel c)
  end.

(** [for (auto y = 0; y != height; ++y)], with [n] iterations to go. *)
Fixpoint image_loop (pattern : Shifted) (width : Z)
    (maskBytesPerPixel resultIntsPerPixel maskBytesAdded resultIntsAdded : Z)
    (n : nat) (c : Cursor) : Cursor :=
  match n with
  | O => c
  | S n =>
      let c :=
        line_loop pattern maskBytesPerPixel resultIntsPerPixel
          (Z.to_nat width) c in
      image_loop pattern width
        maskBytesPerPixel resultIntsPerPixel maskBytesAdded resultIntsAdded n
        {| buffer := buffer c;
           maskBytes := maskBytes c + maskBytesAdded;
           resultInts := resultInts c + resultIntsAdded |}
  end.

(** The image the loops run over: the argument, converted when it is in
    another format. *)
Definition premultiplied (image : QImage) : QImage :=
  if Format_eqb (format image) Format_ARGB32_Premultiplied then image
  else convertToFormat image Format_ARGB32_Premultiplied.

Definition ColorizePattern (image : QImage) (color : QColor) : Result QImage :=
  let image := premultiplied image in
  let width := width image in
  let height := height image in
  let pattern := shifted color in
  let resultBytesPerPixel := Z.shiftr (depth image) 3 in
  let resultIntsPerPixel := 1 in
  let resultIntsPerLine := Z.shiftr (bytesPerLine image) 2 in
  let resultIntsAdded := resultIntsPerLine - width * resultIntsPerPixel in
  check ColorizePattern_Assert_resultIntsAdded (resultIntsAdded >=? 0) ;;
  check ColorizePattern_Assert_depth
    (depth image =? Z.shiftl (resultIntsPerPixel * 4) 3) ;;
  check ColorizePattern_Assert_bytesPerLine
    (bytesPerLine image =? Z.shiftl resultIntsPerLine 2) ;;
  let maskBytesPerPixel := Z.shiftr (depth image) 3 in
  let maskBytesPerLine := bytesPerLine image in
  let maskBytesAdded := maskBytesPerLine - width * maskBytesPerPixel in
  check ColorizePattern_Assert_maskBytesAdded (maskBytesAdded >=? 0) ;;
  check ColorizePattern_Assert_maskDepth
    (depth image =? Z.shiftl maskBytesPerPixel 3) ;;
  let c :=
    image_loop pattern width
      maskBytesPerPixel resultIntsPerPixel maskBytesAdded resultIntsAdded
      (Z.to_nat height)
      {| buffer := bits image;
         maskBytes := maskBytesPerPixel - 1;
         resultInts := 0 |} in
  Ok (with_bits image (buffer c)).

(** The value written for a pixel whose alpha byte is [a]. *)
Definition colorized (color : QColor) (a : Z) : Z :=
  unshifted (shifted_mul (shifted color) (a + 1)).

(** What the loops do, said for one word of the buffer.  [pattern] is
    the shifted color. *)
Section Loops.
Variable pattern : Shifted.

(** The word written for the pixel at word offset [p] of buffer [b0]. *)
Definition word_for (b0 : list Z) (p : Z) : Z :=
  unshifted (shifted_mul pattern (load8 b0 (4 * p + 3) + 1)).

(** [b] holds at word [p] what the loop writes for that word of [b0]. *)
Definition written (b0 b : list Z) (p : Z) : Prop :=
  forall k, 0 <= k < 4 -> b !! Z.to_nat (4 * p + k) = Some (byte_of k (word_for b0 p)).

(** [b] and [b0] agree outside the words [[r, r + n)]. *)
Definition untouched (b0 b : list Z) (r n : Z) : Prop :=
  length b = length b0 /\
  forall j : nat, Z.of_nat j < 4 * r \/ 4 * (r + n) <= Z.of_nat j -> b !! j = b0 !! j.

End Loops.

End Colorize.

(** The five assertions, which look at the geometry only. *)
Definition assertions (image : QImage) : Result unit :=
  let resultIntsPerLine := Z.shiftr (bytesPerLine image) 2 in
  check ColorizePattern_Assert_resultIntsAdded
    (resultIntsPerLine - width image * 1 >=? 0) ;;
  check ColorizePattern_Assert_depth (depth image =? Z.shiftl (1 * 4) 3) ;;
  check ColorizePattern_Assert_bytesPerLine
    (bytesPerLine image =? Z.shiftl resultIntsPerLine 2) ;;
  check ColorizePattern_Assert_maskBytesAdded
    (bytesPerLine image - width image * Z.shiftr (depth image) 3 >=? 0) ;;
  check ColorizePattern_Assert_maskDepth
    (depth image =? Z.shiftl (Z.shiftr (depth image) 3) 3).

(** The buffer of an image holds [height] lines of [bytesPerLine] bytes. *)
Definition valid_buffer (image : QImage) : Prop :=
  0 <= width image /\ 0 <= height image
  /\ Z.of_nat (length (bits image)) = bytesPerLine image * height image.

(** A 32-bit image: each line is a whole number of words and long enough
    for [width] pixels. *)
Definition well_formed (image : QImage) : Prop :=
  valid_buffer image /\ depth image = 32
  /\ bytesPerLine image mod 4 = 0
  /\ 4 * width image <= bytesPerLine image.

(** Two images of one format and geometry whose pixels carry the same
    alpha. *)
Definition same_alpha (a b : QImage) : Prop :=
  format a = format b
  /\ width a = width b /\ height a = height b /\ depth a = depth b
  /\ bytesPerLine a = bytesPerLine b
  /\ forall x y, 0 <= x < width a -> 0 <= y < height a ->
       alpha_byte a x y = alpha_byte b x y.

(** Two images with the same pixels. *)
Definition same_pixels (a b : QImage) : Prop :=
  format a = format b
  /\ width a = width b /\ height a = height b /\ depth a = depth b
  /\ bytesPerLine a = bytesPerLine b
  /\ forall x y, 0 <= x < width a -> 0 <= y < height a ->
       pixel_bytes a x y = pixel_bytes b x y.

(** Two runs end alike: in the same failed check, or with images of the
    same pixels. *)
Definition agree (r1 r2 : Result QImage) : Prop :=
  match r1, r2 with
  | Ok a, Ok b => same_pixels a b
  | Failed v1, Failed v2 => v1 = v2
  | _, _ => False
  end.

End Pattern.

(** ** The preview box *)

Module Preview.
Import Contract.
Export Slug.

Definition TimeMs := Z.
Definition float64 := Float64.float64.

Inductive LangKey : Type :=
| lng_background_header
| lng_background_apply
| lng_cancel
| lng_background_share
| lng_background_blur
| lng_background_link_copied
| lng_background_bad_link.

(** [Images::Option] flags. *)
Inductive ImagesOption : Type := Smooth | TransparentBackground | Blurred.

(** What the box reads of a [DocumentData] through the pointer the paper
    holds: the download state, and the image that reading the file and
    [Window::Theme::ProcessBackgroundImage] give. *)
Record DocumentData (QImage : Type) : Type := {
  loading : bool;
  progress : float64;
  loaded : bool;
  background_image : QImage;
}.
Arguments loading {QImage} _.
Arguments progress {QImage} _.
Arguments loaded {QImage} _.
Arguments background_image {QImage} _.

(** What the box reads of the thumbnail [Image]. *)
Record Image (QImage : Type) : Type := {
  image_loaded : bool;
  original : QImage;
}.
Arguments image_loaded {QImage} _.
Arguments original {QImage} _.

(** The types of the application and of the toolkit the box handles
    without looking inside. *)
Class Toolkit : Type := {
  WallPaper : Type;
  QImage : Type;
  QPixmap : Type;
  QColor : Type;
  RadialAnimation : Type;
  Animation : Type;
}.

Section Model.
Context `{Toolkit}.

(** The state outside the box that its methods read, addressed by the
    pointers the paper holds. *)
Record Outside : Type := {
  documents : nat -> DocumentData QImage;
  thumbnails : nat -> Image QImage;
  background_id : Z;
  anim_disabled : bool;
}.

(** The operations of the application and of the toolkit the box calls.
    Three equations say what the box relies on from them: [withBlurred]
    sets the blur flag of a paper and keeps its document, and a radial
    animation is not running when it is made. *)
Class Host : Type := {
  (* Data::WallPaper *)
  paper_id : WallPaper -> Z;
  document : WallPaper -> option nat;
  thumbnail : WallPaper -> option nat;
  isPattern : WallPaper -> bool;
  isBlurred : WallPaper -> bool;
  withBlurred : WallPaper -> bool -> WallPaper;
  hasShareUrl : WallPaper -> bool;
  shareUrl : WallPaper -> QString;
  backgroundColor : WallPaper -> option QColor;
  patternIntensity : WallPaper -> Z;
  withUrlParams : WallPaper -> list (QString * QString) -> WallPaper;
  loadThumbnail : WallPaper -> Outside -> Outside;
  loadDocument : WallPaper -> Outside -> Outside;
  IsCloudWallPaper : WallPaper -> bool;
  FromColorSlug : QString -> option WallPaper;
  PatternColor : QColor -> QColor;
  PrepareBlurredBackground : QImage -> QImage;
  withBlurred_isBlurred : forall p b, isBlurred (withBlurred p b) = b;
  withBlurred_document : forall p b, document (withBlurred p b) = document p;
  (* QImage, QPixmap, Images, App *)
  null_image : QImage;
  image_isNull : QImage -> bool;
  image_width : QImage -> Z;
  image_height : QImage -> Z;
  convertToFormat_ARGB32_Premultiplied : QImage -> QImage;
  null_pixmap : QPixmap;
  pixmap_isNull : QPixmap -> bool;
  pixmapFromImageInPlace : QImage -> QPixmap;
  Images_prepare :
    QImage -> Z -> Z -> list ImagesOption -> Z -> Z -> QImage;
  (* the function of [Pattern], over the toolkit's images *)
  ColorizePattern : QImage -> QColor -> QImage;
  (* what is left in an image handed to [setChatBackground] by rvalue *)
  taken_by_setChatBackground : WallPaper -> QImage -> QImage;
  (* Window::Theme, styles, globals *)
  CountAverageColor : QImage -> QColor;
  AdjustedColor : QColor -> QColor -> QColor;
  msgServiceBg : QColor;
  boxWideWidth : Z;
  backgroundCheck_duration : Z;
  cIntRetinaFactor : Z;
  (* Ui::RadialAnimation *)
  radial_new : RadialAnimation;
  radial_animating : RadialAnimation -> bool;
  radial_opacity : RadialAnimation -> float64;
  radial_start : float64 -> RadialAnimation -> RadialAnimation;
  radial_update :
    float64 -> bool -> TimeMs -> RadialAnimation -> RadialAnimation * bool;
  radial_new_idle : radial_animating radial_new = false;
  (* Animation *)
  animation_new : Animation;
  animating : Animation -> bool;
  animation_start : float64 -> float64 -> Z -> Animation -> Animation;
  animation_current : TimeMs -> float64 -> Animation -> Animation * float64;
  animation_step : TimeMs -> Animation -> Animation;
}.

Context `{Host}.

(** [base::binary_guard]: one end of a pair that shares a flag.  An empty
    guard holds no flag. *)
Definition binary_guard := option nat.

(** The main-thread completions posted by the worker threads, with what
    they captured. *)
Inductive MainTask : Type :=
| ReadDone (guard : binary_guard) (image : QImage)
| DecodeDone (guard : binary_guard) (image scaled blurred : QImage).

Inductive Action : Type := DoApply | DoCloseBox | DoShare.

(** What the box does to the rest of the application. *)
Inductive Effect : Type :=
| SetChatBackground (paper : WallPaper) (image : QImage)
| SendInstallWallPaper (paper : WallPaper)
| CloseBox
| ClipboardSetText (text : QString)
| ToastShow (text : LangKey)
| Update
| UpdateRadialRect
| ShowPreviewBox (paper : WallPaper)
| ShowInformBox (text : LangKey)
| RequestWallPaper (slug : QString) (params : list (QString * QString)).

(** What a paint routine draws.  Geometry is left out. *)
Inductive PaintOp : Type :=
| FillRect (color : QColor)
| FillRectBoxBg
| DrawPixmap (pixmap : QPixmap) (opacity : float64)
| DrawRadialBackground (opacity : float64)
| DrawRadialArc (radial : RadialAnimation)
| DrawTexts (serviceBg : option QColor).

(** [Ui::Checkbox], as far as the box uses it. *)
Record Checkbox : Type := {
  checked : bool;
  disabled : bool;
}.

(** The members of [BackgroundPreviewBox], with the title, buttons and
    dimensions of its [BoxContent] base.  The two text items only take
    part in layout and painting. *)
Record Box : Type := {
  _paper : WallPaper;
  _full : QImage;
  _scaled : QPixmap;
  _blurred : QPixmap;
  _fadeOutThumbnail : QPixmap;
  _fadeIn : Animation;
  _radial : RadialAnimation;
  _generating : binary_guard;
  _blur : option Checkbox;
  _serviceBg : option QColor;
  title : option LangKey;
  buttons : list (LangKey * Action);
  leftButtons : list (LangKey * Action);
  dimensions : option (Z * Z);
}.

(** The box in its surroundings: the flags of the guards made so far,
    the completions waiting on the main thread, what the box has done to
    the application, and whether the box is still there. *)
Record World : Type := {
  box : Box;
  outside : Outside;
  guards : list bool;
  pending : list MainTask;
  effects : list Effect;
  destroyed : bool;
}.

Definition set_box (b : Box) (w : World) : World :=
  {| box := b; outside := outside w; guards := guards w;
     pending := pending w; effects := effects w; destroyed := destroyed w |}.
Definition set_outside (o : Outside) (w : World) : World :=
  {| box := box w; outside := o; guards := guards w;
     pending := pending w; effects := effects w; destroyed := destroyed w |}.
Definition set_guards (g : list bool) (w : World) : World :=
  {| box := box w; outside := outside w; guards := g;
     pending := pending w; effects := effects w; destroyed := destroyed w |}.
Definition set_pending (p : list MainTask) (w : World) : World :=
  {| box := box w; outside := outside w; guards := guards w;
     pending := p; effects := effects w; destroyed := destroyed w |}.
Definition emit (e : Effect) (w : World) : World :=
  {| box := box w; outside := outside w; guards := guards w;
     pending := pending w; effects := effects w ++ [e];
     destroyed := destroyed w |}.
Definition set_destroyed (w : World) : World :=
  {| box := box w; outside := outside w; guards := guards w;
     pending := pending w; effects := effects w; destroyed := true |}.

Definition set_paper (p : WallPaper) (b : Box) : Box :=
  {| _paper := p; _full := _full b; _scaled := _scaled b;
     _blurred := _blurred b; _fadeOutThumbnail := _fadeOutThumbnail b;
     _fadeIn := _fadeIn b; _radial := _radial b;
     _generating := _generating b; _blur := _blur b;
     _serviceBg := _serviceBg b; title := title b; buttons := buttons b;
     leftButtons := leftButtons b; dimensions := dimensions b |}.
Definition set_full (i : QImage) (b : Box) : Box :=
  {| _paper := _paper b; _full := i; _scaled := _scaled b;
     _blurred := _blurred b; _fadeOutThumbnail := _fadeOutThumbnail b;
     _fadeIn := _fadeIn b; _radial := _radial b;
     _generating := _generating b; _blur := _blur b;
     _serviceBg := _serviceBg b; title := title b; buttons := buttons b;
     leftButtons := leftButtons b; dimensions := dimensions b |}.
Definition set_pixmaps (scaled blurred : QPixmap) (b : Box) : Box :=
  {| _paper := _paper b; _full := _full b; _scaled := scaled;
     _blurred := blurred; _fadeOutThumbnail := _fadeOutThumbnail b;
     _fadeIn := _fadeIn b; _radial := _radial b;
     _generating := _generating b; _blur := _blur b;
     _serviceBg := _serviceBg b; title := title b; buttons := buttons b;
     leftButtons := leftButtons b; dimensions := dimensions b |}.
Definition set_fade (previous : QPixmap) (a : Animation) (b : Box) : Box :=
  {| _paper := _paper b; _full := _full b; _scaled := _scaled b;
     _blurred := _blurred b; _fadeOutThumbnail := previous;
     _fadeIn := a; _radial := _radial b;
     _generating := _generating b; _blur := _blur b;
     _serviceBg := _serviceBg b; title := title b; buttons := buttons b;
     leftButtons := leftButtons b; dimensions := dimensions b |}.
Definition set_radial (r : RadialAnimation) (b : Box) : Box :=
  {| _paper := _paper b; _full := _full b; _scaled := _scaled b;
     _blurred := _blurred b; _fadeOutThumbnail := _fadeOutThumbnail b;
     _fadeIn := _fadeIn b; _radial := r;
     _generating := _generating b; _blur := _blur b;
     _serviceBg := _serviceBg b; title := title b; buttons := buttons b;
     leftButtons := leftButtons b; dimensions := dimensions b |}.
Definition set_generating (g : binary_guard) (b : Box) : Box :=
  {| _paper := _paper b; _full := _full b; _scaled := _scaled b;
     _blurred := _blurred b; _fadeOutThumbnail := _fadeOutThumbnail b;
     _fadeIn := _fadeIn b; _radial := _radial b;
     _generating := g; _blur := _blur b;
     _serviceBg := _serviceBg b; title := title b; buttons := buttons b;
     leftButtons := leftButtons b; dimensions := dimensions b |}.
Definition set_blur (c : option Checkbox) (b : Box) : Box :=
  {| _paper := _paper b; _full := _full b; _scaled := _scaled b;
     _blurred := _blurred b; _fadeOutThumbnail := _fadeOutThumbnail b;
     _fadeIn := _fadeIn b; _radial := _radial b;
     _generating := _generating b; _blur := c;
     _serviceBg := _serviceBg b; title := title b; buttons := buttons b;
     leftButtons := leftButtons b; dimensions := dimensions b |}.
Definition set_serviceBg (c : option QColor) (b : Box) : Box :=
  {| _paper := _paper b; _full := _full b; _scaled := _scaled b;
     _blurred := _blurred b; _fadeOutThumbnail := _fadeOutThumbnail b;
     _fadeIn := _fadeIn b; _radial := _radial b;
     _generating := _generating b; _blur := _blur b;
     _serviceBg := c; title := title b; buttons := buttons b;
     leftButtons := leftButtons b; dimensions := dimensions b |}.
Definition set_chrome (t : option LangKey) (bs ls : list (LangKey * Action))
    (d : option (Z * Z)) (b : Box) : Box :=
  {| _paper := _paper b; _full := _full b; _scaled := _scaled b;
     _blurred := _blurred b; _fadeOutThumbnail := _fadeOutThumbnail b;
     _fadeIn := _fadeIn b; _radial := _radial b;
     _generating := _generating b; _blur := _blur b;
     _serviceBg := _serviceBg b; title := t; buttons := bs;
     leftButtons := ls; dimensions := d |}.

(** [on_box f] changes the box of a world by [f]. *)
Definition on_box (f : Box -> Box) (w : World) : World :=
  set_box (f (box w)) w.

(** *** Guards

    Modelled from the spec: [base::binary_guard] (base/binary_guard.h) is
    not in this file; the spec calls it a move-only binary guard that
    cancels the decode.  The two ends made by [make_binary_guard] share one
    flag; an end is alive while the flag is set; destroying an end, or
    assigning over it, clears the flag. *)

Definition alive (g : binary_guard) (flags : list bool) : bool :=
  match g with
  | Some c => default false (flags !! c)
  | None => false
  end.

Definition destroy (g : binary_guard) (flags : list bool) : list bool :=
  match g with
  | Some c => <[c := false]> flags
  | None => flags
  end.

Definition make_binary_guard (flags : list bool)
  : binary_guard * binary_guard * list bool :=
  (Some (length flags), Some (length flags), flags ++ [true]).

(** [_generating = std::move(g)]: the end held before is destroyed. *)
Definition assign_generating (g : binary_guard) (w : World) : World :=
  on_box (set_generating g)
    (set_guards (destroy (_generating (box w)) (guards w)) w).

(** *** Preparing images *)

Definition PrepareScaledNonPattern (image : QImage) (blur : list ImagesOption)
  : QImage :=
  let size := boxWideWidth in
  let width := Z.max (image_width image) 1 in
  let height := Z.max (image_height image) 1 in
  let takeWidth :=
    if width >? height then Z.quot (int_wrap (width * size)) height
    else size in
  let takeHeight :=
    if width >? height then size
    else Z.quot (int_wrap (height * size)) width in
  Images_prepare image
    (int_wrap (takeWidth * cIntRetinaFactor))
    (int_wrap (takeHeight * cIntRetinaFactor))
    ([Smooth; TransparentBackground] ++ blur)
    size size.

Definition PrepareScaledFromFull (image : QImage)
    (patternBackground : option QColor) (blur : list ImagesOption) : QImage :=
  let result := PrepareScaledNonPattern image blur in
  let result :=
    match patternBackground with
    | Some background => ColorizePattern result (PatternColor background)
    | None => result
    end in
  convertToFormat_ARGB32_Premultiplied result.

(** *** The box *)

(** The constructor.  It also subscribes [update()] to the downloader. *)
Definition BackgroundPreviewBox (paper : WallPaper) : Box :=
  {| _paper := paper; _full := null_image; _scaled := null_pixmap;
     _blurred := null_pixmap; _fadeOutThumbnail := null_pixmap;
     _fadeIn := animation_new; _radial := radial_new;
     _generating := None; _blur := None; _serviceBg := None;
     title := None; buttons := []; leftButtons := []; dimensions := None |}.

Definition updateServiceBg (background : option QColor) (b : Box) : Box :=
  match background with
  | Some c => set_serviceBg (Some (AdjustedColor msgServiceBg c)) b
  | None => b
  end.

Definition patternBackgroundColor (b : Box) : option QColor :=
  if isPattern (_paper b) then backgroundColor (_paper b) else None.

Definition startFadeInFrom (previous : QPixmap) (b : Box) : Box :=
  set_fade previous
    (animation_start 0%Q 1%Q backgroundCheck_duration (_fadeIn b)) b.

Definition setDisabled (d : bool) (c : Checkbox) : Checkbox :=
  {| checked := checked c; disabled := d |}.

Definition setScaledFromImage (image blurred : QImage) (b : Box) : Box :=
  let b := updateServiceBg (Some (CountAverageColor image)) b in
  let b :=
    if negb (image_isNull (_full b)) then startFadeInFrom (_scaled b) b
    else b in
  let b :=
    set_pixmaps (pixmapFromImageInPlace image)
      (pixmapFromImageInPlace blurred) b in
  match _blur b with
  | Some c =>
      if negb (bool_decide (is_Some (document (_paper b))))
         || negb (image_isNull (_full b))
      then set_blur (Some (setDisabled false c)) b
      else b
  | None => b
  end.

Definition setScaledFromThumb (o : Outside) (b : Box) : bool * Box :=
  match thumbnail (_paper b) with
  | None => (false, b)
  | Some t =>
      if negb (image_loaded (thumbnails o t)) then (false, b)
      else if isPattern (_paper b)
              && bool_decide (is_Some (document (_paper b)))
      then (false, b)
      else
        let has_document := bool_decide (is_Some (document (_paper b))) in
        let scaled :=
          PrepareScaledFromFull (original (thumbnails o t))
            (patternBackgroundColor b)
            (if has_document then [Blurred] else []) in
        let blurred :=
          if has_document || isPattern (_paper b) then null_image
          else PrepareScaledNonPattern
                 (PrepareBlurredBackground (original (thumbnails o t))) [] in
        (true, setScaledFromImage scaled blurred b)
  end.

Definition checkBlurAnimationStart (b : Box) : Box :=
  match _blur b with
  | Some c =>
      if animating (_fadeIn b)
         || pixmap_isNull (_blurred b)
         || eqb (isBlurred (_paper b)) (checked c)
      then b
      else
        let b := set_paper (withBlurred (_paper b) (checked c)) b in
        startFadeInFrom
          (if isBlurred (_paper b) then _scaled b else _blurred b) b
  | None => b
  end.

(** The checkbox is made with the check view showing [isBlurred()], its
    position, background and [checkedChanges] handlers are subscribed, and
    it is disabled. *)
Definition createBlurCheckbox (b : Box) : Box :=
  set_blur (Some {| checked := isBlurred (_paper b); disabled := true |}) b.

(** *** Decoding the document

    Modelled from the spec: [Data::ReadImageAsync] and the [crl] queues
    are not in this file.  The read is taken to follow the cancellation
    idiom the spec names for the decode: it makes a guard pair, reads and
    processes the file on a worker thread and posts a completion that
    holds one end, and returns the other end; the completion calls
    [generateCallback] only when its end is alive.  The work of a worker
    thread has no effect but the completion it posts. *)

(** The work of the [crl::async] lambda, and the completion it posts. *)
Definition decode (image : QImage) (patternBackground : option QColor)
    (guard : binary_guard) : MainTask :=
  let scaled := PrepareScaledFromFull image patternBackground [] in
  let blurred :=
    match patternBackground with
    | Some _ => null_image
    | None =>
        PrepareScaledNonPattern (PrepareBlurredBackground image) []
    end in
  DecodeDone guard image scaled blurred.

Definition generateCallback (image : QImage) (w : World) : World :=
  let '(left_end, right_end, flags) := make_binary_guard (guards w) in
  let w := assign_generating left_end (set_guards flags w) in
  set_pending
    (pending w ++ [decode image (patternBackgroundColor (box w)) right_end]) w.

Definition checkLoadedDocument (w : World) : World :=
  match document (_paper (box w)) with
  | None => w
  | Some d =>
      if negb (image_isNull (_full (box w)))
         || negb (loaded (documents (outside w) d))
         || alive (_generating (box w)) (guards w)
      then w
      else
        let '(left_end, right_end, flags) := make_binary_guard (guards w) in
        let w :=
          set_pending
            (pending w
             ++ [ReadDone left_end
                   (background_image (documents (outside w) d))])
            (set_guards flags w) in
        assign_generating right_end w
  end.

(** The body of the completion posted by the decode. *)
Definition decode_done (guard : binary_guard)
    (image scaled blurred : QImage) (w : World) : World :=
  if negb (alive guard (guards w)) then w
  else
    let w := on_box (set_full image) w in
    let w := on_box (setScaledFromImage scaled blurred) w in
    emit Update w.

(** A completion runs, then what it captured is destroyed. *)
Definition run_task (t : MainTask) (w : World) : World :=
  match t with
  | ReadDone guard image =>
      let w := if alive guard (guards w) then generateCallback image w else w in
      set_guards (destroy guard (guards w)) w
  | DecodeDone guard image scaled blurred =>
      let w := decode_done guard image scaled blurred w in
      set_guards (destroy guard (guards w)) w
  end.

(** *** Methods *)

Definition prepare (w : World) : World :=
  let paper := _paper (box w) in
  let w :=
    on_box (set_chrome (Some lng_background_header)
              ([(lng_background_apply, DoApply); (lng_cancel, DoCloseBox)])
              (if hasShareUrl paper then [(lng_background_share, DoShare)]
               else [])
              (dimensions (box w))) w in
  let w := on_box (updateServiceBg (backgroundColor paper)) w in
  let w := set_outside (loadThumbnail paper (outside w)) w in
  let w := set_outside (loadDocument paper (outside w)) w in
  let w :=
    match document paper with
    | Some d =>
        if loading (documents (outside w) d)
        then on_box (fun b =>
               set_radial
                 (radial_start (progress (documents (outside w) d)) (_radial b))
                 b) w
        else w
    | None => w
    end in
  let w :=
    if bool_decide (is_Some (thumbnail paper)) && negb (isPattern paper)
    then on_box createBlurCheckbox w
    else w in
  let w := on_box (fun b => (setScaledFromThumb (outside w) b).2) w in
  let w := checkLoadedDocument w in
  on_box (fun b =>
    set_chrome (title b) (buttons b) (leftButtons b)
      (Some (boxWideWidth, boxWideWidth)) b) w.

Definition closeBox (w : World) : World := emit CloseBox w.

Definition apply (w : World) : World :=
  let paper := _paper (box w) in
  let install :=
    negb (paper_id paper =? background_id (outside w))
    && IsCloudWallPaper paper in
  let full := _full (box w) in
  let w := emit (SetChatBackground paper full) w in
  let w := on_box (set_full (taken_by_setChatBackground paper full)) w in
  let w := if install then emit (SendInstallWallPaper paper) w else w in
  closeBox w.

Definition share (w : World) : World :=
  let w := emit (ClipboardSetText (shareUrl (_paper (box w)))) w in
  emit (ToastShow lng_background_link_copied) w.

Definition step_radial (ms : TimeMs) (timer : bool) (w : World)
  : Result World :=
  match document (_paper (box w)) with
  | None => Failed step_radial_Expects_document
  | Some d =>
      let doc := documents (outside w) d in
      let wasAnimating := radial_animating (_radial (box w)) in
      let '(radial, updated) :=
        radial_update (progress doc) (negb (loading doc)) ms
          (_radial (box w)) in
      let w := on_box (set_radial radial) w in
      let w :=
        if timer
           && (wasAnimating || radial_animating (_radial (box w)))
           && (negb (anim_disabled (outside w)) || updated)
        then emit UpdateRadialRect w
        else w in
      Ok (checkLoadedDocument w)
  end.

(** The pixmap [paintImage] shows. *)
Definition shown_pixmap (b : Box) : QPixmap :=
  if negb (pixmap_isNull (_blurred b)) && isBlurred (_paper b)
  then _blurred b else _scaled b.

Definition clamp (x lo hi : float64) : float64 :=
  if Qle_bool x lo then lo else if Qle_bool hi x then hi else x.

Definition paintImage (ms : TimeMs) (w : World)
  : Result (World * list PaintOp) :=
  check paintImage_Expects_scaled (negb (pixmap_isNull (_scaled (box w)))) ;;
  let master :=
    if isPattern (_paper (box w))
    then clamp (Float64.div (Float64.of_int (patternIntensity (_paper (box w))))
                  100%Q) 0%Q 1%Q
    else 1%Q in
  let '(fadeIn, fade) := animation_current ms 1%Q (_fadeIn (box w)) in
  let w := on_box (fun b => set_fade (_fadeOutThumbnail b) fadeIn b) w in
  let below :=
    if Float64.lt fade 1%Q
       && negb (pixmap_isNull (_fadeOutThumbnail (box w)))
    then [DrawPixmap (_fadeOutThumbnail (box w)) 1%Q]
    else [] in
  let ops :=
    below ++ [DrawPixmap (shown_pixmap (box w)) (Float64.mul master fade)] in
  Ok (on_box checkBlurAnimationStart w, ops).

(** [_radial.step(ms)] runs the callback the animation was made with,
    which is [step_radial]. *)
Definition paintRadial (ms : TimeMs) (w : World)
  : Result (World * list PaintOp) :=
  '(w, radial, radialOpacity) ←
    (if radial_animating (_radial (box w)) then
       w ← step_radial ms false w;
       Ok (w, radial_animating (_radial (box w)),
           radial_opacity (_radial (box w)))
     else Ok (w, false, 0%Q));
  if negb radial then Ok (w, [])
  else Ok (w, [DrawRadialBackground radialOpacity;
               DrawRadialArc (_radial (box w))]).

Definition paintTexts (w : World) : list PaintOp :=
  [DrawTexts (_serviceBg (box w))].

Definition paintEvent (ms : TimeMs) (w : World)
  : Result (World * list PaintOp) :=
  let color := backgroundColor (_paper (box w)) in
  let filled :=
    match color with Some c => [FillRect c] | None => [] end in
  if negb (bool_decide (is_Some color)) || isPattern (_paper (box w)) then
    let '(have, w) :=
      if negb (pixmap_isNull (_scaled (box w))) then (true, w)
      else
        let '(done, b) := setScaledFromThumb (outside w) (box w) in
        (done, set_box b w) in
    if have then
      '(w, image) ← paintImage ms w;
      '(w, radial) ← paintRadial ms w;
      Ok (w, filled ++ image ++ radial ++ paintTexts w)
    else if negb (bool_decide (is_Some color)) then
      Ok (w, filled ++ [FillRectBoxBg])
    else
      '(w, radial) ← paintRadial ms w;
      Ok (w, filled ++ radial ++ paintTexts w)
  else Ok (w, filled ++ paintTexts w).

(** [Start]: what it shows or requests, and what it returns.  The two
    callbacks of the request are [wallPaperReceived] and
    [wallPaperFailed]. *)
Definition Start (slug : QString) (params : list (QString * QString))
  : list Effect * bool :=
  match FromColorSlug slug with
  | Some paper => ([ShowPreviewBox (withUrlParams paper params)], true)
  | None =>
      if negb (IsValidWallPaperSlug slug)
      then ([ShowInformBox lng_background_bad_link], false)
      else ([RequestWallPaper slug params], true)
  end.

Definition wallPaperReceived (params : list (QString * QString))
    (result : WallPaper) : list Effect :=
  [ShowPreviewBox (withUrlParams result params)].

Definition wallPaperFailed : list Effect :=
  [ShowInformBox lng_background_bad_link].

(** *** The box at work

    What the toolkit and the application deliver to the box once it is
    shown.  The animation manager steps an animation only while it is
    running; a button runs its handler only when the box has it; a
    disabled checkbox does not react; a widget that was destroyed gets
    nothing any more, but the completions on their way still run. *)

Inductive Event : Type :=
| Paint (ms : TimeMs)
| RadialTimer (ms : TimeMs)
| FadeInTimer (ms : TimeMs)
| BlurClicked
| ButtonClicked (a : Action)
| DownloaderTaskFinished
| OutsideChanged (o : Outside)
| MainThread (i : nat)
| Destroyed.

Definition Action_eqb (a b : Action) : bool :=
  match a, b with
  | DoApply, DoApply | DoCloseBox, DoCloseBox | DoShare, DoShare => true
  | _, _ => false
  end.

Definition has_button (a : Action) (b : Box) : bool :=
  existsb (fun x => Action_eqb a x.2) (buttons b ++ leftButtons b).

(** The handler of [checkedChanges]. *)
Definition blur_changed (w : World) : World :=
  emit Update (on_box checkBlurAnimationStart w).

Definition setChecked (v : bool) (c : Checkbox) : Checkbox :=
  {| checked := v; disabled := disabled c |}.

Definition destructor (w : World) : World :=
  set_destroyed (set_guards (destroy (_generating (box w)) (guards w)) w).

Definition deliver (e : Event) (w : World) : Result World :=
  match e with
  | MainThread i =>
      match pending w !! i with
      | Some t => Ok (run_task t (set_pending (delete i (pending w)) w))
      | None => Ok w
      end
  | _ =>
      if destroyed w then Ok w
      else
        match e with
        | Paint ms => '(w, _) ← paintEvent ms w; Ok w
        | RadialTimer ms =>
            if radial_animating (_radial (box w)) then step_radial ms true w
            else Ok w
        | FadeInTimer ms =>
            if animating (_fadeIn (box w)) then
              Ok (emit Update
                    (on_box (fun b =>
                       set_fade (_fadeOutThumbnail b)
                         (animation_step ms (_fadeIn b)) b) w))
            else Ok w
        | BlurClicked =>
            match _blur (box w) with
            | Some c =>
                if disabled c then Ok w
                else
                  Ok (blur_changed
                        (on_box
                           (set_blur (Some (setChecked (negb (checked c)) c)))
                           w))
            | None => Ok w
            end
        | ButtonClicked a =>
            if has_button a (box w) then
              match a with
              | DoApply => Ok (apply w)
              | DoCloseBox => Ok (closeBox w)
              | DoShare => Ok (share w)
              end
            else Ok w
        | DownloaderTaskFinished => Ok (emit Update w)
        | OutsideChanged o => Ok (set_outside o w)
        | MainThread _ => Ok w
        | Destroyed => Ok (destructor w)
        end
  end.

(** The box right after its construction for [paper]. *)
Definition new_world (paper : WallPaper) (o : Outside) : World :=
  {| box := BackgroundPreviewBox paper; outside := o; guards := [];
     pending := []; effects := []; destroyed := false |}.

(** The worlds the box made for [paper] can be in: it is prepared once,
    then events arrive. *)
Inductive reachable (paper : WallPaper) : World -> Prop :=
| reachable_prepared o :
    reachable paper (prepare (new_world paper o))
| reachable_deliver w e w' :
    reachable paper w -> deliver e w = Ok w' -> reachable paper w'.

(** *** Vocabulary of the statements *)

(** The checkbox is there and reacts. *)
Definition enabled (b : Box) : bool :=
  match _blur b with
  | Some c => negb (disabled c)
  | None => false
  end.

Definition has_blur (b : Box) : bool :=
  match _blur b with Some _ => true | None => false end.

(** The condition under which [setScaledFromImage] enables it. *)
Definition may_enable (b : Box) : bool :=
  negb (bool_decide (is_Some (document (_paper b))))
  || negb (image_isNull (_full b)).

(** [quiet b b']: from [b] to [b'] the document of the paper, the full
    image, the title and the buttons stay, and the checkbox
    is enabled afterwards only if it was before or the condition holds. *)
Definition quiet (b b' : Box) : Prop :=
  document (_paper b') = document (_paper b)
  /\ _full b' = _full b
  /\ title b' = title b /\ buttons b' = buttons b
  /\ leftButtons b' = leftButtons b
  /\ has_blur b' = has_blur b
  /\ (enabled b' = true -> enabled b = true \/ may_enable b' = true).

(** [calm b b']: moreover the radial animation stays. *)
Definition calm (b b' : Box) : Prop :=
  quiet b b' /\ _radial b' = _radial b.

(** [mild b b']: as [quiet], but the full image may change. *)
Definition mild (b b' : Box) : Prop :=
  document (_paper b') = document (_paper b)
  /\ title b' = title b /\ buttons b' = buttons b
  /\ leftButtons b' = leftButtons b
  /\ has_blur b' = has_blur b
  /\ (enabled b' = true -> enabled b = true \/ may_enable b' = true).

(** [restless b b']: quiet, and the radial animation changed only for a
    paper that has a document. *)
Definition restless (b b' : Box) : Prop :=
  quiet b b' /\ (_radial b' = _radial b \/ is_Some (document (_paper b))).

(** The outside after the two load requests of [prepare]. *)
Definition loads_requested (w : World) : Outside :=
  loadDocument (_paper (box w)) (loadThumbnail (_paper (box w)) (outside w)).

(** The radial animation after [prepare]. *)
Definition radial_prepared (w : World) : RadialAnimation :=
  match document (_paper (box w)) with
  | Some d =>
      if loading (documents (loads_requested w) d)
      then radial_start (progress (documents (loads_requested w) d))
             (_radial (box w))
      else _radial (box w)
  | None => _radial (box w)
  end.

(** [prepare] up to the creation of the checkbox. *)
Definition prepare_widgets (w : World) : World :=
  let paper := _paper (box w) in
  let b :=
    set_radial (radial_prepared w)
      (updateServiceBg (backgroundColor paper)
         (set_chrome (Some lng_background_header)
            [(lng_background_apply, DoApply); (lng_cancel, DoCloseBox)]
            (if hasShareUrl paper then [(lng_background_share, DoShare)]
             else [])
            (dimensions (box w)) (box w))) in
  let b :=
    if bool_decide (is_Some (thumbnail paper)) && negb (isPattern paper)
    then createBlurCheckbox b else b in
  set_box b (set_outside (loads_requested w) w).

(** [prepare] from there on. *)
Definition prepare_images (w : World) : World :=
  let w := on_box (fun b => (setScaledFromThumb (outside w) b).2) w in
  let w := checkLoadedDocument w in
  on_box (fun b =>
    set_chrome (title b) (buttons b) (leftButtons b)
      (Some (boxWideWidth, boxWideWidth)) b) w.

(** While the radial animation runs, the paper has a document. *)
Definition radial_has_document (w : World) : Prop :=
  radial_animating (_radial (box w)) = true ->
  is_Some (document (_paper (box w))).

Definition chrome_prepared (paper : WallPaper) (b : Box) : Prop :=
  buttons b = [(lng_background_apply, DoApply); (lng_cancel, DoCloseBox)]
  /\ leftButtons b
     = (if hasShareUrl paper then [(lng_background_share, DoShare)] else []).

(** *** Vocabulary of the statements about guards *)

(** The guard a completion captured. *)
Definition task_guard (t : MainTask) : binary_guard :=
  match t with
  | ReadDone guard _ => guard
  | DecodeDone guard _ _ _ => guard
  end.

(** Every completion on its way whose guard is alive holds the pair of
    [_generating], and the box is still there. *)
Definition current_generation (w : World) : Prop :=
  forall t, t ∈ pending w -> alive (task_guard t) (guards w) = true ->
    task_guard t = _generating (box w) /\ destroyed w = false.

(** [backstage w w']: the guards, the completions on their way and the
    end the box holds are the same. *)
Definition backstage (w w' : World) : Prop :=
  guards w' = guards w /\ pending w' = pending w
  /\ destroyed w' = destroyed w
  /\ _generating (box w') = _generating (box w).

End Model.
End Preview.

(** ** A small application to run the box in *)

Module Demo.
Import Preview.

(** A wallpaper as a record of what the box asks of it. *)
Record Paper : Type := {
  id : Z;
  doc : option nat;
  thumb : option nat;
  pattern : bool;
  blurred : bool;
  slug : QString;
  color : option Z;
}.

Definition blur_paper (p : Paper) (b : bool) : Paper :=
  {| id := id p; doc := doc p; thumb := thumb p; pattern := pattern p;
     blurred := b; slug := slug p; color := color p |}.

(** A radial animation that runs from [start] until an update reports
    the end of the download. *)
Record Radial : Type := {
  running : bool;
  shown : Preview.float64;
}.

#[global] Instance toolkit : Toolkit := {|
  WallPaper := Paper;
  QImage := option Z;
  QPixmap := option Z;
  QColor := Z;
  RadialAnimation := Radial;
  Animation := bool;
|}.

#[global, refine] Instance host : Host := {|
  paper_id := id;
  document := doc;
  thumbnail := thumb;
  isPattern := pattern;
  isBlurred := blurred;
  withBlurred := blur_paper;
  hasShareUrl := fun p => negb (isEmpty (slug p));
  shareUrl := slug;
  backgroundColor := color;
  patternIntensity := fun _ => 50;
  withUrlParams := fun p _ => p;
  loadThumbnail := fun _ o => o;
  loadDocument := fun _ o => o;
  IsCloudWallPaper := fun p => negb (isEmpty (slug p));
  FromColorSlug := fun _ => None;
  PatternColor := fun c => c;
  PrepareBlurredBackground := fun i => i;
  null_image := None;
  image_isNull := fun i => match i with Some _ => false | None => true end;
  image_width := fun _ => 4;
  image_height := fun _ => 3;
  convertToFormat_ARGB32_Premultiplied := fun i => i;
  null_pixmap := None;
  pixmap_isNull := fun i => match i with Some _ => false | None => true end;
  pixmapFromImageInPlace := fun i => i;
  Images_prepare := fun i _ _ _ _ _ => i;
  ColorizePattern := fun i _ => i;
  taken_by_setChatBackground := fun _ _ => None;
  CountAverageColor := fun _ => 0;
  AdjustedColor := fun a _ => a;
  msgServiceBg := 7;
  boxWideWidth := 364;
  backgroundCheck_duration := 200;
  cIntRetinaFactor := 1;
  radial_new := {| running := false; shown := 0%Q |};
  radial_animating := running;
  radial_opacity := fun _ => 1%Q;
  radial_start := fun p _ => {| running := true; shown := p |};
  radial_update := fun p finished _ r =>
    ({| running := running r && negb finished; shown := p |}, true);
  animation_new := false;
  animating := fun a => a;
  animation_start := fun _ _ _ _ => true;
  animation_current := fun _ def a => (a, def);
  animation_step := fun _ _ => false;
|}.
Proof.
  - reflexivity.
  - reflexivity.
  - reflexivity.
Defined.

(** A cloud wallpaper with a thumbnail and a document that is being
    downloaded. *)
Definition paper : Paper :=
  {| id := 5; doc := Some 0%nat; thumb := Some 0%nat; pattern := false;
     blurred := false; slug := [Slug.latin1 "a"; Slug.latin1 "b"];
     color := None |}.

Definition downloading : Outside :=
  {| documents := fun _ =>
       {| loading := true; progress := 1 # 4; loaded := false;
          background_image := Some 1 |};
     thumbnails := fun _ => {| image_loaded := true; original := Some 2 |};
     background_id := 9;
     anim_disabled := false |}.

Definition downloaded : Outside :=
  {| documents := fun _ =>
       {| loading := false; progress := 1%Q; loaded := true;
          background_image := Some 1 |};
     thumbnails := fun _ => {| image_loaded := true; original := Some 2 |};
     background_id := 9;
     anim_disabled := false |}.

(** The box made for [paper] while the document downloads, and shown. *)
Definition made_world : World := new_world paper downloading.
Definition shown_world : World := prepare made_world.

(** The box shown for [paper] when the document is there already. *)
Definition ready_world : World := prepare (new_world paper downloaded).

(** The box shown for [paper] when the document is there already, after
    the file was read: the decode is on its way. *)
Definition decoding_world : World :=
  match deliver (MainThread 0) ready_world with
  | Contract.Ok w => w
  | Contract.Failed _ => ready_world
  end.

(** A box whose checkbox was just checked. *)
Definition checked_box : Box :=
  {| _paper := paper; _full := Some 1; _scaled := Some 2; _blurred := Some 3;
     _fadeOutThumbnail := None; _fadeIn := false;
     _radial := {| running := false; shown := 0%Q |};
     _generating := None;
     _blur := Some {| checked := true; disabled := false |};
     _serviceBg := None; title := None; buttons := []; leftButtons := [];
     dimensions := None |}.

End Demo.

(** ** The check view around the frame cache *)

Module CheckView.
Import Float64 Contract Frames.

(** How many frames of an entry are marked ready. *)
Fixpoint count_true (l : list bool) : nat :=
  match l with
  | [] => O
  | b :: l => ((if b then 1 else 0) + count_true l)%nat
  end.

(** [QMargins], the type of the [margin] field of the style. *)
Record QMargins : Type := {
  margin_left : Z;
  margin_top : Z;
  margin_right : Z;
  margin_bottom : Z;
}.

(** The progress a painting was made with, and which painter made it. *)
Definition progress_of (painting : FramePainting) : float64 :=
  match painting with
  | PaintFillingFrame progress | PaintCheckingFrame progress => progress
  end.

Definition is_checking (painting : FramePainting) : bool :=
  match painting with
  | PaintFillingFrame _ => false
  | PaintCheckingFrame _ => true
  end.

Section View.

Variable AnimationTimerDelta : Z.
Variable cIntRetinaFactor : Z.
Variable style_at : nat -> ServiceCheck.
(** The [margin] field of the style at an address. *)
Variable margin_at : nat -> QMargins.

(** [ServiceCheck::paint]; [toggled] is [currentAnimationValue(ms)]. *)
Definition paint (left top : Z) (st : nat) (toggled : float64)
    (g : Generator) : Result (Generator * DrawImage) :=
  paintFrame AnimationTimerDelta cIntRetinaFactor style_at
    (int_wrap (left + margin_left (margin_at st)))
    (int_wrap (top + margin_top (margin_at st)))
    st toggled g.

(** The subscription made in the constructor of the generator. *)
Definition background_updated (paletteChanged : bool) (g : Generator)
  : Generator :=
  if paletteChanged then invalidate g else g.

(** Every entry has one painting for each frame marked ready, at the
    place of that frame. *)
Definition painted_as_ready (g : Generator) : Prop :=
  forall st frames, g !! st = Some frames ->
    length (strip_painted (image frames)) = count_true (ready frames)
    /\ forall i : nat, ready frames !! i = Some true ->
         exists painting,
           (Z.of_nat i * diameter (style_at st), painting)
           ∈ strip_painted (image frames).

(** Every strip has the size it was created with. *)
Definition strip_as_created (g : Generator) : Prop :=
  forall st frames, g !! st = Some frames ->
    strip_width (image frames)
    = frame_count AnimationTimerDelta style_at st
      * diameter (style_at st) * cIntRetinaFactor
    /\ strip_height (image frames)
       = diameter (style_at st) * cIntRetinaFactor.

End View.

End CheckView.

(** ** The two painters of a frame *)

Module Painters.
Import Float64 Frames.

(** The fields of [style::ServiceCheck] the painters read, all in
    pixels. *)
Record CheckShape : Type := {
  shape_diameter : Z;
  shape_shift : Z;
  shape_thickness : Z;
  tip_x : Z;
  tip_y : Z;
  shape_small : Z;
  shape_large : Z;
  shape_stroke : Z;
}.

Inductive Brush : Type := StyleColor | Transparent.

(** What a painter draws: an ellipse in a [QRectF], filled with a brush,
    or the path of the check mark, stroked with a transparent pen; both
    either blended or, with [CompositionMode_Source], replacing what is
    there. *)
Inductive Drawing : Type :=
| DrawEllipse (brush : Brush) (replace : bool) (x y w h : float64)
| DrawPath (replace : bool) (stroke : Z) (points : list (float64 * float64)).

Definition add (a b : float64) : float64 := round64 (a + b).

Section Painters.

Variable st : CheckShape.

Definition PaintFillingFrame (progress : float64) : list Drawing :=
  let shift := mul progress (of_int (shape_shift st)) in
  let side := sub (of_int (shape_diameter st)) (mul 2%Q shift) in
  DrawEllipse StyleColor false shift shift side side
  :: (if lt progress 1%Q then
        let remove :=
          mul progress
            (sub (div (of_int (shape_diameter st)) 2%Q)
               (of_int (shape_thickness st))) in
        let inset := add (of_int (shape_thickness st)) remove in
        let inner := sub (of_int (shape_diameter st)) (mul 2%Q inset) in
        [DrawEllipse Transparent true inset inset inner inner]
      else []).

Definition PaintCheckingFrame (progress : float64) : list Drawing :=
  let shift := mul (sub 1%Q progress) (of_int (shape_shift st)) in
  let side := sub (of_int (shape_diameter st)) (mul 2%Q shift) in
  DrawEllipse StyleColor false shift shift side side
  :: (if gt progress 0%Q then
        let tip := (of_int (tip_x st), of_int (tip_y st)) in
        let left :=
          (sub tip.1 (mul (of_int (shape_small st)) progress),
           sub tip.2 (mul (of_int (shape_small st)) progress)) in
        let right :=
          (sub tip.1 (mul (of_int (- shape_large st)) progress),
           sub tip.2 (mul (of_int (shape_large st)) progress)) in
        [DrawPath true (shape_stroke st) [left; tip; right]]
      else []).

(** What [FillFrame] has drawn for a painting it made. *)
Definition drawn (painting : FramePainting) : list Drawing :=
  match painting with
  | Frames.PaintFillingFrame progress => PaintFillingFrame progress
  | Frames.PaintCheckingFrame progress => PaintCheckingFrame progress
  end.

End Painters.

(** Two drawings that are the same up to the representation of their
    coordinates. *)
Definition same_point (p q : float64 * float64) : Prop :=
  (p.1 == q.1)%Q /\ (p.2 == q.2)%Q.

Definition same_drawing (a b : Drawing) : Prop :=
  match a, b with
  | DrawEllipse ba ra xa ya wa ha, DrawEllipse bb rb xb yb wb hb =>
      ba = bb /\ ra = rb
      /\ (xa == xb)%Q /\ (ya == yb)%Q /\ (wa == wb)%Q /\ (ha == hb)%Q
  | DrawPath ra sa pa, DrawPath rb sb pb =>
      ra = rb /\ sa = sb /\ Forall2 same_point pa pb
  | _, _ => False
  end.

(** The pixel sizes of a style fit the circle they describe. *)
Definition shape_fits (st : CheckShape) : Prop :=
  0 <= shape_shift st /\ 0 <= shape_thickness st
  /\ 2 * shape_shift st <= shape_diameter st
  /\ 2 * shape_thickness st <= shape_diameter st
  /\ shape_diameter st < 2 ^ 20
  /\ 0 <= shape_small st <= tip_x st /\ shape_small st <= tip_y st
  /\ 0 <= shape_large st <= tip_y st
  /\ tip_x st + shape_large st <= shape_diameter st
  /\ tip_y st <= shape_diameter st.

Definition demo_shape : CheckShape :=
  {| shape_diameter := 20; shape_shift := 2; shape_thickness := 2;
     tip_x := 8; tip_y := 14; shape_small := 4; shape_large := 8;
     shape_stroke := 2 |}.

End Painters.

(** ** The box over its lifetime *)

Module Lifetime.
Import Contract Preview.

Section Vocabulary.
Context `{Host}.

(** [p'] is [p] after some calls of [withBlurred]. *)
Definition blur_variant (p p' : WallPaper) : Prop :=
  exists bs : list bool, p' = fold_left withBlurred bs p.

(** [tame b b']: from [b] to [b'] the guard end and the full image stay,
    the paper changed by [withBlurred] only, and not at all without the
    checkbox, a service background that was there is there, and the
    checkbox is there as before. *)
Definition tame (b b' : Box) : Prop :=
  _generating b' = _generating b
  /\ _full b' = _full b
  /\ blur_variant (_paper b) (_paper b')
  /\ (is_Some (_serviceBg b) -> is_Some (_serviceBg b'))
  /\ has_blur b' = has_blur b
  /\ (has_blur b = false -> _paper b' = _paper b).

Definition with_effects (es : list Effect) (w : World) : World :=
  {| box := box w; outside := outside w; guards := guards w;
     pending := pending w; effects := effects w ++ es;
     destroyed := destroyed w |}.

(** [redrawn es w w']: the box changed tamely, the effects [es] were
    added, and [checkLoadedDocument] may have run at the end. *)
Definition redrawn (es : list Effect) (w w' : World) : Prop :=
  exists b, tame (box w) b
    /\ (w' = with_effects es (set_box b w)
        \/ w' = checkLoadedDocument (with_effects es (set_box b w))).

(** The requests to repaint the box or a part of it. *)
Definition repaint_request (e : Effect) : bool :=
  match e with
  | Update | UpdateRadialRect => true
  | _ => false
  end.

(** Every completion on its way holds an end of a pair of its own, made
    before. *)
Definition cells_allocated (w : World) : Prop :=
  NoDup (map task_guard (pending w))
  /\ forall t, t ∈ pending w ->
       exists c : nat, task_guard t = Some c /\ (c < length (guards w))%nat.



End Vocabulary.

(** Demo scenes: the box of [Demo.paper] destroyed while the decode is
    on its way, and the box after the decode has arrived. *)
Definition closed_world : World :=
  match deliver Destroyed Demo.decoding_world with
  | Ok w => w
  | Failed _ => Demo.decoding_world
  end.

Definition decoded_world : World :=
  match deliver (MainThread 0) Demo.decoding_world with
  | Ok w => w
  | Failed _ => Demo.decoding_world
  end.



(** A pattern with a background color, and its box while the document
    downloads. *)
Definition pattern_paper : Demo.Paper :=
  {| Demo.id := 6; Demo.doc := Some 0%nat; Demo.thumb := Some 0%nat;
     Demo.pattern := true; Demo.blurred := false;
     Demo.slug := [Slug.latin1 "p"]; Demo.color := Some 3 |}.

Definition pattern_world : World :=
  prepare (new_world pattern_paper Demo.downloading).



End Lifetime.

(** ** The two text items of the preview *)

Module TextItems.
Import Slug Contract.

(** The flags of [MTPDmessage] the function sets. *)
Inductive Flag : Type := f_entities | f_from_id | f_out.

(** What the function reads of a [History]: whether its peer is a user,
    [peerToUser(history->peer->id)] and [history->session().userId()]. *)
Record History : Type := {
  peer_isUser : bool;
  peer_user : Z;
  session_userId : Z;
}.

(** The arguments [HistoryMessage] is made with. *)
Record HistoryMessage : Type := {
  msg_history : History;
  msg_id : Z;
  msg_flags : list Flag;
  msg_replyTo : Z;
  msg_viaBotId : Z;
  msg_date : Z;
  msg_from : Z;
  msg_postAuthor : QString;
  msg_text : QString;
}.

Section Items.

(** A constant of the application, and [TextUtilities::Clean]. *)
Variable ServerMaxMsgId : Z.
Variable Clean : QString -> QString.

(** The value the static [id] starts with. *)
Definition first_id : Z :=
  int_wrap (ServerMaxMsgId + Z.quot ServerMaxMsgId 3).

(** [GenerateTextItem]: [id] is the static counter, [now] what
    [unixtime()] returns.  The result is [None] when the [Expects]
    fails. *)
Definition GenerateTextItem (history : History) (text : QString) (out : bool)
    (now : Z) (id : Z) : option (HistoryMessage * Z) :=
  if negb (peer_isUser history) then None
  else
    let flags := [f_entities; f_from_id] ++ (if out then [f_out] else []) in
    let replyTo := 0 in
    let viaBotId := 0 in
    let id := int_wrap (id + 1) in
    Some ({| msg_history := history; msg_id := id; msg_flags := flags;
             msg_replyTo := replyTo; msg_viaBotId := viaBotId;
             msg_date := now;
             msg_from := if out then session_userId history
                         else peer_user history;
             msg_postAuthor := [];
             msg_text := Clean text |},
          id).

(** The initializers of [_text1] and [_text2] in the constructor of the
    box. *)
Definition text_items (history : History) (text1 text2 : QString)
    (now1 now2 : Z) (id : Z)
  : option (HistoryMessage * HistoryMessage * Z) :=
  '(text1, id) ← GenerateTextItem history text1 false now1 id;
  '(text2, id) ← GenerateTextItem history text2 true now2 id;
  Some (text1, text2, id).

End Items.

End TextItems.

(** ** Where the parts of the preview are painted *)

Module Layout.
Import Contract CheckView.

(** [int] arithmetic. *)
Definition add32 (a b : Z) : Z := int_wrap (a + b).
Definition sub32 (a b : Z) : Z := int_wrap (a - b).
Definition mul32 (a b : Z) : Z := int_wrap (a * b).
Definition div32 (a b : Z) : Z := int_wrap (Z.quot a b).

(** Within these bounds no [int] operation of the layout wraps. *)
Definition pixels (z : Z) : Prop := 0 <= z <= 2 ^ 20.

(** The arguments a [QRect] is made with. *)
Record QRect : Type := {
  rect_left : Z;
  rect_top : Z;
  rect_width : Z;
  rect_height : Z;
}.

(** The style constants the layout reads. *)
Record Metrics : Type := {
  historyPaddingBottom : Z;
  radialSize_width : Z;
  radialSize_height : Z;
  msgServicePadding : QMargins;
  msgServiceMargin_top : Z;
  msgServiceFont_height : Z;
  msgServiceFont_ascent : Z;
  boxWideWidth : Z;
  cIntRetinaFactor : Z;
}.

(** What [paintDate] draws: the rounded bubble and the text. *)
Record DateBadge : Type := {
  bubble : QRect;
  bubble_radius : Z;
  text_left : Z;
  text_baseline : Z;
}.

Section Layout.

Variable st : Metrics.

(** The handler of the sizes of the box and of the checkbox in
    [createBlurCheckbox]: where the checkbox is moved to. *)
Definition blur_position (outer inner : Z * Z) : Z * Z :=
  (div32 (sub32 outer.1 inner.1) 2,
   sub32 (sub32 outer.2 (historyPaddingBottom st)) inner.2).

(** [textsTop]: [blur_y] is [_blur->y()] when the box has the checkbox,
    [height] the height of the box, [height1] and [height2] the heights
    of the two text items. *)
Definition textsTop (blur_y : option Z) (height height1 height2 : Z) : Z :=
  let bottom := match blur_y with Some y => y | None => height end in
  sub32 (sub32 (sub32 bottom (historyPaddingBottom st)) height1) height2.

Definition radialRect (blur_y : option Z) (width height height1 height2 : Z)
  : QRect :=
  let available :=
    sub32 (textsTop blur_y height height1 height2)
      (historyPaddingBottom st) in
  {| rect_left := div32 (sub32 width (radialSize_width st)) 2;
     rect_top := div32 (sub32 available (radialSize_height st)) 2;
     rect_width := radialSize_width st;
     rect_height := radialSize_height st |}.

(** [paintTexts]: the vertical translation at which the date, the first
    and the second text item are drawn, and the translation it ends
    with. *)
Definition paintTexts (blur_y : option Z) (height height1 height2 : Z)
  : Z * Z * Z * Z :=
  let top := textsTop blur_y height height1 height2 in
  (top, top, add32 top height1, add32 (add32 top height1) height2).

(** [paintDate]: [date] is the width of the text of the date badge of
    the first item when it has one, [serviceBg] whether [_serviceBg] has
    a value, [width] the width of the box. *)
Definition paintDate (date : option Z) (serviceBg : bool) (width : Z)
  : option DateBadge :=
  match date with
  | None => None
  | Some textWidth =>
      if negb serviceBg then None
      else
        let padding := msgServicePadding st in
        let bubbleHeight :=
          add32 (add32 (margin_top padding) (msgServiceFont_height st))
            (margin_bottom padding) in
        let bubbleTop := msgServiceMargin_top st in
        let bubbleWidth :=
          add32 (add32 (margin_left padding) textWidth)
            (margin_right padding) in
        let bubbleLeft := div32 (sub32 width bubbleWidth) 2 in
        let radius := div32 bubbleHeight 2 in
        Some {| bubble := {| rect_left := bubbleLeft; rect_top := bubbleTop;
                             rect_width := bubbleWidth;
                             rect_height := bubbleHeight |};
                bubble_radius := radius;
                text_left := add32 bubbleLeft (margin_left padding);
                text_baseline :=
                  add32 (add32 bubbleTop (margin_top padding))
                    (msgServiceFont_ascent st) |}
  end.

(** The part of the pixmap [paintImage] draws, for a box of height
    [height]. *)
Definition paintImage_from (height : Z) : QRect :=
  let factor := cIntRetinaFactor st in
  let size := boxWideWidth st in
  {| rect_left := 0;
     rect_top := mul32 (div32 (sub32 size height) 2) factor;
     rect_width := mul32 size factor;
     rect_height := mul32 height factor |}.

End Layout.

(** Metrics for the examples. *)
Definition demo_metrics : Metrics :=
  {| historyPaddingBottom := 8;
     radialSize_width := 50; radialSize_height := 50;
     msgServicePadding :=
       {| margin_left := 12; margin_top := 3;
          margin_right := 12; margin_bottom := 5 |};
     msgServiceMargin_top := 10;
     msgServiceFont_height := 17; msgServiceFont_ascent := 13;
     boxWideWidth := 364; cIntRetinaFactor := 2 |}.

End Layout.

Module SlugFacts.
Import Slug.

Lemma bad_slug_char_spec (ch : QChar) :
  bad_slug_char ch = true <-> ~ slug_char ch.
Proof.
  unfold bad_slug_char, slug_char, is_ascii_letter, is_ascii_digit, latin1.
  cbn [N_of_ascii N_of_digits].
  rewrite !andb_true_iff, !orb_true_iff, !negb_true_iff.
  rewrite !N.eqb_neq, !N.ltb_lt. simpl. lia.
Qed.

Lemma IsValidWallPaperSlug_false (slug : QString) :
  IsValidWallPaperSlug slug = false <->
  slug = [] \/ 255 < size slug \/ exists ch, In ch slug /\ ~ slug_char ch.
Proof.
  unfold IsValidWallPaperSlug, kMaxWallPaperSlugLength.
  destruct slug as [|c rest] eqn:E; [simpl; tauto|]. rewrite <- E.
  assert (Hne : slug <> []) by (subst; discriminate).
  replace (isEmpty slug) with false by (subst; reflexivity).
  rewrite orb_false_l.
  destruct (Z.gtb_spec (size slug) 255) as [Hlong|Hshort].
  - split; [intros _; right; left; lia | reflexivity].
  - destruct (find bad_slug_char slug) as [ch|] eqn:F.
    + apply find_some in F as [Hin Hbad]. apply bad_slug_char_spec in Hbad.
      split; [intros _; right; right; eauto | reflexivity].
    + split; [discriminate|].
      intros [?|[?|(ch & Hin & Hbad)]]; [contradiction | lia |].
      apply bad_slug_char_spec in Hbad.
      pose proof (find_none _ _ F ch Hin). congruence.
Qed.

Example slug_accepted :
  IsValidWallPaperSlug (map latin1 ["a"; "B"; "9"; "_"; "-"; "."]%char) = true.
Proof. reflexivity. Qed.

Example slug_with_slash_rejected :
  IsValidWallPaperSlug (map latin1 ["a"; "/"]%char) = false.
Proof. reflexivity. Qed.

Example slug_too_long_rejected :
  IsValidWallPaperSlug (replicate 256 (latin1 "a")) = false.
Proof. reflexivity. Qed.

Example slug_of_full_length_accepted :
  IsValidWallPaperSlug (replicate 255 (latin1 "a")) = true.
Proof. reflexivity. Qed.

End SlugFacts.

Module Float64Facts.
Import Float64.

(** The model gives the doubles next to 1/3 and 1/10, and rounds a tie to
    the even neighbour. *)
Example round64_third :
  Qred (round64 (1 # 3)) = (6004799503160661 # 18014398509481984)%Q.
Proof. vm_compute. reflexivity. Qed.

Example round64_tenth :
  Qred (round64 (1 # 10)) = (3602879701896397 # 36028797018963968)%Q.
Proof. vm_compute. reflexivity. Qed.

Example round64_tie :
  Qred (round64 (inject_Z (2 ^ 53 + 1))) = inject_Z (2 ^ 53).
Proof. vm_compute. reflexivity. Qed.

Example std_round_half : to_int (std_round (3 # 2)) = 2.
Proof. reflexivity. Qed.

Lemma pow2_pos (e : Z) : (0 < pow2 e)%Q.
Proof. unfold pow2. apply Qpower_0_lt. reflexivity. Qed.

Lemma pow2_opp (e : Z) : (pow2 (- e) * pow2 e == 1)%Q.
Proof.
  unfold pow2. rewrite <- Qpower_plus by discriminate.
  replace (- e + e) with 0 by lia. reflexivity.
Qed.

Lemma pow2_nonneg_Z (e : Z) : 0 <= e -> (pow2 e == inject_Z (2 ^ e))%Q.
Proof. intros He. unfold pow2. rewrite Zpower_Qpower by lia. reflexivity. Qed.

Lemma rne_le_int (y : Q) (k : Z) : (y <= inject_Z k)%Q -> rne y <= k.
Proof.
  intros Hy. unfold rne.
  pose proof (Qfloor_le y) as Hfl.
  assert (Hfk : Qfloor y <= k).
  { apply Qfloor_resp_le in Hy. rewrite Qfloor_Z in Hy. exact Hy. }
  destruct (Z.eq_dec (Qfloor y) k) as [Hk|Hk].
  - rewrite Hk in *.
    assert (Hc : Qcompare (y - inject_Z k) (1 # 2) = Lt).
    { apply -> Qlt_alt. lra. }
    rewrite Hc. lia.
  - destruct (Qcompare _ _); [destruct (Z.even _)| |]; lia.
Qed.

Lemma rne_nonneg (y : Q) : (0 <= y)%Q -> 0 <= rne y.
Proof.
  intros Hy. unfold rne.
  assert (Hf : 0 <= Qfloor y).
  { change 0%Q with (inject_Z 0) in Hy.
    apply Qfloor_resp_le in Hy. rewrite Qfloor_Z in Hy. exact Hy. }
  destruct (Qcompare _ _); [destruct (Z.even _)| |]; lia.
Qed.

(** The binade of a positive rational below [2^52] is below 52. *)
Lemma binade_small (x : Q) (c : Z) :
  (0 < x)%Q -> (x <= inject_Z c)%Q -> c < 2 ^ 52 -> binade x <= 52.
Proof.
  intros Hpos Hle Hc. unfold binade.
  destruct x as [n d]. cbn [Qnum Qden].
  assert (Hn : 0 < n) by (unfold Qlt in Hpos; simpl in Hpos; lia).
  assert (Hnd : n <= c * Z.pos d) by (unfold Qle in Hle; simpl in Hle; lia).
  assert (Hlog : Z.log2 n <= 52 + Z.log2 (Z.pos d)).
  { assert (n <= Z.pos d * 2 ^ 52) by nia.
    rewrite <- Z.log2_mul_pow2 by lia. apply Z.log2_le_mono. assumption. }
  destruct (Qlt_le_dec _ _); lia.
Qed.

Lemma div_pow2 (x : Q) (q : Z) : (x / pow2 q == x * pow2 (- q))%Q.
Proof. unfold Qdiv, pow2. rewrite Qpower_opp. reflexivity. Qed.

Lemma round64_range (x : Q) (c : Z) :
  (0 <= x)%Q -> (x <= inject_Z c)%Q -> c < 2 ^ 52 ->
  (0 <= round64 x)%Q /\ (round64 x <= inject_Z c)%Q.
Proof.
  intros H0 Hle Hc. unfold round64.
  destruct (Qcompare x 0) eqn:Cmp.
  - split; [lra|]. apply Qeq_alt in Cmp. lra.
  - apply Qlt_alt in Cmp. lra.
  - apply Qgt_alt in Cmp. unfold round_pos.
    pose proof (binade_small x c Cmp Hle Hc) as Hb.
    set (q := Z.max (binade x - 52) (-1074)).
    assert (Hq : q <= 0) by lia.
    pose proof (pow2_pos q) as Hp.
    pose proof (pow2_opp q) as Hinv.
    pose proof (pow2_nonneg_Z (- q) ltac:(lia)) as HZ.
    pose proof (pow2_pos (- q)) as Hp'.
    pose proof (div_pow2 x q) as Hy.
    assert (Hy0 : (0 <= x / pow2 q)%Q) by (rewrite Hy; nra).
    assert (HyK : (x / pow2 q <= inject_Z (c * 2 ^ (- q)))%Q).
    { rewrite Hy, inject_Z_mult, <- HZ. nra. }
    apply rne_nonneg in Hy0. apply rne_le_int in HyK.
    set (r := rne (x / pow2 q)) in *.
    assert (Hr0 : (0 <= inject_Z r)%Q) by (rewrite <- (Zle_Qle 0); lia).
    assert (HrK : (inject_Z r <= inject_Z c * pow2 (- q))%Q).
    { rewrite HZ, <- inject_Z_mult, <- Zle_Qle. exact HyK. }
    split; [nra|].
    assert (Hc1 : (inject_Z c == inject_Z c * (pow2 (- q) * pow2 q))%Q).
    { rewrite Hinv. ring. }
    rewrite Hc1. nra.
Qed.

Lemma Qfloor_nonneg (y : Q) : (0 <= y)%Q -> 0 <= Qfloor y.
Proof.
  intros Hy. change 0%Q with (inject_Z 0) in Hy.
  apply Qfloor_resp_le in Hy. rewrite Qfloor_Z in Hy. exact Hy.
Qed.

Lemma Qfloor_half_le (y : Q) (c : Z) :
  (y <= inject_Z c)%Q -> Qfloor (y + (1 # 2)) <= c.
Proof.
  intros Hy. pose proof (Qfloor_le (y + (1 # 2))) as Hfl.
  assert (H : (inject_Z (Qfloor (y + (1 # 2))) < inject_Z (c + 1))%Q).
  { rewrite inject_Z_plus. change (inject_Z 1) with 1%Q. lra. }
  rewrite <- Zlt_Qlt in H. lia.
Qed.

Lemma std_round_range (x : Q) (c : Z) :
  (0 <= x)%Q -> (x <= inject_Z c)%Q -> 0 <= to_int (std_round x) <= c.
Proof.
  intros H0 Hle. unfold std_round.
  assert (Hb : Qle_bool 0 x = true) by (apply Qle_bool_iff; exact H0).
  rewrite Hb. unfold to_int.
  assert (Hf0 : 0 <= Qfloor (x + (1 # 2))) by (apply Qfloor_nonneg; lra).
  pose proof (Qfloor_half_le x c Hle) as Hfc.
  assert (Hb' : Qle_bool 0 (inject_Z (Qfloor (x + (1 # 2)))) = true).
  { apply Qle_bool_iff. change 0%Q with (inject_Z 0). rewrite <- Zle_Qle. exact Hf0. }
  rewrite Hb', Qfloor_Z. lia.
Qed.

End Float64Facts.

(** ** Facts about the frame cache *)

Module FramesFacts.
Import Float64 Float64Facts Contract Frames.

Lemma int_wrap_id (z : Z) : - 2 ^ 31 <= z <= INT_MAX -> int_wrap z = z.
Proof.
  unfold int_wrap, INT_MAX. intros H.
  rewrite Z.mod_small by lia. lia.
Qed.

Section GeneratorFacts.

Variable AnimationTimerDelta : Z.
Variable cIntRetinaFactor : Z.
Variable style_at : nat -> ServiceCheck.

Local Abbreviation frame_count := (frame_count AnimationTimerDelta style_at).
Local Abbreviation framesForStyle := (framesForStyle AnimationTimerDelta cIntRetinaFactor style_at).
Local Abbreviation paintFrame := (paintFrame AnimationTimerDelta cIntRetinaFactor style_at).
Local Abbreviation generated := (generated AnimationTimerDelta cIntRetinaFactor style_at).
Local Abbreviation sized := (sized AnimationTimerDelta style_at).

Lemma framesForStyle_sized st g :
  sized g ->
  length (ready (framesForStyle st g).1) = Z.to_nat (frame_count st)
  /\ sized (framesForStyle st g).2
  /\ (framesForStyle st g).2 !! st = Some (framesForStyle st g).1.
Proof.
  intros Hs. unfold Frames.framesForStyle.
  destruct (g !! st) as [fr|] eqn:E; simpl.
  - eauto.
  - rewrite length_replicate. split; [reflexivity|]. split.
    + intros st' fr'. rewrite lookup_insert. case_decide as Hd.
      * subst st'. intros [= <-]. simpl. by rewrite length_replicate.
      * apply Hs.
    + by rewrite lookup_insert_eq.
Qed.

Lemma paintFrame_sized left top st toggled g g' d :
  sized g -> paintFrame left top st toggled g = Ok (g', d) -> sized g'.
Proof.
  intros Hs. unfold Frames.paintFrame.
  destruct (framesForStyle_sized st g Hs) as (Hlen & Hs1 & _).
  destruct (framesForStyle st g) as [fr g1]. simpl in Hlen, Hs1.
  destruct (check _ _); simpl; [|discriminate].
  match goal with |- context [mbind _ ?m] => destruct m as [fr'|] eqn:Efr end;
    simpl; [|discriminate].
  intros [= <- _].
  assert (Hlen' : length (ready fr') = length (ready fr)).
  { destruct (ready fr !! _) as [[|]|]; simplify_eq; try reflexivity;
      (destruct (FillFrame _ _ _ _ _); simpl in Efr; simplify_eq; simpl;
       apply length_insert). }
  intros st' fr''. rewrite lookup_insert. case_decide as Hd.
  - subst st'. intros [= <-]. congruence.
  - apply Hs1.
Qed.

Lemma generated_sized g : generated g -> sized g.
Proof.
  induction 1 as [|g left top st toggled g' d _ IH Hp|g _ _].
  - intros st fr. by rewrite lookup_empty.
  - eapply paintFrame_sized; eassumption.
  - intros st fr. unfold invalidate. by rewrite lookup_empty.
Qed.

Lemma frame_index_range (toggled : float64) (count : Z) :
  (0 <= toggled)%Q -> (toggled <= 1)%Q -> 2 <= count <= INT_MAX ->
  0 <= frame_index toggled count <= count - 1.
Proof.
  intros H0 H1 Hc. unfold frame_index, mul, of_int.
  rewrite int_wrap_id by (unfold INT_MAX in *; lia).
  assert (Hc1 : (0 <= inject_Z (count - 1))%Q).
  { change 0%Q with (inject_Z 0). rewrite <- Zle_Qle. lia. }
  destruct (round64_range (toggled * inject_Z (count - 1)) (count - 1))
    as [Hr0 Hr1]; [nra | nra | unfold INT_MAX in *; lia |].
  apply std_round_range; assumption.
Qed.

(** C8.  For an animation value [toggled] in [[0, 1]], a style with a
    non-negative duration and a positive timer delta (the frame count
    being representable as an [int]), the number of frames is
    [duration / AnimationTimerDelta + 2], which is at least 2, and the
    index [round(toggled * (count - 1))] lies in [[0, count)]: the
    [Assert] of [paintFrame] and both [Expects] of [FillFrame] pass, in
    every state the generator can be in. *)
Theorem paintFrame_index_in_range
    (g : Generator) (left top : Z) (st : nat) (toggled : float64) :
  generated g ->
  0 <= duration (style_at st) ->
  0 < AnimationTimerDelta ->
  Z.quot (duration (style_at st)) AnimationTimerDelta + 2 <= INT_MAX ->
  (0 <= toggled)%Q -> (toggled <= 1)%Q ->
  let frames := (framesForStyle st g).1 in
  let count := int_wrap (Z.of_nat (length (ready frames))) in
  let index := frame_index toggled count in
  count = Z.quot (duration (style_at st)) AnimationTimerDelta + 2
  /\ 2 <= count
  /\ 0 <= index < count
  /\ succeeded (FillFrame style_at (image frames) st index count) = true
  /\ succeeded (paintFrame left top st toggled g) = true.
Proof.
  intros Hg Hd Hdelta Hmax Ht0 Ht1 frames count index.
  pose proof (Z.quot_pos _ _ Hd Hdelta) as Hq.
  destruct (framesForStyle_sized st g (generated_sized g Hg)) as (Hlen & _ & _).
  assert (Hfc : frame_count st
                = Z.quot (duration (style_at st)) AnimationTimerDelta + 2).
  { unfold Frames.frame_count. apply int_wrap_id. unfold INT_MAX in *. lia. }
  assert (Hcount : count
                   = Z.quot (duration (style_at st)) AnimationTimerDelta + 2).
  { unfold count, frames. rewrite Hlen, Hfc, Z2Nat.id by lia.
    apply int_wrap_id. unfold INT_MAX in *. lia. }
  assert (Hidx : 0 <= index <= count - 1).
  { apply frame_index_range; try assumption. lia. }
  assert (Hchk1 : (count >? 1) = true) by lia.
  assert (Hchk2 : (index >=? 0) && (index <? count) = true) by lia.
  assert (Hfill : forall img,
             succeeded (FillFrame style_at img st index count) = true).
  { intros img. unfold FillFrame. rewrite Hchk1, Hchk2. reflexivity. }
  repeat split; try lia.
  - apply Hfill.
  - unfold Frames.paintFrame. subst index count frames.
    destruct (framesForStyle st g) as [fr g1]. cbn [fst] in *.
    rewrite Hchk2. simpl.
    destruct (ready fr !! _) as [[|]|]; try reflexivity;
      (specialize (Hfill (image fr));
       destruct (FillFrame style_at (image fr) st _ _);
       [reflexivity | discriminate]).
Qed.

End GeneratorFacts.

Example frame_index_third : frame_index (1 # 3) 30 = 10.
Proof. vm_compute. reflexivity. Qed.

Example frame_index_one : frame_index 1%Q 30 = 29.
Proof. vm_compute. reflexivity. Qed.

Lemma paintFrame_index_in_range_witness :
  let style_at := fun _ : nat => {| diameter := 20; duration := 200 |} in
  0 <= frame_index (1 # 2) 30 < 30
  /\ succeeded (paintFrame 7 1 style_at 0 0 0 (1 # 2) ∅) = true.
Proof.
  intros style_at.
  destruct (paintFrame_index_in_range 7 1 style_at ∅ 0 0 0 (1 # 2))
    as (_ & _ & Hidx & _ & Hok).
  - apply generated_new.
  - simpl. lia.
  - lia.
  - vm_compute. discriminate.
  - vm_compute. discriminate.
  - vm_compute. discriminate.
  - split; [exact Hidx | exact Hok].
Defined.

End FramesFacts.

(** ** Facts about colorizing *)

Module PatternFacts.
Import Contract Pattern.

Lemma store32_length b i v : length (store32 b i v) = length b.
Proof. unfold store32. by rewrite !length_insert. Qed.

(** Outside the stored word the buffer is as before. *)
Lemma store32_other b i v (j : nat) :
  0 <= i -> (Z.of_nat j < 4 * i \/ 4 * i + 4 <= Z.of_nat j) ->
  store32 b i v !! j = b !! j.
Proof.
  intros Hi Hj. unfold store32.
  rewrite !list_lookup_insert_ne by lia. reflexivity.
Qed.

(** Inside it are the four bytes of the value. *)
Lemma store32_byte b i v (k : Z) :
  0 <= i -> 0 <= k < 4 -> 4 * i + 4 <= Z.of_nat (length b) ->
  store32 b i v !! Z.to_nat (4 * i + k) = Some (byte_of k v).
Proof.
  intros Hi Hk Hlen. unfold store32.
  assert (Hcase : k = 0 \/ k = 1 \/ k = 2 \/ k = 3) by lia.
  destruct Hcase as [-> | [-> | [-> | ->]]].
  - rewrite !list_lookup_insert_ne by lia.
    replace (Z.to_nat (4 * i + 0)) with (Z.to_nat (4 * i)) by lia.
    apply list_lookup_insert_eq. lia.
  - rewrite !list_lookup_insert_ne by lia.
    replace (Z.to_nat (4 * i + 1)) with (Z.to_nat (4 * i) + 1)%nat by lia.
    apply list_lookup_insert_eq. rewrite !length_insert. lia.
  - rewrite !list_lookup_insert_ne by lia.
    replace (Z.to_nat (4 * i + 2)) with (Z.to_nat (4 * i) + 2)%nat by lia.
    apply list_lookup_insert_eq. rewrite !length_insert. lia.
  - replace (Z.to_nat (4 * i + 3)) with (Z.to_nat (4 * i) + 3)%nat by lia.
    apply list_lookup_insert_eq. rewrite !length_insert. lia.
Qed.

Section LoopFacts.

Variable QColor : Type.
Variable Shifted : Type.
Variable shifted : QColor -> Shifted.
Variable shifted_mul : Shifted -> Z -> Shifted.
Variable unshifted : Shifted -> Z.
Variable convertToFormat : QImage -> Format -> QImage.

Local Abbreviation line_loop := (line_loop Shifted shifted_mul unshifted).
Local Abbreviation image_loop := (image_loop Shifted shifted_mul unshifted).
Local Abbreviation pixel_step := (pixel_step Shifted shifted_mul unshifted).

Variable pattern : Shifted.

Local Abbreviation word_for := (word_for Shifted shifted_mul unshifted pattern).
Local Abbreviation written := (written Shifted shifted_mul unshifted pattern).

Lemma line_loop_spec (n : nat) : forall (b0 : list Z) (r : Z),
  0 <= r -> 4 * (r + Z.of_nat n) <= Z.of_nat (length b0) ->
  let c := line_loop pattern 4 1 n
             {| buffer := b0; maskBytes := 4 * r + 3; resultInts := r |} in
  maskBytes c = 4 * (r + Z.of_nat n) + 3
  /\ resultInts c = r + Z.of_nat n
  /\ untouched b0 (buffer c) r (Z.of_nat n)
  /\ forall p, r <= p < r + Z.of_nat n -> written b0 (buffer c) p.
Proof.
  induction n as [|n IH]; intros b0 r Hr Hlen; cbn zeta.
  - simpl. repeat split; try lia.
  - cbn [Pattern.line_loop].
    set (b1 := store32 b0 r (word_for b0 r)).
    assert (Hstep : pixel_step pattern 4 1
                      {| buffer := b0; maskBytes := 4 * r + 3; resultInts := r |}
                    = {| buffer := b1; maskBytes := 4 * (r + 1) + 3;
                         resultInts := r + 1 |}).
    { unfold Pattern.pixel_step, b1, Pattern.word_for. cbn [buffer maskBytes resultInts].
      f_equal. lia. }
    rewrite Hstep.
    assert (Hlen1 : length b1 = length b0) by apply store32_length.
    destruct (IH b1 (r + 1)) as (Hm & Hri & [Hl Hun] & Hw); [lia | lia |].
    split; [lia|]. split; [lia|]. split; [|].
    + split; [congruence|]. intros j Hj.
      rewrite Hun by lia. apply store32_other; lia.
    + intros p Hp k Hk.
      destruct (Z.eq_dec p r) as [-> | Hne].
      * rewrite Hun by lia. unfold b1. apply store32_byte; lia.
      * assert (Hwf : word_for b1 p = word_for b0 p).
        { unfold Pattern.word_for, load8. f_equal. f_equal. f_equal. f_equal.
          apply store32_other; lia. }
        rewrite <- Hwf. apply Hw; lia.
Qed.

Lemma image_loop_spec (w ipl : Z) (n : nat) : forall (b0 : list Z) (r : Z),
  0 <= r -> 0 <= w <= ipl ->
  4 * (r + Z.of_nat n * ipl) <= Z.of_nat (length b0) ->
  let c := image_loop pattern w 4 1 (4 * ipl - w * 4) (ipl - w * 1) n
             {| buffer := b0; maskBytes := 4 * r + 3; resultInts := r |} in
  untouched b0 (buffer c) r (Z.of_nat n * ipl)
  /\ forall i x, 0 <= i < Z.of_nat n -> 0 <= x < w ->
       written b0 (buffer c) (r + i * ipl + x).
Proof.
  induction n as [|n IH]; intros b0 r Hr Hw Hlen; cbn zeta.
  - simpl. split; [split; [reflexivity | auto] | intros; lia].
  - cbn [Pattern.image_loop].
    assert (Hn : Z.of_nat (S n) * ipl = ipl + Z.of_nat n * ipl) by lia.
    assert (Hn0 : 0 <= Z.of_nat n * ipl) by nia.
    destruct (line_loop_spec (Z.to_nat w) b0 r) as (Hm & Hri & [Hl1 Hun1] & Hw1);
      [lia | lia |].
    set (c1 := line_loop pattern 4 1 (Z.to_nat w) _) in *.
    rewrite Hm, Hri, Z2Nat.id by lia.
    replace (4 * (r + w) + 3 + (4 * ipl - w * 4)) with (4 * (r + ipl) + 3) by lia.
    replace (r + w + (ipl - w * 1)) with (r + ipl) by lia.
    rewrite Z2Nat.id in Hun1, Hw1 by lia.
    destruct (IH (buffer c1) (r + ipl)) as ([Hl2 Hun2] & Hw2); [lia | lia | lia |].
    set (c2 := image_loop _ _ _ _ _ _ _ _) in *.
    split.
    + split; [congruence|]. intros j Hj.
      rewrite Hun2 by lia. apply Hun1. lia.
    + intros i x Hi Hx k Hk.
      destruct (Z.eq_dec i 0) as [-> | Hi0].
      * rewrite Hun2 by lia. apply Hw1; lia.
      * assert (Hp : r + i * ipl + x = r + ipl + (i - 1) * ipl + x) by lia.
        assert (Hge : ipl <= i * ipl) by nia.
        assert (Hwf : word_for (buffer c1) (r + i * ipl + x)
                      = word_for b0 (r + i * ipl + x)).
        { unfold Pattern.word_for, load8. f_equal. f_equal. f_equal. f_equal.
          apply Hun1. lia. }
        rewrite <- Hwf, Hp. apply Hw2; lia.
Qed.

End LoopFacts.

Section ColorizeFacts.

Variable QColor : Type.
Variable Shifted : Type.
Variable shifted : QColor -> Shifted.
Variable shifted_mul : Shifted -> Z -> Shifted.
Variable unshifted : Shifted -> Z.
Variable convertToFormat : QImage -> Format -> QImage.

Local Abbreviation ColorizePattern :=
  (ColorizePattern QColor Shifted shifted shifted_mul unshifted convertToFormat).
Local Abbreviation premultiplied := (premultiplied convertToFormat).
Local Abbreviation colorized := (colorized QColor Shifted shifted shifted_mul unshifted).

Lemma assertions_geometry (a b : QImage) :
  width a = width b -> depth a = depth b -> bytesPerLine a = bytesPerLine b ->
  assertions a = assertions b.
Proof. unfold assertions. intros -> -> ->. reflexivity. Qed.

Local Ltac first_check :=
  match goal with
  | |- mbind _ (check _ ?b) = _ -> _ =>
      destruct b eqn:?; cbn [check mbind Result_bind bind]; [|discriminate]
  | |- check _ ?b = _ -> _ =>
      destruct b eqn:?; cbn [check]; [|discriminate]
  end.

Lemma assertions_ok (image : QImage) :
  assertions image = Ok tt ->
  depth image = 32
  /\ bytesPerLine image = 4 * Z.shiftr (bytesPerLine image) 2
  /\ width image <= Z.shiftr (bytesPerLine image) 2.
Proof.
  unfold assertions. cbn zeta. do 3 first_check. intros _.
  change (Z.shiftl (1 * 4) 3) with 32 in *.
  rewrite Z.shiftl_mul_pow2 in * by lia. change (2 ^ 2) with 4 in *. lia.
Qed.

Local Ltac split_checks :=
  unfold check;
  repeat (match goal with
          | |- context [if ?b then _ else _] => destruct b eqn:?
          end; cbn [mbind Result_bind bind]).

(** The function is its assertions followed by the loops. *)
Lemma ColorizePattern_unfold (image : QImage) (color : QColor) :
  ColorizePattern image color =
  (assertions (premultiplied image) ;;
   Ok (with_bits (premultiplied image)
         (buffer
            (image_loop Shifted shifted_mul unshifted (shifted color)
               (width (premultiplied image))
               (Z.shiftr (depth (premultiplied image)) 3) 1
               (bytesPerLine (premultiplied image)
                - width (premultiplied image)
                  * Z.shiftr (depth (premultiplied image)) 3)
               (Z.shiftr (bytesPerLine (premultiplied image)) 2
                - width (premultiplied image) * 1)
               (Z.to_nat (height (premultiplied image)))
               {| buffer := bits (premultiplied image);
                  maskBytes := Z.shiftr (depth (premultiplied image)) 3 - 1;
                  resultInts := 0 |})))).
Proof.
  unfold Pattern.ColorizePattern, assertions. cbn zeta.
  split_checks; reflexivity.
Qed.

(** What the function returns for an image that passes the assertions:
    the geometry is kept, and every pixel holds the value computed from
    the color and from the alpha byte the pixel had. *)
Lemma ColorizePattern_pixels (image : QImage) (color : QColor) :
  let im := premultiplied image in
  valid_buffer im -> assertions im = Ok tt ->
  exists r, ColorizePattern image color = Ok r
    /\ format r = format im /\ width r = width im /\ height r = height im
    /\ depth r = depth im /\ bytesPerLine r = bytesPerLine im
    /\ forall x y k, 0 <= x < width im -> 0 <= y < height im -> 0 <= k < 4 ->
         bits r !! Z.to_nat (y * bytesPerLine im + 4 * x + k)
         = Some (byte_of k
                   (colorized color
                      (load8 (bits im) (y * bytesPerLine im + 4 * x + 3)))).
Proof.
  intros im (Hw0 & Hh0 & Hlen) Hok.
  destruct (assertions_ok _ Hok) as (Hd & Hb & Hw).
  rewrite ColorizePattern_unfold. fold im. rewrite Hok.
  cbn [mbind Result_bind bind].
  eexists. split; [reflexivity|]. cbn [with_bits format width height depth bytesPerLine bits].
  repeat (split; [reflexivity|]).
  rewrite Hd. change (Z.shiftr 32 3) with 4. change (4 - 1) with (4 * 0 + 3).
  set (ipl := Z.shiftr (bytesPerLine im) 2) in *.
  replace (bytesPerLine im - width im * 4) with (4 * ipl - width im * 4) by lia.
  destruct (image_loop_spec Shifted shifted_mul unshifted (shifted color)
              (width im) ipl (Z.to_nat (height im)) (bits im) 0)
    as (_ & Hwr); [lia | lia | nia |].
  intros x y k Hx Hy Hk.
  specialize (Hwr y x ltac:(lia) Hx k Hk).
  replace (4 * (0 + y * ipl + x) + k) with (y * bytesPerLine im + 4 * x + k)
    in Hwr by lia.
  rewrite Hwr. unfold Pattern.word_for, Pattern.colorized.
  replace (4 * (0 + y * ipl + x) + 3) with (y * bytesPerLine im + 4 * x + 3)
    by lia.
  reflexivity.
Qed.

(** For a well-formed 32-bit image every assertion passes. *)
Lemma assertions_well_formed (image : QImage) :
  well_formed image -> assertions image = Ok tt.
Proof.
  intros ((Hw & Hh & Hlen) & Hd & Hmod & Hwide).
  unfold assertions. cbn zeta. rewrite Hd.
  change (Z.shiftl (1 * 4) 3) with 32. change (Z.shiftr 32 3) with 4.
  change (Z.shiftl 4 3) with 32.
  rewrite Z.shiftl_mul_pow2, Z.shiftr_div_pow2 by lia. change (2 ^ 2) with 4.
  assert (Hb : bytesPerLine image = bytesPerLine image / 4 * 4).
  { rewrite (Z.div_mod (bytesPerLine image) 4) at 1 by lia. lia. }
  unfold check.
  replace (bytesPerLine image / 4 - width image * 1 >=? 0) with true by lia.
  replace (32 =? 32) with true by reflexivity.
  replace (bytesPerLine image =? bytesPerLine image / 4 * 4) with true by lia.
  replace (bytesPerLine image - width image * 4 >=? 0) with true by lia.
  reflexivity.
Qed.

Lemma pixel_bytes_eq (a b : QImage) (x y : Z) :
  0 <= x -> 0 <= y -> 0 <= bytesPerLine a -> bytesPerLine a = bytesPerLine b ->
  (forall k, 0 <= k < 4 ->
     bits a !! Z.to_nat (y * bytesPerLine a + 4 * x + k)
     = bits b !! Z.to_nat (y * bytesPerLine a + 4 * x + k)) ->
  pixel_bytes a x y = pixel_bytes b x y.
Proof.
  intros Hx Hy Hbpl Heq H. unfold pixel_bytes. rewrite <- Heq.
  assert (Hnn : 0 <= y * bytesPerLine a + 4 * x) by nia.
  set (o := y * bytesPerLine a + 4 * x) in *.
  pose proof (H 0 ltac:(lia)) as H0. pose proof (H 1 ltac:(lia)) as H1.
  pose proof (H 2 ltac:(lia)) as H2. pose proof (H 3 ltac:(lia)) as H3.
  replace (Z.to_nat (o + 0)) with (Z.to_nat o) in H0 by lia.
  replace (Z.to_nat (o + 1)) with (Z.to_nat o + 1)%nat in H1 by lia.
  replace (Z.to_nat (o + 2)) with (Z.to_nat o + 2)%nat in H2 by lia.
  replace (Z.to_nat (o + 3)) with (Z.to_nat o + 3)%nat in H3 by lia.
  congruence.
Qed.

(** C10.  [ColorizePattern] reads nothing of a pixel but its alpha byte:
    on two images of the same format and geometry whose pixels agree on
    the alpha byte (after the conversion to the premultiplied format the
    function starts with), colorizing with the same color ends in the
    same way, and when it returns the two results have the same pixels. *)
Theorem ColorizePattern_alpha_only (a b : QImage) (color : QColor) :
  valid_buffer (premultiplied a) ->
  valid_buffer (premultiplied b) ->
  same_alpha (premultiplied a) (premultiplied b) ->
  agree (ColorizePattern a color) (ColorizePattern b color).
Proof.
  intros Hva Hvb (Hf & Hw & Hh & Hd & Hbpl & Halpha).
  pose proof (assertions_geometry _ _ Hw Hd Hbpl) as Hsame.
  destruct (assertions (premultiplied a)) as [[]|v] eqn:Ha.
  - destruct (ColorizePattern_pixels a color Hva Ha)
      as (ra & -> & Hfa & Hwa & Hha & Hda & Hba & Hpa).
    destruct (ColorizePattern_pixels b color Hvb (eq_sym Hsame))
      as (rb & -> & Hfb & Hwb & Hhb & Hdb & Hbb & Hpb).
    simpl. repeat (split; [congruence|]).
    intros x y Hx Hy. rewrite Hwa in Hx. rewrite Hha in Hy.
    assert (Hbnn : 0 <= bytesPerLine (premultiplied a)).
    { destruct Hva as (_ & _ & Hlen). nia. }
    apply pixel_bytes_eq; [lia | lia | congruence | congruence |].
    intros k Hk. rewrite Hba.
    rewrite Hpa by assumption.
    rewrite Hbpl, Hpb by (rewrite <- ?Hw, <- ?Hh; assumption).
    specialize (Halpha x y Hx Hy). unfold alpha_byte in Halpha.
    unfold load8. rewrite <- !Hbpl in *. rewrite Halpha. reflexivity.
  - rewrite !ColorizePattern_unfold, <- Hsame, Ha. reflexivity.
Qed.

End ColorizeFacts.

(** Two pixels with alpha 200 and 100, a multiplier that adds and an
    identity for the rest: the color channels of the input are gone. *)
Example colorize_two_pixels :
  ColorizePattern Z Z (fun c => c) Z.add (fun s => s) (fun i _ => i)
    {| format := Format_ARGB32_Premultiplied; width := 2; height := 1;
       depth := 32; bytesPerLine := 8;
       bits := [10; 20; 30; 200; 1; 2; 3; 100] |} 0
  = Ok {| format := Format_ARGB32_Premultiplied; width := 2; height := 1;
          depth := 32; bytesPerLine := 8;
          bits := [201; 0; 0; 0; 101; 0; 0; 0] |}.
Proof. reflexivity. Qed.

Example colorize_needs_whole_words :
  ColorizePattern Z Z (fun c => c) Z.add (fun s => s) (fun i _ => i)
    {| format := Format_ARGB32_Premultiplied; width := 1; height := 1;
       depth := 32; bytesPerLine := 6; bits := [1; 2; 3; 4; 5; 6] |} 0
  = Failed ColorizePattern_Assert_bytesPerLine.
Proof. reflexivity. Qed.

Lemma ColorizePattern_alpha_only_witness :
  let colorize :=
    ColorizePattern Z Z (fun c => c) Z.mul (fun s => s) (fun i _ => i) in
  let a := {| format := Format_ARGB32_Premultiplied; width := 2; height := 1;
              depth := 32; bytesPerLine := 8;
              bits := [10; 20; 30; 200; 1; 2; 3; 100] |} in
  let b := {| format := Format_ARGB32_Premultiplied; width := 2; height := 1;
              depth := 32; bytesPerLine := 8;
              bits := [0; 0; 0; 200; 9; 9; 9; 100] |} in
  agree (colorize a 65793) (colorize b 65793)
  /\ succeeded (colorize a 65793) = true.
Proof.
  intros colorize a b. split; [|reflexivity].
  apply (ColorizePattern_alpha_only Z Z (fun c => c) Z.mul (fun s => s)
           (fun i _ => i) a b 65793).
  - unfold valid_buffer. simpl. lia.
  - unfold valid_buffer. simpl. lia.
  - unfold same_alpha. simpl. repeat (split; [reflexivity|]).
    intros x y Hx Hy. assert (y = 0) as -> by lia.
    assert (x = 0 \/ x = 1) as [-> | ->] by lia; reflexivity.
Defined.

End PatternFacts.


(** ** Facts about the preview box *)

Module PreviewFacts.
Import Contract Preview SlugFacts.

Section BoxFacts.
Context `{Host}.

(** C9.  [Start] shows the bad-link box and returns [false] exactly when
    the slug is no color slug and [IsValidWallPaperSlug] rejects it, which
    it does exactly for the empty slug, a slug of more than 255
    characters and a slug with a character that is no ASCII letter, no
    digit and none of [.], [_] and [-].  For every other slug [Start]
    returns [true]. *)
Theorem Start_rejects_bad_slug (slug : QString) (params : list (QString * QString)) :
  let rejected :=
    slug = [] \/ 255 < size slug \/ exists ch, In ch slug /\ ~ slug_char ch in
  (IsValidWallPaperSlug slug = false <-> rejected)
  /\ (Start slug params = ([ShowInformBox lng_background_bad_link], false)
      <-> FromColorSlug slug = None /\ rejected)
  /\ ((Start slug params).2 = false <-> FromColorSlug slug = None /\ rejected)
  /\ (~ (FromColorSlug slug = None /\ rejected) -> (Start slug params).2 = true).
Proof.
  intros rejected.
  pose proof (IsValidWallPaperSlug_false slug) as Hv. fold rejected in Hv.
  split; [exact Hv|].
  unfold Start.
  destruct (FromColorSlug slug) as [paper|]; simpl.
  - repeat split; try (intros [? _]; discriminate); try discriminate.
  - destruct (IsValidWallPaperSlug slug); simpl.
    + assert (Hn : ~ rejected) by (intros Hr; apply Hv in Hr; discriminate).
      repeat split; try discriminate; try tauto.
    + assert (Hr : rejected) by (apply Hv; reflexivity).
      repeat split; try tauto.
Qed.

(** C2.  [apply] sets the chat background to the previewed paper with
    the full image the box holds, then closes the box; between the two it
    sends the install request exactly when the paper is a cloud wallpaper
    and its id is not the id of the background in use. *)
Theorem apply_sets_background (w : World) :
  let paper := _paper (box w) in
  exists request,
    effects (apply w)
    = effects w ++ [SetChatBackground paper (_full (box w))]
        ++ request ++ [CloseBox]
    /\ (request = [SendInstallWallPaper paper] \/ request = [])
    /\ (request = [SendInstallWallPaper paper]
        <-> IsCloudWallPaper paper = true
            /\ paper_id paper <> background_id (outside w)).
Proof.
  intros paper. unfold apply. fold paper.
  destruct (IsCloudWallPaper paper) eqn:Hc;
    destruct (Z.eqb_spec (paper_id paper) (background_id (outside w)))
      as [He|He];
    simpl;
    [exists [] | exists [SendInstallWallPaper paper] | exists [] | exists []];
    rewrite <- !app_assoc; simpl;
    (split; [reflexivity|]); (split; [auto|]).
  - split; [discriminate | intros [_ ?]; contradiction].
  - tauto.
  - split; [discriminate | intros [? _]; discriminate].
  - split; [discriminate | intros [? _]; discriminate].
Qed.

(** C4.  When the checkbox is there, its checked state differs from the
    blurred flag of the paper, the blurred pixmap is not null and no
    fade-in runs, [checkBlurAnimationStart] replaces the paper by
    [withBlurred(checked)] and starts the fade-in from the pixmap that
    was shown until then; in every other case it changes nothing. *)
Theorem checkBlurAnimationStart_toggles (b : Box) :
  (forall c,
     _blur b = Some c ->
     checked c <> isBlurred (_paper b) ->
     pixmap_isNull (_blurred b) = false ->
     animating (_fadeIn b) = false ->
     let b' := checkBlurAnimationStart b in
     _paper b' = withBlurred (_paper b) (checked c)
     /\ _fadeOutThumbnail b' = shown_pixmap b
     /\ _fadeIn b'
        = animation_start 0%Q 1%Q backgroundCheck_duration (_fadeIn b))
  /\ (~ (exists c, _blur b = Some c
                   /\ checked c <> isBlurred (_paper b)
                   /\ pixmap_isNull (_blurred b) = false
                   /\ animating (_fadeIn b) = false) ->
      checkBlurAnimationStart b = b).
Proof.
  split.
  - intros c Hb Hc Hn Ha. unfold checkBlurAnimationStart, shown_pixmap.
    rewrite Hb, Ha, Hn. simpl.
    destruct (eqb_spec (isBlurred (_paper b)) (checked c)) as [He|He];
      [congruence|].
    cbn. rewrite withBlurred_isBlurred.
    repeat split.
    destruct (isBlurred (_paper b)), (checked c); try reflexivity; congruence.
  - intros Hno. unfold checkBlurAnimationStart.
    destruct (_blur b) as [c|] eqn:Hb; [|reflexivity].
    destruct (animating (_fadeIn b)) eqn:Ha; [reflexivity|].
    destruct (pixmap_isNull (_blurred b)) eqn:Hn; [reflexivity|].
    destruct (eqb_spec (isBlurred (_paper b)) (checked c)) as [He|He];
      [reflexivity|].
    exfalso. apply Hno. exists c. repeat split; congruence.
Qed.

(** *** What the helpers leave alone *)

Lemma quiet_refl b : quiet b b.
Proof. unfold quiet. tauto. Qed.

Lemma quiet_trans b1 b2 b3 : quiet b1 b2 -> quiet b2 b3 -> quiet b1 b3.
Proof.
  unfold quiet, may_enable.
  intros (Hd1 & Hf1 & Ht1 & Hb1 & Hl1 & Hi1 & He1)
         (Hd2 & Hf2 & Ht2 & Hb2 & Hl2 & Hi2 & He2).
  repeat split; try congruence.
  intros He3. destruct (He2 He3) as [He|Hc]; [|auto].
  destruct (He1 He) as [?|Hc]; [auto|]. right.
  rewrite Hd2, Hf2. exact Hc.
Qed.

Lemma calm_refl b : calm b b.
Proof. split; [apply quiet_refl | auto]. Qed.

Lemma calm_trans b1 b2 b3 : calm b1 b2 -> calm b2 b3 -> calm b1 b3.
Proof.
  intros (Hq1 & Hr1) (Hq2 & Hr2).
  split; [eapply quiet_trans; eassumption | congruence].
Qed.

Lemma quiet_mild b b' : quiet b b' -> mild b b'.
Proof. unfold quiet, mild. tauto. Qed.

(** A change that keeps the state of the checkbox, then a quiet one. *)
Lemma mild_quiet b1 b2 b3 :
  mild b1 b2 -> enabled b2 = enabled b1 -> quiet b2 b3 -> mild b1 b3.
Proof.
  unfold quiet, mild.
  intros (Hd1 & Ht1 & Hb1 & Hl1 & Hi1 & He1) Hen
         (Hd2 & Hf2 & Ht2 & Hb2 & Hl2 & Hi2 & He2).
  repeat split; try congruence.
  intros He3. destruct (He2 He3) as [He|Hc]; [left; congruence | auto].
Qed.

Local Ltac calm_by_cases :=
  unfold calm, quiet, enabled, has_blur, may_enable; cbn;
  repeat case_match; cbn in *; simplify_eq;
  repeat split; auto; try congruence.

Lemma updateServiceBg_calm bg b : calm b (updateServiceBg bg b).
Proof. unfold updateServiceBg. destruct bg; calm_by_cases. Qed.

Lemma startFadeInFrom_calm p b : calm b (startFadeInFrom p b).
Proof. unfold startFadeInFrom. calm_by_cases. Qed.

Lemma checkBlurAnimationStart_calm b : calm b (checkBlurAnimationStart b).
Proof.
  unfold checkBlurAnimationStart, startFadeInFrom.
  destruct (_blur b) as [c|] eqn:Hb; [|apply calm_refl].
  case_match; [apply calm_refl|].
  unfold calm, quiet, enabled, has_blur, may_enable. cbn.
  rewrite withBlurred_document, Hb. repeat split; auto.
Qed.

Lemma setScaledFromImage_calm i bl b : calm b (setScaledFromImage i bl b).
Proof.
  unfold setScaledFromImage, updateServiceBg, startFadeInFrom.
  unfold calm, quiet, enabled, has_blur, may_enable. cbn.
  repeat case_match; cbn in *; simplify_eq; repeat split; auto; try congruence.
Qed.

Lemma setScaledFromThumb_calm o b : calm b (setScaledFromThumb o b).2.
Proof.
  unfold setScaledFromThumb.
  destruct (thumbnail (_paper b)) as [t|]; [|apply calm_refl].
  destruct (negb (image_loaded (thumbnails o t))); [apply calm_refl|].
  destruct (isPattern (_paper b) && _); [apply calm_refl|].
  apply setScaledFromImage_calm.
Qed.

Lemma assign_generating_calm g w : calm (box w) (box (assign_generating g w)).
Proof. unfold assign_generating. calm_by_cases. Qed.

Lemma generateCallback_calm i w : calm (box w) (box (generateCallback i w)).
Proof. unfold generateCallback. calm_by_cases. Qed.

Lemma checkLoadedDocument_calm w : calm (box w) (box (checkLoadedDocument w)).
Proof.
  unfold checkLoadedDocument.
  repeat case_match; try apply calm_refl. calm_by_cases.
Qed.

Lemma step_radial_quiet ms timer w w' :
  step_radial ms timer w = Ok w' ->
  quiet (box w) (box w') /\ is_Some (document (_paper (box w))).
Proof.
  unfold step_radial.
  destruct (document (_paper (box w))) as [d|] eqn:Hd; [|discriminate].
  destruct (radial_update _ _ _ _) as [radial updated].
  intros [= <-]. split; [|eauto].
  eapply quiet_trans; [|apply checkLoadedDocument_calm].
  case_match; unfold quiet, enabled, has_blur, may_enable; cbn; tauto.
Qed.

Lemma paintImage_calm ms w w' ops :
  paintImage ms w = Ok (w', ops) -> calm (box w) (box w').
Proof.
  unfold paintImage.
  destruct (check _ _); cbn [mbind Result_bind bind]; [|discriminate].
  destruct (animation_current _ _ _) as [fadeIn fade].
  intros [= <- _]. cbn [box on_box set_box].
  eapply calm_trans; [|apply checkBlurAnimationStart_calm].
  unfold calm, quiet, enabled, has_blur, may_enable. cbn. tauto.
Qed.

Lemma calm_restless b b' : calm b b' -> restless b b'.
Proof. intros [Hq Hr]. split; auto. Qed.

Lemma restless_trans b1 b2 b3 :
  restless b1 b2 -> restless b2 b3 -> restless b1 b3.
Proof.
  intros [Hq1 Hr1] [Hq2 Hr2].
  split; [eapply quiet_trans; eassumption|].
  destruct Hr1 as [Hr1|?]; [|auto].
  destruct Hr2 as [Hr2|Hs]; [left; congruence|].
  right. destruct Hq1 as (Hd & _). rewrite <- Hd. exact Hs.
Qed.

Lemma paintRadial_restless ms w w' ops :
  paintRadial ms w = Ok (w', ops) -> restless (box w) (box w').
Proof.
  unfold paintRadial.
  destruct (radial_animating (_radial (box w))).
  - destruct (step_radial ms false w) as [w1|] eqn:Hs;
      cbn [mbind Result_bind bind]; [|discriminate].
    apply step_radial_quiet in Hs as [Hq Hd].
    case_match; intros [= <- _]; split; auto.
  - cbn. intros [= <- _]. apply calm_restless, calm_refl.
Qed.

Lemma paintEvent_restless ms w w' ops :
  paintEvent ms w = Ok (w', ops) -> restless (box w) (box w').
Proof.
  unfold paintEvent.
  set (filled := match backgroundColor (_paper (box w)) with
                 | Some c => [FillRect c] | None => [] end).
  destruct (negb (bool_decide (is_Some (backgroundColor (_paper (box w)))))
            || isPattern (_paper (box w)));
    [|intros [= <- _]; apply calm_restless, calm_refl].
  destruct (if negb (pixmap_isNull (_scaled (box w))) then _ else _)
    as [have w1] eqn:Hhave.
  assert (Hc1 : calm (box w) (box w1)).
  { destruct (negb (pixmap_isNull (_scaled (box w)))).
    - simplify_eq. apply calm_refl.
    - pose proof (setScaledFromThumb_calm (outside w) (box w)) as Hc.
      destruct (setScaledFromThumb (outside w) (box w)) as [done b].
      simplify_eq. exact Hc. }
  destruct have.
  - destruct (paintImage ms w1) as [[w2 image]|] eqn:Hi;
      cbn [mbind Result_bind bind]; [|discriminate].
    destruct (paintRadial ms w2) as [[w3 radial]|] eqn:Hr;
      cbn [mbind Result_bind bind]; [|discriminate].
    intros [= <- _].
    apply paintImage_calm in Hi. apply paintRadial_restless in Hr.
    eapply restless_trans; [|exact Hr].
    apply calm_restless. eapply calm_trans; eassumption.
  - destruct (negb (bool_decide (is_Some (backgroundColor (_paper (box w)))))).
    + intros [= <- _]. apply calm_restless, Hc1.
    + destruct (paintRadial ms w1) as [[w3 radial]|] eqn:Hr;
        cbn [mbind Result_bind bind]; [|discriminate].
      intros [= <- _]. apply paintRadial_restless in Hr.
      eapply restless_trans; [apply calm_restless, Hc1 | exact Hr].
Qed.

Lemma restless_mild b b' :
  restless b b' ->
  mild b b' /\ (_radial b' = _radial b \/ is_Some (document (_paper b))).
Proof. intros [Hq Hr]. split; [apply quiet_mild, Hq | exact Hr]. Qed.

Lemma decode_done_mild g i sc bl w :
  mild (box w) (box (decode_done g i sc bl w))
  /\ _radial (box (decode_done g i sc bl w)) = _radial (box w).
Proof.
  unfold decode_done. destruct (negb (alive g (guards w))).
  - split; [apply quiet_mild, quiet_refl | reflexivity].
  - cbn [box emit on_box set_box].
    destruct (setScaledFromImage_calm sc bl (set_full i (box w))) as [Hq Hr].
    split; [|rewrite Hr; reflexivity].
    eapply mild_quiet; [| |exact Hq].
    + unfold mild, enabled, has_blur, may_enable. cbn. tauto.
    + reflexivity.
Qed.

Lemma run_task_mild t w :
  mild (box w) (box (run_task t w))
  /\ _radial (box (run_task t w)) = _radial (box w).
Proof.
  destruct t as [g i|g i sc bl]; cbn [run_task box set_guards].
  - destruct (alive g (guards w)).
    + destruct (generateCallback_calm i w) as [Hq Hr].
      split; [apply quiet_mild, Hq | exact Hr].
    + split; [apply quiet_mild, quiet_refl | reflexivity].
  - apply decode_done_mild.
Qed.

Lemma apply_mild w :
  mild (box w) (box (apply w)) /\ _radial (box (apply w)) = _radial (box w).
Proof.
  unfold apply, closeBox. case_match; cbn;
    unfold mild, enabled, has_blur, may_enable; cbn; tauto.
Qed.

(** Every event is mild, and changes the radial animation only for a
    paper that has a document. *)
Lemma deliver_mild e w w' :
  deliver e w = Ok w' ->
  mild (box w) (box w')
  /\ (_radial (box w') = _radial (box w)
      \/ is_Some (document (_paper (box w)))).
Proof.
  assert (Hrefl : mild (box w) (box w)
                  /\ (_radial (box w) = _radial (box w)
                      \/ is_Some (document (_paper (box w)))))
    by (split; [apply quiet_mild, quiet_refl | auto]).
  destruct e; cbn [deliver];
    try (destruct (destroyed w); [intros [= <-]; exact Hrefl|]).
  - (* Paint *)
    destruct (paintEvent ms w) as [[w1 ops]|] eqn:Hp;
      cbn [mbind Result_bind bind]; [|discriminate].
    intros [= <-]. apply restless_mild. eapply paintEvent_restless, Hp.
  - (* RadialTimer *)
    destruct (radial_animating _); [|intros [= <-]; exact Hrefl].
    intros Hs. apply step_radial_quiet in Hs as [Hq Hd].
    split; [apply quiet_mild, Hq | auto].
  - (* FadeInTimer *)
    destruct (animating _); intros [= <-]; [|exact Hrefl].
    split; [|auto]. unfold mild, enabled, has_blur, may_enable. cbn. tauto.
  - (* BlurClicked *)
    destruct (_blur (box w)) as [c|] eqn:Hb; [|intros [= <-]; exact Hrefl].
    destruct (disabled c) eqn:Hd; intros [= <-]; [exact Hrefl|].
    unfold blur_changed. cbn [box emit on_box set_box].
    destruct (checkBlurAnimationStart_calm
                (set_blur (Some (setChecked (negb (checked c)) c)) (box w)))
      as [Hq Hr].
    split; [|left; rewrite Hr; reflexivity].
    eapply mild_quiet; [| |exact Hq].
    + unfold mild, enabled, has_blur, may_enable. cbn. rewrite Hb. cbn.
      rewrite Hd. tauto.
    + unfold enabled. cbn. rewrite Hb. reflexivity.
  - (* ButtonClicked *)
    destruct (has_button a (box w)); [|intros [= <-]; exact Hrefl].
    destruct a; intros [= <-].
    + destruct (apply_mild w) as [Hm Hr]. split; [exact Hm | auto].
    + exact Hrefl.
    + exact Hrefl.
  - (* DownloaderTaskFinished *) intros [= <-]. exact Hrefl.
  - (* OutsideChanged *) intros [= <-]. exact Hrefl.
  - (* MainThread *)
    destruct (pending w !! i) as [t|]; intros [= <-]; [|exact Hrefl].
    destruct (run_task_mild t (set_pending (delete i (pending w)) w))
      as [Hm Hr].
    split; [exact Hm | left; exact Hr].
  - (* Destroyed *) intros [= <-]. exact Hrefl.
Qed.

(** *** [prepare] *)

Lemma prepare_split w : prepare w = prepare_images (prepare_widgets w).
Proof.
  unfold prepare, prepare_images, prepare_widgets, radial_prepared,
    loads_requested, updateServiceBg, createBlurCheckbox.
  cbn zeta.
  destruct (backgroundColor (_paper (box w)));
    destruct (document (_paper (box w))) as [d|]; cbn;
    repeat case_match; reflexivity.
Qed.

Lemma prepare_images_calm w : calm (box w) (box (prepare_images w)).
Proof.
  unfold prepare_images. cbn zeta.
  set (w1 := on_box _ w).
  assert (H1 : calm (box w) (box w1)) by apply setScaledFromThumb_calm.
  pose proof (checkLoadedDocument_calm w1) as H2.
  eapply calm_trans; [exact H1|]. eapply calm_trans; [exact H2|].
  unfold calm, quiet, enabled, has_blur, may_enable. cbn. tauto.
Qed.

Lemma prepare_widgets_box w :
  let b := box (prepare_widgets w) in
  let paper := _paper (box w) in
  _paper b = paper
  /\ _full b = _full (box w)
  /\ _radial b = radial_prepared w
  /\ title b = Some lng_background_header
  /\ buttons b = [(lng_background_apply, DoApply); (lng_cancel, DoCloseBox)]
  /\ leftButtons b
     = (if hasShareUrl paper then [(lng_background_share, DoShare)] else [])
  /\ _blur b
     = (if bool_decide (is_Some (thumbnail paper)) && negb (isPattern paper)
        then Some {| checked := isBlurred paper; disabled := true |}
        else _blur (box w)).
Proof.
  unfold prepare_widgets, updateServiceBg, createBlurCheckbox. cbn zeta.
  destruct (backgroundColor (_paper (box w)));
    destruct (bool_decide _ && negb _); cbn; repeat split; reflexivity.
Qed.

(** *** The radial animation *)

Lemma prepare_radial w : _radial (box (prepare w)) = radial_prepared w.
Proof.
  rewrite prepare_split.
  destruct (prepare_images_calm (prepare_widgets w)) as [_ Hr].
  rewrite Hr. apply prepare_widgets_box.
Qed.

Lemma prepare_document w :
  document (_paper (box (prepare w))) = document (_paper (box w)).
Proof.
  rewrite prepare_split.
  destruct (prepare_images_calm (prepare_widgets w)) as [(Hd & _) _].
  rewrite Hd. destruct (prepare_widgets_box w) as (Hp & _).
  cbn zeta in Hp. rewrite Hp. reflexivity.
Qed.

Lemma prepared_radial_has_document paper o :
  radial_has_document (prepare (new_world paper o)).
Proof.
  unfold radial_has_document.
  rewrite prepare_radial, prepare_document. unfold radial_prepared. cbn.
  destruct (document paper) as [d|]; [eauto|].
  rewrite radial_new_idle. discriminate.
Qed.

Lemma deliver_radial_has_document e w w' :
  radial_has_document w -> deliver e w = Ok w' -> radial_has_document w'.
Proof.
  intros Hi Hd. apply deliver_mild in Hd as [(Hdoc & _) Hr].
  unfold radial_has_document in *. rewrite Hdoc.
  destruct Hr as [Hr|Hs]; [rewrite Hr; exact Hi | auto].
Qed.

Lemma reachable_radial_has_document paper w :
  reachable paper w -> radial_has_document w.
Proof.
  induction 1 as [o|w e w' _ IH Hd].
  - apply prepared_radial_has_document.
  - eapply deliver_radial_has_document; eassumption.
Qed.

Lemma step_radial_runs ms timer w d :
  document (_paper (box w)) = Some d ->
  exists w', step_radial ms timer w = Ok w'
    /\ _radial (box w')
       = (radial_update (progress (documents (outside w) d))
            (negb (loading (documents (outside w) d))) ms
            (_radial (box w))).1.
Proof.
  intros Hd. unfold step_radial. rewrite Hd.
  destruct (radial_update _ _ _ _) as [radial updated].
  eexists. split; [reflexivity|].
  destruct (checkLoadedDocument_calm
              (if timer
                  && (radial_animating (_radial (box w))
                      || radial_animating
                           (_radial (box (on_box (set_radial radial) w))))
                  && (negb (anim_disabled (outside (on_box (set_radial radial) w)))
                      || updated)
               then emit UpdateRadialRect (on_box (set_radial radial) w)
               else on_box (set_radial radial) w)) as [_ Hr].
  rewrite Hr. case_match; reflexivity.
Qed.

Lemma paintRadial_no_document_failure ms w :
  radial_has_document w ->
  paintRadial ms w <> Failed step_radial_Expects_document.
Proof.
  intros Hi. unfold paintRadial.
  destruct (radial_animating (_radial (box w))) eqn:Ha.
  - destruct (Hi Ha) as [d Hd].
    destruct (step_radial_runs ms false w d Hd) as (w1 & -> & _).
    cbn [mbind Result_bind bind]. case_match; discriminate.
  - cbn. discriminate.
Qed.

Lemma calm_radial_has_document w w' :
  calm (box w) (box w') -> radial_has_document w -> radial_has_document w'.
Proof.
  intros [(Hd & _) Hr] Hi. unfold radial_has_document in *.
  rewrite Hd, Hr. exact Hi.
Qed.

Lemma paintEvent_no_document_failure ms w :
  radial_has_document w ->
  paintEvent ms w <> Failed step_radial_Expects_document.
Proof.
  intros Hi. unfold paintEvent.
  set (filled := match backgroundColor (_paper (box w)) with
                 | Some c => [FillRect c] | None => [] end).
  destruct (negb (bool_decide (is_Some (backgroundColor (_paper (box w)))))
            || isPattern (_paper (box w))); [|discriminate].
  destruct (if negb (pixmap_isNull (_scaled (box w))) then _ else _)
    as [have w1] eqn:Hhave.
  assert (Hc1 : calm (box w) (box w1)).
  { destruct (negb (pixmap_isNull (_scaled (box w)))).
    - simplify_eq. apply calm_refl.
    - pose proof (setScaledFromThumb_calm (outside w) (box w)) as Hc.
      destruct (setScaledFromThumb (outside w) (box w)) as [done b].
      simplify_eq. exact Hc. }
  pose proof (calm_radial_has_document _ _ Hc1 Hi) as Hi1.
  destruct have.
  - destruct (paintImage ms w1) as [[w2 image]|v] eqn:Hp;
      cbn [mbind Result_bind bind].
    + pose proof (calm_radial_has_document _ _ (paintImage_calm _ _ _ _ Hp) Hi1)
        as Hi2.
      pose proof (paintRadial_no_document_failure ms w2 Hi2) as Hr.
      destruct (paintRadial ms w2) as [[w3 radial]|v];
        cbn [mbind Result_bind bind]; [discriminate | congruence].
    + revert Hp. unfold paintImage.
      destruct (negb (pixmap_isNull (_scaled (box w1))));
        cbn [check mbind Result_bind bind].
      * destruct (animation_current _ _ _). discriminate.
      * intros [= <-]. discriminate.
  - destruct (negb (bool_decide (is_Some (backgroundColor (_paper (box w))))));
      [discriminate|].
    pose proof (paintRadial_no_document_failure ms w1 Hi1) as Hr.
    destruct (paintRadial ms w1) as [[w3 radial]|v];
      cbn [mbind Result_bind bind]; [discriminate | congruence].
Qed.

(** C6.  In every state the box reaches, a run of [step_radial] while the
    radial animation is running finds the document of the paper, and no
    event ever fails the [Expects] of [step_radial]: the animation is
    started in [prepare] for a paper with a document only, and the paper
    is replaced by [withBlurred] only, which keeps the document. *)
Theorem step_radial_document_expected (paper : WallPaper) (w : World) :
  reachable paper w ->
  (radial_animating (_radial (box w)) = true ->
   forall ms timer, succeeded (step_radial ms timer w) = true)
  /\ forall e, deliver e w <> Failed step_radial_Expects_document.
Proof.
  intros Hr. pose proof (reachable_radial_has_document paper w Hr) as Hi.
  split.
  - intros Ha ms timer. destruct (Hi Ha) as [d Hd].
    destruct (step_radial_runs ms timer w d Hd) as (w' & -> & _).
    reflexivity.
  - intros e. destruct e; cbn [deliver];
      try (destruct (destroyed w); [discriminate|]); try discriminate.
    + pose proof (paintEvent_no_document_failure ms w Hi) as Hp.
      destruct (paintEvent ms w) as [[w1 ops]|v];
        cbn [mbind Result_bind bind]; [discriminate | congruence].
    + destruct (radial_animating (_radial (box w))) eqn:Ha; [|discriminate].
      destruct (Hi Ha) as [d Hd].
      destruct (step_radial_runs ms true w d Hd) as (w' & -> & _).
      discriminate.
    + repeat case_match; discriminate.
    + repeat case_match; discriminate.
    + repeat case_match; discriminate.
    + repeat case_match; discriminate.
Qed.

(** C5.  [prepare] starts the radial animation at the progress of the
    document exactly when the paper has a document that is loading, and
    leaves it as it was otherwise; [step_radial] updates it with the
    current progress of the document and reports it finished exactly when
    the document is not loading; [paintRadial] draws nothing when the
    animation is not running, before or after its step. *)
Theorem radial_tracks_download (w : World) (ms : TimeMs) :
  _radial (box (prepare w))
  = match document (_paper (box w)) with
    | Some d =>
        if loading (documents (loads_requested w) d)
        then radial_start (progress (documents (loads_requested w) d))
               (_radial (box w))
        else _radial (box w)
    | None => _radial (box w)
    end
  /\ (forall timer d,
        document (_paper (box w)) = Some d ->
        exists w', step_radial ms timer w = Ok w'
          /\ _radial (box w')
             = (radial_update (progress (documents (outside w) d))
                  (negb (loading (documents (outside w) d))) ms
                  (_radial (box w))).1)
  /\ (radial_animating (_radial (box w)) = false ->
      paintRadial ms w = Ok (w, []))
  /\ (forall w' ops,
        paintRadial ms w = Ok (w', ops) ->
        radial_animating (_radial (box w')) = false -> ops = []).
Proof.
  split; [apply prepare_radial|].
  split; [intros timer d; apply step_radial_runs|].
  split.
  - intros Ha. unfold paintRadial. rewrite Ha. reflexivity.
  - intros w' ops. unfold paintRadial.
    destruct (radial_animating (_radial (box w))).
    + destruct (step_radial ms false w) as [w1|];
        cbn [mbind Result_bind bind]; [|discriminate].
      destruct (radial_animating (_radial (box w1))) eqn:Ha1; cbn.
      * intros [= <- <-]. congruence.
      * intros [= <- <-]. reflexivity.
    + cbn. intros [= <- <-]. reflexivity.
Qed.

(** *** The buttons *)

Lemma reachable_chrome paper w :
  reachable paper w ->
  chrome_prepared paper (box w)
  /\ has_blur (box w)
     = bool_decide (is_Some (thumbnail paper)) && negb (isPattern paper).
Proof.
  induction 1 as [o|w e w' _ IH Hd].
  - rewrite prepare_split.
    destruct (prepare_images_calm (prepare_widgets (new_world paper o)))
      as [(_ & _ & _ & Hb & Hl & Hh & _) _].
    destruct (prepare_widgets_box (new_world paper o))
      as (_ & _ & _ & _ & Hb0 & Hl0 & Hblur).
    cbn zeta in *. unfold chrome_prepared. rewrite Hb, Hl, Hh, Hb0, Hl0.
    split; [split; reflexivity|].
    unfold has_blur. rewrite Hblur. cbn.
    destruct (bool_decide _ && negb _); reflexivity.
  - apply deliver_mild in Hd as [(_ & _ & Hb & Hl & Hh & _) _].
    unfold chrome_prepared in *. rewrite Hb, Hl, Hh. exact IH.
Qed.

(** C3.  [share] puts the share URL of the paper on the clipboard and
    shows the link-copied toast, and changes nothing in the box; the box
    has the share button exactly when the paper it was made for has a
    share URL, so without one a click never reaches [share]. *)
Theorem share_copies_link (paper : WallPaper) (w : World) :
  reachable paper w ->
  effects (share w)
  = effects w ++ [ClipboardSetText (shareUrl (_paper (box w)));
                  ToastShow lng_background_link_copied]
  /\ box (share w) = box w
  /\ has_button DoShare (box w) = hasShareUrl paper
  /\ (hasShareUrl paper = false ->
      deliver (ButtonClicked DoShare) w = Ok w)
  /\ (hasShareUrl paper = true -> destroyed w = false ->
      deliver (ButtonClicked DoShare) w = Ok (share w)).
Proof.
  intros Hr. destruct (reachable_chrome paper w Hr) as [[Hb Hl] _].
  assert (Hhas : has_button DoShare (box w) = hasShareUrl paper).
  { unfold has_button. rewrite Hb, Hl.
    destruct (hasShareUrl paper); reflexivity. }
  split; [unfold share; cbn; rewrite <- app_assoc; reflexivity|].
  split; [reflexivity|]. split; [exact Hhas|].
  split.
  - intros Hno. cbn [deliver]. rewrite Hhas, Hno.
    destruct (destroyed w); reflexivity.
  - intros Hyes Hlive. cbn [deliver]. rewrite Hhas, Hyes, Hlive. reflexivity.
Qed.

(** C7.  The box has the blur checkbox exactly when its paper has a
    thumbnail and is no pattern; the checkbox is created disabled;
    [setScaledFromImage] enables it exactly when the paper has no document
    or the full image is there; and whenever the checkbox is enabled after
    [prepare] or after an event and was not before, that condition holds. *)
Theorem blur_checkbox_enabling (paper : WallPaper) (w : World) :
  reachable paper w ->
  (is_Some (_blur (box w))
   <-> is_Some (thumbnail paper) /\ isPattern paper = false)
  /\ (forall b,
        _blur (createBlurCheckbox b)
        = Some {| checked := isBlurred (_paper b); disabled := true |})
  /\ (forall image blurred b c,
        _blur b = Some c ->
        _blur (setScaledFromImage image blurred b)
        = Some (if may_enable b then setDisabled false c else c))
  /\ (forall b,
        may_enable b = true
        <-> document (_paper b) = None \/ image_isNull (_full b) = false)
  /\ (forall o,
        enabled (box (prepare (new_world paper o))) = true ->
        may_enable (box (prepare (new_world paper o))) = true)
  /\ (forall e w',
        deliver e w = Ok w' ->
        enabled (box w') = true ->
        enabled (box w) = true \/ may_enable (box w') = true).
Proof.
  intros Hr. split; [|split; [reflexivity|split; [|split; [|split]]]].
  - destruct (reachable_chrome paper w Hr) as [_ Hblur].
    unfold has_blur in Hblur.
    destruct (_blur (box w)) as [c|]; symmetry in Hblur.
    + apply andb_true_iff in Hblur as [Ht Hp].
      apply bool_decide_eq_true in Ht. apply negb_true_iff in Hp.
      split; [auto | eauto].
    + split; [intros [? [=]]|]. intros [Ht Hp].
      apply andb_false_iff in Hblur as [Hb|Hb].
      * apply bool_decide_eq_false in Hb. contradiction.
      * rewrite Hp in Hb. discriminate.
  - intros image blurred b c Hb.
    unfold setScaledFromImage, may_enable, updateServiceBg, startFadeInFrom.
    destruct (image_isNull (_full b)) eqn:Hn;
      destruct (bool_decide (is_Some (document (_paper b)))) eqn:Hd;
      cbn; rewrite ?Hn, ?Hd, ?Hb; cbn; rewrite ?Hn, ?Hd, ?Hb; simpl;
      rewrite ?Hb; reflexivity.
  - intros b. unfold may_enable.
    rewrite orb_true_iff, !negb_true_iff, bool_decide_eq_false.
    rewrite <- eq_None_not_Some. reflexivity.
  - intros o. rewrite prepare_split.
    destruct (prepare_images_calm (prepare_widgets (new_world paper o)))
      as [(_ & _ & _ & _ & _ & _ & He) _].
    intros Hen. destruct (He Hen) as [Hbefore|?]; [|assumption].
    destruct (prepare_widgets_box (new_world paper o))
      as (_ & _ & _ & _ & _ & _ & Hblur).
    cbn zeta in Hblur. unfold enabled in Hbefore. rewrite Hblur in Hbefore.
    destruct (bool_decide _ && negb _); cbn in Hbefore; discriminate.
  - intros e w' Hd. apply deliver_mild in Hd as [(_ & _ & _ & _ & _ & He) _].
    exact He.
Qed.

End BoxFacts.

(** *** The statements at work in [Demo] *)

Example Start_bad_link :
  @Start Demo.toolkit Demo.host [latin1 "a"; latin1 "/"] []
  = ([ShowInformBox lng_background_bad_link], false).
Proof. reflexivity. Qed.

Example Start_requests :
  @Start Demo.toolkit Demo.host [latin1 "a"; latin1 "b"] []
  = ([RequestWallPaper [latin1 "a"; latin1 "b"] []], true).
Proof. reflexivity. Qed.

Example apply_installs :
  effects (apply Demo.shown_world)
  = [SetChatBackground Demo.paper None; SendInstallWallPaper Demo.paper;
     CloseBox].
Proof. reflexivity. Qed.

Example radial_stops_without_document :
  @step_radial Demo.toolkit Demo.host 0 true
    (new_world (Demo.blur_paper
                  {| Demo.id := 1; Demo.doc := None; Demo.thumb := None;
                     Demo.pattern := false; Demo.blurred := false;
                     Demo.slug := []; Demo.color := None |} false)
       Demo.downloading)
  = Failed step_radial_Expects_document.
Proof. reflexivity. Qed.

Lemma share_copies_link_witness :
  deliver (ButtonClicked DoShare) Demo.shown_world
  = Ok (share Demo.shown_world).
Proof.
  destruct (@share_copies_link Demo.toolkit Demo.host Demo.paper Demo.shown_world
              (reachable_prepared _ _))
    as (_ & _ & _ & _ & Hshare).
  apply Hshare; reflexivity.
Defined.

Lemma checkBlurAnimationStart_toggles_witness :
  _paper (checkBlurAnimationStart Demo.checked_box)
  = Demo.blur_paper Demo.paper true
  /\ _fadeOutThumbnail (checkBlurAnimationStart Demo.checked_box) = Some 2.
Proof.
  destruct (@checkBlurAnimationStart_toggles Demo.toolkit Demo.host Demo.checked_box) as [Hgo _].
  destruct (Hgo {| checked := true; disabled := false |})
    as (Hpaper & Hfade & _).
  - reflexivity.
  - simpl. discriminate.
  - reflexivity.
  - reflexivity.
  - split; [exact Hpaper | exact Hfade].
Defined.

Lemma radial_tracks_download_witness :
  Demo.running (_radial (box Demo.shown_world)) = true
  /\ paintRadial 10 Demo.ready_world = Ok (Demo.ready_world, []).
Proof.
  split.
  - unfold Demo.shown_world.
    destruct (@radial_tracks_download Demo.toolkit Demo.host
                Demo.made_world 0) as (Hprep & _).
    rewrite Hprep. reflexivity.
  - destruct (@radial_tracks_download Demo.toolkit Demo.host
                Demo.ready_world 10) as (_ & _ & Hidle & _).
    apply Hidle. reflexivity.
Defined.

Lemma step_radial_document_expected_witness :
  succeeded (step_radial 10 true Demo.shown_world) = true.
Proof.
  destruct (@step_radial_document_expected Demo.toolkit Demo.host Demo.paper Demo.shown_world
              (reachable_prepared _ _))
    as (Hruns & _).
  apply Hruns. reflexivity.
Defined.

Lemma blur_checkbox_enabling_witness :
  is_Some (_blur (box Demo.shown_world))
  /\ enabled (box Demo.shown_world) = false.
Proof.
  destruct (@blur_checkbox_enabling Demo.toolkit Demo.host
              Demo.paper Demo.shown_world (reachable_prepared _ _))
    as (Hblur & _).
  split; [|reflexivity].
  apply Hblur. split; [exists 0%nat; reflexivity | reflexivity].
Defined.

End PreviewFacts.

(** ** Facts about the guards *)

Module GuardFacts.
Import Contract Preview PreviewFacts.

Section Generations.
Context `{Host}.

Lemma backstage_refl w : backstage w w.
Proof. unfold backstage. tauto. Qed.

Lemma backstage_trans w1 w2 w3 :
  backstage w1 w2 -> backstage w2 w3 -> backstage w1 w3.
Proof. unfold backstage. intros (?&?&?&?) (?&?&?&?). repeat split; congruence. Qed.

Lemma backstage_current w w' :
  backstage w w' -> current_generation w -> current_generation w'.
Proof.
  intros (Hg & Hp & Hd & Hgen) Hc t. rewrite Hg, Hp, Hd, Hgen. apply Hc.
Qed.

Lemma alive_Some c flags :
  alive (Some c) flags = true <-> flags !! c = Some true.
Proof.
  unfold alive. destruct (flags !! c) as [[|]|]; cbn; split; congruence.
Qed.

Lemma alive_destroy g g' flags :
  alive g (destroy g' flags) = true -> alive g flags = true /\ g <> g'.
Proof.
  destruct g as [c|]; [|discriminate]. destruct g' as [c'|]; cbn [destroy].
  - rewrite !alive_Some. intros Hl.
    destruct (decide (c = c')) as [->|Hne].
    + apply lookup_lt_Some in Hl as Hlt. rewrite length_insert in Hlt.
      rewrite list_lookup_insert_eq in Hl by exact Hlt. discriminate.
    + rewrite list_lookup_insert_ne in Hl by congruence.
      split; [exact Hl | congruence].
  - intros Hl. split; [exact Hl | discriminate].
Qed.

Lemma alive_fresh c flags :
  alive (Some c) (flags ++ [true]) = true ->
  alive (Some c) flags = true \/ c = length flags.
Proof.
  rewrite !alive_Some. intros Hl.
  destruct (decide (c < length flags)%nat) as [Hlt|Hge].
  - rewrite lookup_app_l in Hl by exact Hlt. auto.
  - right. apply lookup_lt_Some in Hl. rewrite length_app in Hl. simpl in Hl. lia.
Qed.

(** Starting a generation: a fresh pair, one end posted with the new
    completion, the other assigned to [_generating]. *)
Lemma start_generation_current (w : World) (mk : binary_guard -> MainTask) :
  (forall g, task_guard (mk g) = g) ->
  destroyed w = false ->
  current_generation w ->
  current_generation
    (assign_generating (Some (length (guards w)))
       (set_pending (pending w ++ [mk (Some (length (guards w)))])
          (set_guards (guards w ++ [true]) w))).
Proof.
  intros Hmk Hlive Hc t. unfold assign_generating. cbn.
  intros Hin Halive. split; [|exact Hlive].
  apply alive_destroy in Halive as [Halive Hne].
  apply elem_of_app in Hin as [Hin|Hin].
  - destruct (task_guard t) as [c|] eqn:Ht; [|discriminate].
    apply alive_fresh in Halive as [Hold| ->]; [|reflexivity].
    exfalso. apply Hne. rewrite <- Ht in *. apply (Hc t Hin Hold).
  - apply list_elem_of_singleton in Hin. subst t. apply Hmk.
Qed.

Lemma checkLoadedDocument_current w :
  destroyed w = false -> current_generation w ->
  current_generation (checkLoadedDocument w)
  /\ destroyed (checkLoadedDocument w) = false.
Proof.
  intros Hlive Hc. unfold checkLoadedDocument.
  destruct (document (_paper (box w))) as [d|]; [|auto].
  destruct (negb _ || negb _ || alive _ _); [auto|].
  cbn [make_binary_guard]. split; [|exact Hlive].
  apply (start_generation_current w
           (fun g => ReadDone g (background_image (documents (outside w) d))));
    auto.
Qed.

Lemma generateCallback_current image w :
  destroyed w = false -> current_generation w ->
  current_generation (generateCallback image w).
Proof.
  intros Hlive Hc. unfold generateCallback. cbn [make_binary_guard].
  apply (start_generation_current w
           (fun g => decode image (patternBackgroundColor (box w)) g));
    auto.
Qed.

(** Destroying an end keeps the invariant. *)
Lemma destroy_current g w :
  current_generation w ->
  current_generation (set_guards (destroy g (guards w)) w).
Proof.
  intros Hc t Hin Halive. cbn in *.
  apply alive_destroy in Halive as [Halive _]. apply Hc; assumption.
Qed.

Lemma setScaledFromImage_generating i bl b :
  _generating (setScaledFromImage i bl b) = _generating b.
Proof.
  unfold setScaledFromImage, updateServiceBg, startFadeInFrom. cbn.
  repeat case_match; reflexivity.
Qed.

Lemma decode_done_backstage g i sc bl w :
  backstage w (decode_done g i sc bl w).
Proof.
  unfold decode_done. destruct (negb _); [apply backstage_refl|].
  unfold backstage. cbn.
  rewrite setScaledFromImage_generating. auto.
Qed.

(** A completion taken from the queue runs. *)
Lemma run_task_current i t w :
  pending w !! i = Some t ->
  current_generation w ->
  current_generation (run_task t (set_pending (delete i (pending w)) w)).
Proof.
  intros Hi Hc.
  assert (Hin : t ∈ pending w) by (eapply list_elem_of_lookup_2; eassumption).
  assert (Hc0 : current_generation (set_pending (delete i (pending w)) w)).
  { intros t' Hin' Ha. cbn in *. apply Hc; [|exact Ha].
    eapply list_elem_of_delete_inv, Hin'. }
  destruct t as [g image|g image scaled blurred]; cbn [run_task].
  - destruct (alive g (guards (set_pending (delete i (pending w)) w))) eqn:Ha.
    + apply destroy_current. apply generateCallback_current; [|exact Hc0].
      cbn. apply (Hc _ Hin Ha).
    + apply destroy_current, Hc0.
  - apply destroy_current.
    eapply backstage_current; [apply decode_done_backstage | exact Hc0].
Qed.

Lemma destructor_current w : current_generation w -> current_generation (destructor w).
Proof.
  intros Hc t Hin Halive. unfold destructor in *. cbn in *.
  apply alive_destroy in Halive as [Halive Hne].
  destruct (Hc t Hin Halive) as [Hg _]. contradiction.
Qed.

Lemma setScaledFromThumb_generating o b :
  _generating (setScaledFromThumb o b).2 = _generating b.
Proof.
  unfold setScaledFromThumb.
  destruct (thumbnail (_paper b)) as [t|]; [|reflexivity].
  destruct (negb (image_loaded (thumbnails o t))); [reflexivity|].
  destruct (isPattern (_paper b) && _); [reflexivity|].
  apply setScaledFromImage_generating.
Qed.

Lemma checkBlurAnimationStart_generating b :
  _generating (checkBlurAnimationStart b) = _generating b.
Proof.
  unfold checkBlurAnimationStart, startFadeInFrom.
  repeat case_match; reflexivity.
Qed.

(** A change of the box that keeps [_generating] happens backstage. *)
Lemma on_box_backstage (f : Box -> Box) w :
  _generating (f (box w)) = _generating (box w) -> backstage w (on_box f w).
Proof. intros Hg. unfold backstage. cbn. auto. Qed.

Lemma paintImage_backstage ms w w' ops :
  paintImage ms w = Ok (w', ops) -> backstage w w'.
Proof.
  unfold paintImage.
  destruct (check _ _); cbn [mbind Result_bind bind]; [|discriminate].
  destruct (animation_current _ _ _) as [fadeIn fade].
  intros [= <- _].
  eapply backstage_trans; [|apply on_box_backstage, checkBlurAnimationStart_generating].
  apply on_box_backstage. reflexivity.
Qed.

Lemma step_radial_current ms timer w w' :
  destroyed w = false -> current_generation w ->
  step_radial ms timer w = Ok w' ->
  current_generation w' /\ destroyed w' = false.
Proof.
  intros Hlive Hc. unfold step_radial.
  destruct (document (_paper (box w))) as [d|]; [|discriminate].
  destruct (radial_update _ _ _ _) as [radial updated].
  intros [= <-].
  apply checkLoadedDocument_current.
  - case_match; exact Hlive.
  - eapply backstage_current; [|exact Hc].
    case_match; unfold backstage; cbn; auto.
Qed.

Lemma paintRadial_current ms w w' ops :
  destroyed w = false -> current_generation w ->
  paintRadial ms w = Ok (w', ops) ->
  current_generation w' /\ destroyed w' = false.
Proof.
  intros Hlive Hc. unfold paintRadial.
  destruct (radial_animating (_radial (box w))).
  - destruct (step_radial ms false w) as [w1|] eqn:Hs;
      cbn [mbind Result_bind bind]; [|discriminate].
    apply step_radial_current in Hs; [|assumption..].
    case_match; intros [= <- _]; exact Hs.
  - cbn. intros [= <- _]. auto.
Qed.

Lemma paintEvent_current ms w w' ops :
  destroyed w = false -> current_generation w ->
  paintEvent ms w = Ok (w', ops) ->
  current_generation w' /\ destroyed w' = false.
Proof.
  intros Hlive Hc. unfold paintEvent.
  set (filled := match backgroundColor (_paper (box w)) with
                 | Some c => [FillRect c] | None => [] end).
  destruct (negb (bool_decide (is_Some (backgroundColor (_paper (box w)))))
            || isPattern (_paper (box w)));
    [|intros [= <- _]; auto].
  destruct (if negb (pixmap_isNull (_scaled (box w))) then _ else _)
    as [have w1] eqn:Hhave.
  assert (Hb1 : backstage w w1).
  { destruct (negb (pixmap_isNull (_scaled (box w)))).
    - simplify_eq. apply backstage_refl.
    - pose proof (setScaledFromThumb_generating (outside w) (box w)) as Hg.
      destruct (setScaledFromThumb (outside w) (box w)) as [done b].
      simplify_eq. unfold backstage. cbn. auto. }
  pose proof (backstage_current _ _ Hb1 Hc) as Hc1.
  assert (Hlive1 : destroyed w1 = false).
  { destruct Hb1 as (_ & _ & Hd & _). congruence. }
  destruct have.
  - destruct (paintImage ms w1) as [[w2 image]|] eqn:Hi;
      cbn [mbind Result_bind bind]; [|discriminate].
    apply paintImage_backstage in Hi.
    destruct (paintRadial ms w2) as [[w3 radial]|] eqn:Hr;
      cbn [mbind Result_bind bind]; [|discriminate].
    intros [= <- _].
    eapply paintRadial_current; [| |exact Hr].
    + destruct Hi as (_ & _ & Hd & _). congruence.
    + eapply backstage_current; eassumption.
  - destruct (negb (bool_decide (is_Some (backgroundColor (_paper (box w)))))).
    + intros [= <- _]. auto.
    + destruct (paintRadial ms w1) as [[w3 radial]|] eqn:Hr;
        cbn [mbind Result_bind bind]; [|discriminate].
      intros [= <- _]. eapply paintRadial_current; eassumption.
Qed.

Lemma prepared_current paper o :
  current_generation (prepare (new_world paper o)).
Proof.
  rewrite prepare_split. unfold prepare_images. cbn zeta.
  set (w1 := on_box _ (prepare_widgets (new_world paper o))).
  assert (Hc1 : current_generation w1).
  { intros t Hin. unfold w1, prepare_widgets in Hin. cbn in Hin.
    apply elem_of_nil in Hin. contradiction. }
  assert (Hlive1 : destroyed w1 = false) by reflexivity.
  destruct (checkLoadedDocument_current w1 Hlive1 Hc1) as [Hc2 _].
  eapply backstage_current; [|exact Hc2].
  apply on_box_backstage. reflexivity.
Qed.

Lemma deliver_current e w w' :
  current_generation w -> deliver e w = Ok w' -> current_generation w'.
Proof.
  intros Hc.
  destruct e; cbn [deliver];
    try (destruct (destroyed w) eqn:Hlive; [intros [= <-]; exact Hc|]).
  - destruct (paintEvent ms w) as [[w1 ops]|] eqn:Hp;
      cbn [mbind Result_bind bind]; [|discriminate].
    intros [= <-]. eapply paintEvent_current; eassumption.
  - destruct (radial_animating _); [|intros [= <-]; exact Hc].
    intros Hs. eapply step_radial_current; eassumption.
  - destruct (animating _); intros [= <-]; [|exact Hc].
    eapply backstage_current; [|exact Hc]. unfold backstage. cbn. auto.
  - destruct (_blur (box w)) as [c|]; [|intros [= <-]; exact Hc].
    destruct (disabled c); intros [= <-]; [exact Hc|].
    eapply backstage_current; [|exact Hc]. unfold blur_changed.
    eapply backstage_trans;
      [|apply on_box_backstage, checkBlurAnimationStart_generating].
    apply on_box_backstage. reflexivity.
  - destruct (has_button a (box w)); [|intros [= <-]; exact Hc].
    destruct a; intros [= <-]; (eapply backstage_current; [|exact Hc]);
      unfold backstage, apply, closeBox, share; cbn; repeat case_match; cbn; auto.
  - intros [= <-]. eapply backstage_current; [|exact Hc].
    unfold backstage. cbn. auto.
  - intros [= <-]. eapply backstage_current; [|exact Hc].
    unfold backstage. cbn. auto.
  - destruct (pending w !! i) as [t|] eqn:Hi; intros [= <-]; [|exact Hc].
    apply run_task_current; assumption.
  - intros [= <-]. apply destructor_current, Hc.
Qed.

(** In every state the box reaches, a completion whose guard is alive is
    the one of the generation [_generating] stands for, and the box has
    not been destroyed: no completion changes a box that is gone, and none
    of an abandoned generation changes the box. *)
Lemma live_completion_is_current paper w :
  reachable paper w -> current_generation w.
Proof.
  induction 1 as [o|w e w' _ IH Hd].
  - apply prepared_current.
  - eapply deliver_current; eassumption.
Qed.

(** C1.  The completion the decode posts to the main thread changes the
    box only when its guard is alive: then the decoded image becomes
    [_full] and [setScaledFromImage] runs on the two prepared images; with
    a dead guard the box stays as it is.  The guard that pairs with
    [_generating] is dead once [_generating] is assigned a newer guard, a
    newer generation is started, or the box is destroyed; and in every
    state the box reaches, a completion on its way with a live guard holds
    the pair of [_generating] of a box that is still there. *)
Theorem decode_completion_guarded
    (w : World) (guard : binary_guard) (image scaled blurred : QImage) :
  let done := run_task (DecodeDone guard image scaled blurred) w in
  (alive guard (guards w) = false -> box done = box w)
  /\ (alive guard (guards w) = true ->
      box done = setScaledFromImage scaled blurred (set_full image (box w)))
  /\ (box done <> box w -> alive guard (guards w) = true)
  /\ (forall newer,
        is_Some guard -> _generating (box w) = guard ->
        alive guard (guards (assign_generating newer w)) = false)
  /\ (forall newer_image,
        is_Some guard -> _generating (box w) = guard ->
        alive guard (guards (generateCallback newer_image w)) = false)
  /\ (is_Some guard -> _generating (box w) = guard ->
      alive guard (guards (destructor w)) = false)
  /\ (forall paper,
        reachable paper w ->
        DecodeDone guard image scaled blurred ∈ pending w ->
        alive guard (guards w) = true ->
        guard = _generating (box w) /\ destroyed w = false).
Proof.
  intros done. subst done. cbn [run_task box set_guards]. unfold decode_done.
  assert (Hkill : forall c flags, alive (Some c) (<[c := false]> flags) = false).
  { intros c flags. unfold alive.
    destruct (decide (c < length flags)%nat) as [Hlt|Hge].
    - rewrite list_lookup_insert_eq by exact Hlt. reflexivity.
    - rewrite list_insert_ge by lia.
      rewrite lookup_ge_None_2 by lia. reflexivity. }
  split; [intros ->; reflexivity|].
  split; [intros ->; reflexivity|].
  split.
  { destruct (alive guard (guards w)); [reflexivity|]. cbn. congruence. }
  split; [|split; [|split]].
  - intros newer [c ->] Hg. unfold assign_generating. cbn. rewrite Hg.
    apply Hkill.
  - intros newer_image [c ->] Hg. unfold generateCallback, assign_generating.
    cbn. rewrite Hg. apply Hkill.
  - intros [c ->] Hg. unfold destructor. cbn. rewrite Hg. apply Hkill.
  - intros paper Hr Hin Halive.
    apply (live_completion_is_current paper w Hr _ Hin Halive).
Qed.

End Generations.

Lemma decode_completion_guarded_witness :
  _full (box (run_task (DecodeDone (Some 1%nat) (Some 1) (Some 3) None)
                Demo.decoding_world)) = Some 1
  /\ box (run_task (DecodeDone (Some 0%nat) (Some 1) (Some 3) None)
            Demo.decoding_world) = box Demo.decoding_world.
Proof.
  split.
  - destruct (@decode_completion_guarded Demo.toolkit Demo.host
                Demo.decoding_world (Some 1%nat)
                (Some 1) (Some 3) None) as (_ & Halive & _).
    rewrite Halive by reflexivity. reflexivity.
  - destruct (@decode_completion_guarded Demo.toolkit Demo.host
                Demo.decoding_world (Some 0%nat)
                (Some 1) (Some 3) None) as (Hdead & _).
    apply Hdead. reflexivity.
Defined.

End GuardFacts.

(** ** More on rounding *)

Module Float64Bounds.
Import Float64 Float64Facts.

Lemma pow2_add (a b : Z) : (pow2 (a + b) == pow2 a * pow2 b)%Q.
Proof. unfold pow2. apply Qpower_plus. discriminate. Qed.

Lemma pow2_le_1 (k : Z) : 0 <= k -> (pow2 (- k) <= 1)%Q.
Proof.
  intros Hk. pose proof (pow2_opp k) as Hinv. pose proof (pow2_pos (- k)) as Hp.
  pose proof (pow2_nonneg_Z k Hk) as HZ.
  assert (H1 : (1 <= pow2 k)%Q).
  { rewrite HZ. change 1%Q with (inject_Z 1). rewrite <- Zle_Qle.
    pose proof (Z.pow_pos_nonneg 2 k). lia. }
  nra.
Qed.

Lemma rne_ge_int (y : Q) (k : Z) : (inject_Z k <= y)%Q -> k <= rne y.
Proof.
  intros Hy. unfold rne.
  assert (Hfk : k <= Qfloor y).
  { apply Qfloor_resp_le in Hy. rewrite Qfloor_Z in Hy. exact Hy. }
  destruct (Qcompare _ _); [destruct (Z.even _)| |]; lia.
Qed.

Lemma binade_le (x : Q) (c m : Z) :
  (0 < x)%Q -> (x <= inject_Z c)%Q -> c < 2 ^ m -> 0 <= m -> binade x <= m.
Proof.
  intros Hpos Hle Hc Hm. unfold binade.
  destruct x as [n d]. cbn [Qnum Qden].
  assert (Hn : 0 < n) by (unfold Qlt in Hpos; simpl in Hpos; lia).
  assert (Hnd : n <= c * Z.pos d) by (unfold Qle in Hle; simpl in Hle; lia).
  assert (Hlog : Z.log2 n <= m + Z.log2 (Z.pos d)).
  { assert (n <= Z.pos d * 2 ^ m) by nia.
    rewrite <- Z.log2_mul_pow2 by lia. apply Z.log2_le_mono. assumption. }
  destruct (Qlt_le_dec _ _); lia.
Qed.

(** Rounding does not cross a value [c / 2^k] that binary64 holds. *)
Lemma round64_le_dyadic (x : Q) (c k m : Z) :
  (0 <= x)%Q -> (x <= inject_Z c * pow2 (- k))%Q ->
  0 <= k <= 1074 -> 0 <= m -> c < 2 ^ m -> m + k <= 52 ->
  (0 <= round64 x)%Q /\ (round64 x <= inject_Z c * pow2 (- k))%Q.
Proof.
  intros H0 Hle Hk Hm Hc Hmk. unfold round64.
  destruct (Qcompare x 0) eqn:Cmp.
  - split; [lra|]. apply Qeq_alt in Cmp. lra.
  - apply Qlt_alt in Cmp. lra.
  - apply Qgt_alt in Cmp. unfold round_pos.
    pose proof (pow2_pos (- k)) as Hpk. pose proof (pow2_le_1 k ltac:(lia)) as Hk1.
    assert (Hc0 : (0 < inject_Z c)%Q) by nra.
    assert (Hxc : (x <= inject_Z c)%Q) by nra.
    pose proof (binade_le x c m Cmp Hxc Hc Hm) as Hb.
    set (q := Z.max (binade x - 52) (-1074)).
    assert (Hq : q <= - k) by lia.
    pose proof (pow2_pos q) as Hp.
    pose proof (pow2_opp q) as Hinv.
    pose proof (pow2_pos (- q)) as Hp'.
    pose proof (div_pow2 x q) as Hy.
    pose proof (pow2_nonneg_Z (- k - q) ltac:(lia)) as HZ.
    pose proof (pow2_add (- k) (- q)) as Hadd.
    replace (- k + - q) with (- k - q) in Hadd by lia.
    assert (Hy0 : (0 <= x / pow2 q)%Q) by (rewrite Hy; nra).
    assert (HyK : (x / pow2 q <= inject_Z (c * 2 ^ (- k - q)))%Q).
    { rewrite Hy, inject_Z_mult, <- HZ, Hadd. nra. }
    apply rne_nonneg in Hy0. apply rne_le_int in HyK.
    set (r := rne (x / pow2 q)) in *.
    assert (Hr0 : (0 <= inject_Z r)%Q) by (rewrite <- (Zle_Qle 0); lia).
    assert (HrK : (inject_Z r <= inject_Z c * (pow2 (- k) * pow2 (- q)))%Q).
    { rewrite <- Hadd, HZ, <- inject_Z_mult, <- Zle_Qle. exact HyK. }
    split; [nra|].
    assert (Hc1 : (inject_Z c * pow2 (- k)
                   == inject_Z c * (pow2 (- k) * pow2 (- q)) * pow2 q)%Q).
    { rewrite <- !Qmult_assoc, Hinv. ring. }
    rewrite Hc1. nra.
Qed.

Lemma round64_ge_dyadic (x : Q) (c k c' m : Z) :
  (inject_Z c * pow2 (- k) <= x)%Q -> (x <= inject_Z c')%Q ->
  0 <= c -> 0 <= k <= 1074 -> 0 <= m -> c' < 2 ^ m -> m + k <= 52 ->
  (inject_Z c * pow2 (- k) <= round64 x)%Q.
Proof.
  intros Hge Hle Hc0 Hk Hm Hc' Hmk. unfold round64.
  pose proof (pow2_pos (- k)) as Hpk.
  assert (Hc0' : (0 <= inject_Z c)%Q) by (rewrite <- (Zle_Qle 0); lia).
  destruct (Qcompare x 0) eqn:Cmp.
  - apply Qeq_alt in Cmp. nra.
  - apply Qlt_alt in Cmp. nra.
  - apply Qgt_alt in Cmp. unfold round_pos.
    pose proof (binade_le x c' m Cmp Hle Hc' Hm) as Hb.
    set (q := Z.max (binade x - 52) (-1074)).
    assert (Hq : q <= - k) by lia.
    pose proof (pow2_pos q) as Hp.
    pose proof (pow2_opp q) as Hinv.
    pose proof (pow2_pos (- q)) as Hp'.
    pose proof (div_pow2 x q) as Hy.
    pose proof (pow2_nonneg_Z (- k - q) ltac:(lia)) as HZ.
    pose proof (pow2_add (- k) (- q)) as Hadd.
    replace (- k + - q) with (- k - q) in Hadd by lia.
    assert (HyK : (inject_Z (c * 2 ^ (- k - q)) <= x / pow2 q)%Q).
    { rewrite Hy, inject_Z_mult, <- HZ, Hadd. nra. }
    apply rne_ge_int in HyK.
    set (r := rne (x / pow2 q)) in *.
    assert (HrK : (inject_Z c * (pow2 (- k) * pow2 (- q)) <= inject_Z r)%Q).
    { rewrite <- Hadd, HZ, <- inject_Z_mult, <- Zle_Qle. exact HyK. }
    assert (Hc1 : (inject_Z c * pow2 (- k)
                   == inject_Z c * (pow2 (- k) * pow2 (- q)) * pow2 q)%Q).
    { rewrite <- !Qmult_assoc, Hinv. ring. }
    rewrite Hc1. nra.
Qed.

End Float64Bounds.

Module CheckViewFacts.
Import Float64 Float64Facts Float64Bounds Contract Frames FramesFacts CheckView.

Lemma count_true_replicate_false n : count_true (replicate n false) = O.
Proof. induction n; simpl; auto. Qed.

Lemma count_true_le l : (count_true l <= length l)%nat.
Proof. induction l as [|[] l IH]; simpl; lia. Qed.

Lemma count_true_insert l (i : nat) :
  l !! i = Some false -> count_true (<[i := true]> l) = S (count_true l).
Proof.
  revert i. induction l as [|b l IH]; intros [|i] Hl; simplify_eq/=; auto.
  rewrite IH by assumption. lia.
Qed.

Lemma int_wrap_range z : - 2 ^ 31 <= int_wrap z <= INT_MAX.
Proof.
  unfold int_wrap, INT_MAX.
  pose proof (Z.mod_pos_bound (z + 2 ^ 31) (2 ^ 32) ltac:(lia)). lia.
Qed.

(** The progress [index / float64(count - 1)] of frame [index] of [n + 1]
    frames, and the side of one half it falls on. *)
Lemma frame_progress (index n : Z) :
  0 <= index <= n -> 1 <= n < 2 ^ 31 ->
  let progress := div (of_int index) (of_int n) in
  (0 <= progress)%Q /\ (progress <= 1)%Q
  /\ (2 * index <= n -> (progress <= 1 # 2)%Q)
  /\ (n < 2 * index -> (1 # 2 < progress)%Q)
  /\ (index = 0 -> (progress == 0)%Q)
  /\ (index = n -> (1 <= progress)%Q).
Proof.
  intros Hi Hn progress. unfold progress, div, of_int.
  assert (Hn0 : (0 < inject_Z n)%Q) by (rewrite <- (Zlt_Qlt 0); lia).
  assert (Hi0 : (0 <= inject_Z index)%Q) by (rewrite <- (Zle_Qle 0); lia).
  assert (Hin : (inject_Z index <= inject_Z n)%Q) by (rewrite <- Zle_Qle; lia).
  set (x := (inject_Z index / inject_Z n)%Q).
  assert (Hx0 : (0 <= x)%Q).
  { apply Qle_shift_div_l; [exact Hn0|]. lra. }
  assert (Hx1 : (x <= 1)%Q).
  { apply Qle_shift_div_r; [exact Hn0|]. lra. }
  assert (Hp0 : (pow2 (- 0) == 1)%Q) by reflexivity.
  assert (Hp1 : (pow2 (- 1) == 1 # 2)%Q) by reflexivity.
  assert (Hp32 : (pow2 (- 32) == 1 # 4294967296)%Q) by reflexivity.
  destruct (round64_le_dyadic x 1 0 1) as [Hr0 Hr1]; try lia.
  { exact Hx0. } { rewrite Hp0. change (inject_Z 1) with 1%Q. lra. }
  rewrite Hp0 in Hr1. change (inject_Z 1) with 1%Q in Hr1.
  split; [exact Hr0|]. split; [lra|]. split; [|split; [|split]].
  - intros Hhalf.
    assert (Hxh : (x <= 1 # 2)%Q).
    { apply Qle_shift_div_r; [exact Hn0|].
      assert (H2 : (inject_Z (2 * index) <= inject_Z n)%Q)
        by (rewrite <- Zle_Qle; lia).
      rewrite inject_Z_mult in H2. change (inject_Z 2) with 2%Q in H2. lra. }
    destruct (round64_le_dyadic x 1 1 1) as [_ Hr]; try lia.
    { exact Hx0. } { rewrite Hp1. change (inject_Z 1) with 1%Q. lra. }
    rewrite Hp1 in Hr. change (inject_Z 1) with 1%Q in Hr. lra.
  - intros Hhalf.
    assert (HB : (inject_Z (2 ^ 31 + 1) * pow2 (- 32) <= x)%Q).
    { apply Qle_shift_div_l; [exact Hn0|]. rewrite Hp32.
      assert (H2 : (inject_Z ((2 ^ 31 + 1) * n)
                    <= inject_Z (2 ^ 32 * index))%Q)
        by (rewrite <- Zle_Qle; lia).
      rewrite !inject_Z_mult in H2.
      change (inject_Z (2 ^ 31 + 1)) with (2147483649 # 1)%Q in *.
      change (inject_Z (2 ^ 32)) with (4294967296 # 1)%Q in H2.
      lra. }
    pose proof (round64_ge_dyadic x (2 ^ 31 + 1) 32 1 1 HB) as Hr.
    change (inject_Z 1) with 1%Q in Hr.
    specialize (Hr Hx1 ltac:(lia) ltac:(lia) ltac:(lia) ltac:(lia) ltac:(lia)).
    rewrite Hp32 in Hr.
    change (inject_Z (2 ^ 31 + 1)) with (2147483649 # 1)%Q in Hr. lra.
  - intros ->. unfold round64.
    assert (Hz : (x == 0)%Q) by (unfold x; field; lra).
    apply Qeq_alt in Hz. rewrite Hz. reflexivity.
  - intros ->.
    assert (Hone : (inject_Z 1 * pow2 (- 0) <= x)%Q).
    { rewrite Hp0. change (inject_Z 1) with 1%Q.
      apply Qle_shift_div_l; [exact Hn0 | lra]. }
    pose proof (round64_ge_dyadic x 1 0 1 1 Hone) as Hr.
    change (inject_Z 1) with 1%Q in Hr.
    specialize (Hr Hx1 ltac:(lia) ltac:(lia) ltac:(lia) ltac:(lia) ltac:(lia)).
    rewrite Hp0 in Hr. lra.
Qed.

Lemma round64_unit (x : Q) :
  (0 <= x)%Q -> (x <= 1)%Q -> (0 <= round64 x)%Q /\ (round64 x <= 1)%Q.
Proof.
  intros H0 H1.
  assert (Hp0 : (pow2 (- 0) == 1)%Q) by reflexivity.
  destruct (round64_le_dyadic x 1 0 1) as [Hr0 Hr1]; try lia.
  { exact H0. } { rewrite Hp0. change (inject_Z 1) with 1%Q. lra. }
  rewrite Hp0 in Hr1. change (inject_Z 1) with 1%Q in Hr1.
  split; [exact Hr0 | lra].
Qed.

Lemma round64_half (x : Q) :
  (0 <= x)%Q -> (x <= 1 # 2)%Q ->
  (0 <= round64 x)%Q /\ (round64 x <= 1 # 2)%Q.
Proof.
  intros H0 H1.
  assert (Hp1 : (pow2 (- 1) == 1 # 2)%Q) by reflexivity.
  destruct (round64_le_dyadic x 1 1 1) as [Hr0 Hr1]; try lia.
  { exact H0. } { rewrite Hp1. change (inject_Z 1) with 1%Q. lra. }
  rewrite Hp1 in Hr1. change (inject_Z 1) with 1%Q in Hr1.
  split; [exact Hr0 | lra].
Qed.

Lemma round64_zero (x : Q) : (x == 0)%Q -> round64 x = 0%Q.
Proof. intros Hz. unfold round64. apply Qeq_alt in Hz. by rewrite Hz. Qed.

Lemma round64_ge_half (x : Q) :
  (1 # 2 <= x)%Q -> (x <= 1)%Q -> (1 # 2 <= round64 x)%Q.
Proof.
  intros H0 H1.
  assert (Hp1 : (pow2 (- 1) == 1 # 2)%Q) by reflexivity.
  assert (Hh : (inject_Z 1 * pow2 (- 1) <= x)%Q).
  { rewrite Hp1. change (inject_Z 1) with 1%Q. lra. }
  pose proof (round64_ge_dyadic x 1 1 1 1 Hh) as Hr.
  change (inject_Z 1) with 1%Q in Hr.
  specialize (Hr H1 ltac:(lia) ltac:(lia) ltac:(lia) ltac:(lia) ltac:(lia)).
  rewrite Hp1 in Hr. lra.
Qed.

Lemma round64_ge_one (x : Q) :
  (1 <= x)%Q -> (x <= 1)%Q -> (1 <= round64 x)%Q.
Proof.
  intros H0 H1.
  assert (Hp0 : (pow2 (- 0) == 1)%Q) by reflexivity.
  assert (Hh : (inject_Z 1 * pow2 (- 0) <= x)%Q).
  { rewrite Hp0. change (inject_Z 1) with 1%Q. lra. }
  pose proof (round64_ge_dyadic x 1 0 1 1 Hh) as Hr.
  change (inject_Z 1) with 1%Q in Hr.
  specialize (Hr H1 ltac:(lia) ltac:(lia) ltac:(lia) ltac:(lia) ltac:(lia)).
  rewrite Hp0 in Hr. lra.
Qed.

Lemma double_of_half (p : Q) :
  (0 <= p)%Q -> (p <= 1 # 2)%Q ->
  (0 <= mul p 2)%Q /\ (mul p 2 <= 1)%Q.
Proof. intros H0 H1. unfold mul. apply round64_unit; lra. Qed.

Lemma half_off (p : Q) :
  (1 # 2 <= p)%Q -> (p <= 1)%Q ->
  (0 <= sub p (1 # 2))%Q /\ (sub p (1 # 2) <= 1 # 2)%Q.
Proof. intros H0 H1. unfold sub. apply round64_half; lra. Qed.

Section ViewFacts.

Variable AnimationTimerDelta : Z.
Variable cIntRetinaFactor : Z.
Variable style_at : nat -> ServiceCheck.
Variable margin_at : nat -> QMargins.

Local Abbreviation frame_count := (frame_count AnimationTimerDelta style_at).
Local Abbreviation framesForStyle :=
  (framesForStyle AnimationTimerDelta cIntRetinaFactor style_at).
Local Abbreviation paintFrame :=
  (paintFrame AnimationTimerDelta cIntRetinaFactor style_at).
Local Abbreviation generated :=
  (generated AnimationTimerDelta cIntRetinaFactor style_at).
Local Abbreviation sized := (sized AnimationTimerDelta style_at).
Local Abbreviation painted_as_ready := (painted_as_ready style_at).
Local Abbreviation strip_as_created :=
  (strip_as_created AnimationTimerDelta cIntRetinaFactor style_at).
Local Abbreviation paint :=
  (paint AnimationTimerDelta cIntRetinaFactor style_at margin_at).

(** What one call of [paintFrame] does to the entry of its style. *)
Lemma paintFrame_entry left top st toggled g g' d :
  sized g -> painted_as_ready g ->
  paintFrame left top st toggled g = Ok (g', d) ->
  let index := frame_index toggled (Z.of_nat (Z.to_nat (frame_count st))) in
  0 <= index < Z.of_nat (Z.to_nat (frame_count st))
  /\ d = {| draw_left := left; draw_top := top;
            source_x := index * (diameter (style_at st) * cIntRetinaFactor);
            source_part := diameter (style_at st) * cIntRetinaFactor |}
  /\ exists frames,
       g' = <[st := frames]> (framesForStyle st g).2
       /\ ready frames !! Z.to_nat index = Some true
       /\ length (ready frames) = Z.to_nat (frame_count st)
       /\ length (strip_painted (image frames)) = count_true (ready frames)
       /\ (forall i : nat, ready frames !! i = Some true ->
             exists painting,
               (Z.of_nat i * diameter (style_at st), painting)
               ∈ strip_painted (image frames))
       /\ (ready (framesForStyle st g).1 !! Z.to_nat index = Some true ->
           frames = (framesForStyle st g).1).
Proof.
  intros Hs Hp. unfold Frames.paintFrame.
  destruct (framesForStyle_sized AnimationTimerDelta cIntRetinaFactor style_at
              st g Hs) as (Hlen & _ & Hfind).
  assert (Hp0 : length (strip_painted (image (framesForStyle st g).1))
                = count_true (ready (framesForStyle st g).1)
                /\ forall i : nat,
                     ready (framesForStyle st g).1 !! i = Some true ->
                     exists painting,
                       (Z.of_nat i * diameter (style_at st), painting)
                       ∈ strip_painted (image (framesForStyle st g).1)).
  { unfold Frames.framesForStyle in *. destruct (g !! st) as [fr|] eqn:E; simpl.
    - apply (Hp st fr E).
    - rewrite count_true_replicate_false. split; [reflexivity|].
      intros i Hi. apply lookup_replicate in Hi as [? _]. discriminate. }
  destruct (framesForStyle st g) as [fr g1]. cbn [fst snd] in *.
  assert (Hcount : int_wrap (Z.of_nat (length (ready fr)))
                   = Z.of_nat (Z.to_nat (frame_count st))).
  { rewrite Hlen. apply int_wrap_id.
    pose proof (int_wrap_range
                  (Z.quot (duration (style_at st)) AnimationTimerDelta + 2)).
    unfold Frames.frame_count, INT_MAX in *.
    lia. }
  rewrite Hcount.
  set (index := frame_index toggled (Z.of_nat (Z.to_nat (frame_count st)))).
  destruct ((index >=? 0) && (index <? Z.of_nat (Z.to_nat (frame_count st))))
    eqn:Hchk; cbn [check mbind Result_bind bind]; [|discriminate].
  assert (Hidx : 0 <= index < Z.of_nat (Z.to_nat (frame_count st))).
  { apply andb_true_iff in Hchk as [H1 H2].
    apply Z.geb_le in H1. apply Z.ltb_lt in H2. lia. }
  assert (Hin : (Z.to_nat index < length (ready fr))%nat) by lia.
  destruct (lookup_lt_is_Some_2 _ _ Hin) as [b Hb]. rewrite Hb.
  destruct Hp0 as [Hp1 Hp2].
  destruct b.
  - cbn [mbind Result_bind bind]. intros [= <- <-].
    split; [exact Hidx|]. split; [reflexivity|].
    exists fr. repeat split; auto.
  - unfold FillFrame.
    destruct (check FillFrame_Expects_count _);
      cbn [mbind Result_bind bind]; [|discriminate].
    rewrite Hchk. cbn [check mbind Result_bind bind].
    intros [= <- <-].
    split; [exact Hidx|]. split; [reflexivity|].
    eexists. split; [reflexivity|]. cbn [ready image strip_painted].
    split; [apply list_lookup_insert_eq; exact Hin|].
    split; [rewrite length_insert; exact Hlen|].
    split.
    { rewrite length_app, count_true_insert by exact Hb. simpl. lia. }
    split; [|congruence].
    intros i Hi.
    destruct (decide (i = Z.to_nat index)) as [->|Hne].
    + eexists. apply elem_of_app. right. apply list_elem_of_singleton.
      rewrite Z2Nat.id by lia. reflexivity.
    + rewrite list_lookup_insert_ne in Hi by congruence.
      destruct (Hp2 i Hi) as [painting Hin']. exists painting.
      apply elem_of_app. auto.
Qed.

Lemma paintFrame_painted left top st toggled g g' d :
  sized g -> painted_as_ready g ->
  paintFrame left top st toggled g = Ok (g', d) -> painted_as_ready g'.
Proof.
  intros Hs Hp Hpaint.
  destruct (paintFrame_entry _ _ _ _ _ _ _ Hs Hp Hpaint)
    as (_ & _ & fr & -> & _ & _ & Hc & Hr & _).
  destruct (framesForStyle_sized AnimationTimerDelta cIntRetinaFactor style_at
              st g Hs) as (_ & _ & Hfind).
  intros st' fr'. rewrite lookup_insert. case_decide as Hd.
  - subst st'. intros [= <-]. auto.
  - intros Hl. unfold Frames.framesForStyle in Hl.
    destruct (g !! st) as [fr0|] eqn:E; cbn [snd] in Hl.
    + apply (Hp st' fr' Hl).
    + rewrite lookup_insert_ne in Hl by congruence. apply (Hp st' fr' Hl).
Qed.

Lemma generated_painted g : generated g -> painted_as_ready g.
Proof.
  induction 1 as [|g left top st toggled g' d Hg IH Hp|g _ _].
  - intros st fr. by rewrite lookup_empty.
  - eapply paintFrame_painted; [|exact IH|exact Hp].
    apply (generated_sized _ _ _ _ Hg).
  - intros st fr. unfold invalidate. by rewrite lookup_empty.
Qed.

Lemma FillFrame_size img st index count img' :
  FillFrame style_at img st index count = Ok img' ->
  strip_width img' = strip_width img /\ strip_height img' = strip_height img.
Proof.
  unfold FillFrame.
  destruct (count >? 1); cbn [check mbind Result_bind bind]; [|discriminate].
  destruct ((index >=? 0) && (index <? count));
    cbn [check mbind Result_bind bind]; [|discriminate].
  intros [= <-]. auto.
Qed.

Lemma paintFrame_created left top st toggled g g' d :
  strip_as_created g ->
  paintFrame left top st toggled g = Ok (g', d) -> strip_as_created g'.
Proof.
  intros Hc. unfold Frames.paintFrame.
  assert (Hc0 : strip_as_created (framesForStyle st g).2
                /\ (framesForStyle st g).2 !! st
                   = Some (framesForStyle st g).1).
  { unfold Frames.framesForStyle. destruct (g !! st) as [fr|] eqn:E; simpl.
    - auto.
    - split; [|apply lookup_insert_eq].
      intros st' fr'. rewrite lookup_insert. case_decide as Hd.
      + subst st'. intros [= <-]. simpl. auto.
      + apply Hc. }
  destruct (framesForStyle st g) as [fr g1]. cbn [fst snd] in Hc0.
  destruct Hc0 as [Hc1 Hfr].
  destruct (check _ _); cbn [mbind Result_bind bind]; [|discriminate].
  match goal with |- context [mbind _ ?m] => destruct m as [fr'|] eqn:Efr end;
    cbn [mbind Result_bind bind]; [|discriminate].
  intros [= <- _].
  assert (Him : strip_width (image fr') = strip_width (image fr)
                /\ strip_height (image fr') = strip_height (image fr)).
  { destruct (ready fr !! _) as [[|]|]; simplify_eq; auto;
      (destruct (FillFrame _ _ _ _ _) as [img|] eqn:Efill;
       cbn [mbind Result_bind bind] in Efr; simplify_eq;
       apply (FillFrame_size _ _ _ _ _ Efill)). }
  intros st' fr''. rewrite lookup_insert. case_decide as Hd.
  - subst st'. intros [= <-]. destruct Him as [-> ->]. apply (Hc1 st fr Hfr).
  - apply Hc1.
Qed.

Lemma generated_created g : generated g -> strip_as_created g.
Proof.
  induction 1 as [|g left top st toggled g' d Hg IH Hp|g _ _].
  - intros st fr. by rewrite lookup_empty.
  - eapply paintFrame_created; eassumption.
  - intros st fr. unfold invalidate. by rewrite lookup_empty.
Qed.

Lemma FillFrame_paints
    (img img' : StripImage) (st : nat) (index count : Z) :
  count <= INT_MAX ->
  FillFrame style_at img st index count = Ok img' ->
  exists painting,
    strip_painted img'
    = strip_painted img ++ [(index * diameter (style_at st), painting)]
    /\ (0 <= progress_of painting)%Q /\ (progress_of painting <= 1)%Q
    /\ is_checking painting = (count - 1 <? 2 * index)
    /\ (index = 0 -> (progress_of painting == 0)%Q)
    /\ (index = count - 1 -> (progress_of painting == 1)%Q).
Proof.
  intros Hmax. unfold FillFrame.
  destruct (count >? 1) eqn:Hc; cbn [check mbind Result_bind bind];
    [|discriminate].
  destruct ((index >=? 0) && (index <? count)) eqn:Hi;
    cbn [check mbind Result_bind bind]; [|discriminate].
  apply Z.gtb_lt in Hc. apply andb_true_iff in Hi as [Hi0 Hi1].
  apply Z.geb_le in Hi0. apply Z.ltb_lt in Hi1.
  rewrite int_wrap_id by (unfold INT_MAX in *; lia).
  destruct (frame_progress index (count - 1))
    as (Hp0 & Hp1 & Hlow & Hhigh & Hfirst & Hlast);
    [lia | unfold INT_MAX in *; lia |].
  set (progress := div (of_int index) (of_int (count - 1))) in *.
  intros [= <-]. cbn [strip_painted]. eexists. split; [reflexivity|].
  unfold gt. destruct (Qle_bool progress (1 # 2)) eqn:Hle; cbn [negb].
  - apply Qle_bool_iff in Hle.
    assert (Hside : 2 * index <= count - 1).
    { destruct (Z_le_gt_dec (2 * index) (count - 1)) as [|Hgt]; [assumption|].
      specialize (Hhigh ltac:(lia)). lra. }
    destruct (double_of_half progress Hp0 Hle) as [Hm0 Hm1].
    cbn [progress_of is_checking]. repeat split; try assumption.
    + symmetry. apply Z.ltb_ge. exact Hside.
    + intros Hz. specialize (Hfirst Hz). unfold mul.
      rewrite round64_zero; [reflexivity | lra].
    + intros Hl. lia.
  - assert (Hgt : (1 # 2 < progress)%Q).
    { destruct (Qlt_le_dec (1 # 2) progress) as [|Hle']; [assumption|].
      apply Qle_bool_iff in Hle'. congruence. }
    assert (Hside : count - 1 < 2 * index).
    { destruct (Z_le_gt_dec (2 * index) (count - 1)) as [Hle'|]; [|lia].
      specialize (Hlow Hle'). lra. }
    destruct (half_off progress) as [Hs0 Hs1]; [lra | exact Hp1 |].
    destruct (double_of_half _ Hs0 Hs1) as [Hm0 Hm1].
    cbn [progress_of is_checking]. repeat split; try assumption.
    + symmetry. apply Z.ltb_lt. exact Hside.
    + intros Hz. lia.
    + intros Hl. specialize (Hlast Hl).
      assert (Hh : (1 # 2 <= sub progress (1 # 2))%Q).
      { unfold sub. apply round64_ge_half; lra. }
      assert (H1 : (1 <= mul (sub progress (1 # 2)) 2)%Q).
      { unfold mul. apply round64_ge_one; lra. }
      lra.
Qed.

(** X2. What [ServiceCheck::paint] draws: the square of the frame for the
    animation value, taken from the strip of its style at a place inside
    the strip where that frame has been painted; a strip never holds more
    paintings than frames. *)
Theorem paint_draws_painted_frame left top st toggled g g' d :
  generated g ->
  paint left top st toggled g = Ok (g', d) ->
  let index := frame_index toggled (frame_count st) in
  let part := diameter (style_at st) * cIntRetinaFactor in
  0 <= index < frame_count st
  /\ d = {| draw_left := int_wrap (left + margin_left (margin_at st));
            draw_top := int_wrap (top + margin_top (margin_at st));
            source_x := index * part; source_part := part |}
  /\ exists frames painting,
       g' !! st = Some frames
       /\ ready frames !! Z.to_nat index = Some true
       /\ (index * diameter (style_at st), painting)
          ∈ strip_painted (image frames)
       /\ strip_width (image frames) = frame_count st * part
       /\ strip_height (image frames) = part
       /\ (length (strip_painted (image frames))
           <= Z.to_nat (frame_count st))%nat.
Proof.
  intros Hg Hpaint index part. unfold CheckView.paint in Hpaint.
  pose proof (generated_sized _ _ _ _ Hg) as Hs.
  pose proof (generated_painted _ Hg) as Hp.
  destruct (paintFrame_entry _ _ _ _ _ _ _ Hs Hp Hpaint)
    as (Hidx & Hd & fr & Hg' & Hready & Hlen & Hcount & Hin & _).
  assert (Hfc : Z.of_nat (Z.to_nat (frame_count st)) = frame_count st) by lia.
  rewrite Hfc in *. fold index in Hidx, Hd, Hready. fold part in Hd.
  split; [exact Hidx|]. split; [exact Hd|].
  destruct (Hin _ Hready) as [painting Hpainting].
  rewrite Z2Nat.id in Hpainting by lia.
  assert (Hlook : g' !! st = Some fr) by (rewrite Hg'; apply lookup_insert_eq).
  pose proof (generated_created g' (generated_paint _ _ _ _ _ _ _ _ _ _ Hg Hpaint))
    as Hc.
  destruct (Hc st fr Hlook) as [Hw Hh].
  exists fr, painting. repeat split; try assumption.
  - rewrite Hw. unfold part. ring.
  - rewrite Hcount, <- Hlen. apply count_true_le.
Qed.

(** X3. A frame is painted once: painting the same style at the same
    animation value again draws the same part of the strip and leaves the
    cache as it is. *)
Theorem paintFrame_again left top left' top' st toggled g g1 d1 :
  generated g ->
  paintFrame left top st toggled g = Ok (g1, d1) ->
  paintFrame left' top' st toggled g1
  = Ok (g1, {| draw_left := left'; draw_top := top';
               source_x := source_x d1; source_part := source_part d1 |}).
Proof.
  intros Hg Hpaint.
  pose proof (generated_sized _ _ _ _ Hg) as Hs.
  pose proof (generated_painted _ Hg) as Hp.
  destruct (paintFrame_entry _ _ _ _ _ _ _ Hs Hp Hpaint)
    as (Hidx & Hd & fr & Hg' & Hready & Hlen & _).
  unfold Frames.paintFrame, Frames.framesForStyle at 1.
  assert (Hlook : g1 !! st = Some fr) by (rewrite Hg'; apply lookup_insert_eq).
  rewrite Hlook.
  assert (Hcount : int_wrap (Z.of_nat (length (ready fr)))
                   = Z.of_nat (Z.to_nat (frame_count st))).
  { rewrite Hlen. apply int_wrap_id.
    pose proof (int_wrap_range
                  (Z.quot (duration (style_at st)) AnimationTimerDelta + 2)).
    unfold Frames.frame_count, INT_MAX in *.
    lia. }
  rewrite Hcount.
  set (index := frame_index toggled (Z.of_nat (Z.to_nat (frame_count st))))
    in *.
  assert (Hchk : (index >=? 0) && (index <? Z.of_nat (Z.to_nat (frame_count st)))
                 = true).
  { apply andb_true_iff. split; [apply Z.geb_le | apply Z.ltb_lt]; lia. }
  rewrite Hchk, Hready. cbn [check mbind Result_bind bind].
  rewrite Hd. cbn [source_x source_part].
  rewrite insert_id by exact Hlook. reflexivity.
Qed.

(** X4. [paintFrame] keeps what the cache holds: the entries of other
    styles are untouched, and in the entry of its own style every frame
    that was ready stays ready and every painting stays where it is, new
    ones being added behind. *)
Theorem paintFrame_keeps_paintings left top st toggled g g' d :
  paintFrame left top st toggled g = Ok (g', d) ->
  (forall st', st' <> st -> g' !! st' = g !! st')
  /\ forall frames, g !! st = Some frames ->
       exists frames',
         g' !! st = Some frames'
         /\ strip_painted (image frames)
            `prefix_of` strip_painted (image frames')
         /\ forall i : nat, ready frames !! i = Some true ->
              ready frames' !! i = Some true.
Proof.
  unfold Frames.paintFrame.
  assert (Hfr : (forall st', st' <> st ->
                   (framesForStyle st g).2 !! st' = g !! st')
                /\ forall frames, g !! st = Some frames ->
                     (framesForStyle st g).1 = frames).
  { unfold Frames.framesForStyle. destruct (g !! st) as [fr|] eqn:E; simpl.
    - split; [auto | congruence].
    - split; [|discriminate]. intros st' Hne. by rewrite lookup_insert_ne. }
  destruct (framesForStyle st g) as [fr g1]. cbn [fst snd] in Hfr.
  destruct Hfr as [Hother Hsame].
  destruct (check _ _); cbn [mbind Result_bind bind]; [|discriminate].
  match goal with |- context [mbind _ ?m] => destruct m as [fr'|] eqn:Efr end;
    cbn [mbind Result_bind bind]; [|discriminate].
  intros [= <- _]. split.
  - intros st' Hne. rewrite lookup_insert_ne by congruence. auto.
  - intros frames Hl. specialize (Hsame _ Hl). subst fr.
    exists fr'. split; [apply lookup_insert_eq|].
    destruct (ready frames !! _) as [[|]|] eqn:Hr; simplify_eq.
    + split; [reflexivity | auto].
    + destruct (FillFrame _ _ _ _ _) as [img|] eqn:Efill;
        cbn [mbind Result_bind bind] in Efr; simplify_eq.
      cbn [image ready]. split.
      * unfold FillFrame in Efill.
        destruct (_ >? 1); cbn [check mbind Result_bind bind] in Efill;
          [|discriminate].
        destruct (_ && _); cbn [check mbind Result_bind bind] in Efill;
          [|discriminate].
        simplify_eq. cbn [strip_painted]. by apply prefix_app_r.
      * intros i Hi. destruct (decide (i = Z.to_nat (frame_index toggled
                       (int_wrap (Z.of_nat (length (ready frames))))))) as [->|Hne].
        -- congruence.
        -- by rewrite list_lookup_insert_ne.
    + destruct (FillFrame _ _ _ _ _) as [img|] eqn:Efill;
        cbn [mbind Result_bind bind] in Efr; simplify_eq.
      cbn [image ready]. split.
      * unfold FillFrame in Efill.
        destruct (_ >? 1); cbn [check mbind Result_bind bind] in Efill;
          [|discriminate].
        destruct (_ && _); cbn [check mbind Result_bind bind] in Efill;
          [|discriminate].
        simplify_eq. cbn [strip_painted]. by apply prefix_app_r.
      * intros i Hi.
        rewrite list_insert_ge; [exact Hi|].
        apply lookup_ge_None. exact Hr.
Qed.

(** X5. After a change of the palette nothing painted before is used:
    the next [paintFrame] starts a new strip for its style and paints the
    frame it draws, and that frame only. *)
Theorem palette_change_repaints left top st toggled g g' d :
  paintFrame left top st toggled (background_updated true g) = Ok (g', d) ->
  exists frames painting,
    g' = {[ st := frames ]}
    /\ strip_painted (image frames)
       = [(frame_index toggled (frame_count st) * diameter (style_at st),
           painting)]
    /\ ready frames
       = <[Z.to_nat (frame_index toggled (frame_count st)) := true]>
           (replicate (Z.to_nat (frame_count st)) false).
Proof.
  unfold background_updated, invalidate, Frames.paintFrame,
    Frames.framesForStyle.
  rewrite lookup_empty. cbn [image ready].
  rewrite length_replicate.
  assert (Hcount : int_wrap (Z.of_nat (Z.to_nat (frame_count st)))
                   = Z.of_nat (Z.to_nat (frame_count st))).
  { apply int_wrap_id.
    pose proof (int_wrap_range
                  (Z.quot (duration (style_at st)) AnimationTimerDelta + 2)).
    unfold Frames.frame_count, INT_MAX in *.
    lia. }
  rewrite Hcount.
  set (index := frame_index toggled (Z.of_nat (Z.to_nat (frame_count st)))).
  destruct ((index >=? 0) && (index <? Z.of_nat (Z.to_nat (frame_count st))))
    eqn:Hchk; cbn [check mbind Result_bind bind]; [|discriminate].
  assert (Hidx : 0 <= index < Z.of_nat (Z.to_nat (frame_count st))).
  { apply andb_true_iff in Hchk as [H1 H2].
    apply Z.geb_le in H1. apply Z.ltb_lt in H2. lia. }
  assert (Hfc : Z.of_nat (Z.to_nat (frame_count st)) = frame_count st) by lia.
  rewrite lookup_replicate_2 by lia.
  unfold FillFrame.
  destruct (check FillFrame_Expects_count _);
    cbn [mbind Result_bind bind]; [|discriminate].
  rewrite Hchk. cbn [check mbind Result_bind bind].
  intros [= <- _]. eexists. eexists. split.
  - rewrite insert_insert_eq. apply insert_empty.
  - cbn [image ready strip_painted]. unfold index. rewrite Hfc.
    split; reflexivity.
Qed.

(** X1. [FillFrame] paints one frame at the place of its index, with a
    progress in [[0, 1]]: the filling painter for the first half of the
    frames, the checking painter for the second half, progress 0 for the
    first frame and 1 for the last. *)
Theorem FillFrame_painting
    (img img' : StripImage) (st : nat) (index count : Z) :
  count <= INT_MAX ->
  FillFrame style_at img st index count = Ok img' ->
  exists painting,
    strip_painted img'
    = strip_painted img ++ [(index * diameter (style_at st), painting)]
    /\ (0 <= progress_of painting)%Q /\ (progress_of painting <= 1)%Q
    /\ is_checking painting = (count - 1 <? 2 * index)
    /\ (index = 0 -> (progress_of painting == 0)%Q)
    /\ (index = count - 1 -> (progress_of painting == 1)%Q).
Proof. apply FillFrame_paints. Qed.

Lemma frame_index_first (count : Z) :
  2 <= count <= INT_MAX -> frame_index 0%Q count = 0.
Proof.
  intros Hc. unfold frame_index, mul, of_int.
  rewrite int_wrap_id by (unfold INT_MAX in *; lia).
  rewrite round64_zero by lra.
  pose proof (std_round_range 0%Q 0 ltac:(lra)
                ltac:(change (inject_Z 0) with 0%Q; lra)).
  lia.
Qed.

Lemma frame_index_last (count : Z) :
  2 <= count <= INT_MAX -> frame_index 1%Q count = count - 1.
Proof.
  intros Hc. unfold frame_index, mul, of_int.
  rewrite int_wrap_id by (unfold INT_MAX in *; lia).
  set (c := count - 1).
  assert (Hc0 : (0 <= inject_Z c)%Q)
    by (rewrite <- (Zle_Qle 0); unfold c; lia).
  assert (Hp0 : (pow2 (- 0) == 1)%Q) by reflexivity.
  set (x := (1 * inject_Z c)%Q).
  assert (Hx : (x == inject_Z c)%Q) by (unfold x; ring).
  destruct (round64_le_dyadic x c 0 31) as [Hr0 Hr1]; try lia.
  { rewrite Hx. exact Hc0. }
  { rewrite Hx, Hp0. lra. }
  { unfold c, INT_MAX in *. lia. }
  assert (Hlow : (inject_Z c * pow2 (- 0) <= x)%Q) by (rewrite Hx, Hp0; lra).
  pose proof (round64_ge_dyadic x c 0 c 31 Hlow) as Hr2.
  specialize (Hr2 ltac:(rewrite Hx; lra) ltac:(unfold c; lia) ltac:(lia)
                ltac:(lia) ltac:(unfold c, INT_MAX in *; lia) ltac:(lia)).
  rewrite Hp0 in Hr1, Hr2.
  set (r := round64 x) in *.
  assert (Hr : (r == inject_Z c)%Q) by lra.
  pose proof (std_round_range r c Hr0 ltac:(lra)) as [_ Hup].
  assert (Hdown : c <= to_int (std_round r)).
  { unfold std_round.
    assert (Hb : Qle_bool 0 r = true) by (apply Qle_bool_iff; exact Hr0).
    rewrite Hb. unfold to_int.
    assert (Hf : c <= Qfloor (r + (1 # 2))).
    { rewrite <- (Qfloor_Z c). apply Qfloor_resp_le. lra. }
    assert (Hb' : Qle_bool 0 (inject_Z (Qfloor (r + (1 # 2)))) = true).
    { apply Qle_bool_iff. rewrite <- (Zle_Qle 0). unfold c in *. lia. }
    rewrite Hb', Qfloor_Z. exact Hf. }
  lia.
Qed.

(** X6. The view at rest shows the two ends of the animation: for the
    value 0 [paintFrame] asks [FillFrame] for the first frame, which is
    the filling painter with progress 0, and for the value 1 for the last
    frame, which is the checking painter with progress 1. *)
Theorem check_view_endpoints (img : StripImage) (st : nat) (count : Z) :
  2 <= count <= INT_MAX ->
  frame_index 0%Q count = 0
  /\ frame_index 1%Q count = count - 1
  /\ (exists img' progress,
        FillFrame style_at img st (frame_index 0%Q count) count = Ok img'
        /\ strip_painted img'
           = strip_painted img ++ [(0, PaintFillingFrame progress)]
        /\ (progress == 0)%Q)
  /\ (exists img' progress,
        FillFrame style_at img st (frame_index 1%Q count) count = Ok img'
        /\ strip_painted img'
           = strip_painted img
             ++ [((count - 1) * diameter (style_at st),
                  PaintCheckingFrame progress)]
        /\ (progress == 1)%Q).
Proof.
  intros Hc. rewrite (frame_index_first count Hc), (frame_index_last count Hc).
  split; [reflexivity|]. split; [reflexivity|].
  assert (Hok : forall index, 0 <= index < count ->
            exists img', FillFrame style_at img st index count = Ok img').
  { intros index Hi. unfold FillFrame.
    replace (count >? 1) with true by lia.
    replace ((index >=? 0) && (index <? count)) with true by lia.
    cbn [check mbind Result_bind bind]. eauto. }
  split.
  - destruct (Hok 0 ltac:(lia)) as [img' Hfill].
    destruct (FillFrame_paints img img' st 0 count ltac:(lia) Hfill)
      as (painting & Hp & _ & _ & Hkind & Hfirst & _).
    replace (count - 1 <? 2 * 0) with false in Hkind by lia.
    destruct painting as [p | p]; [|discriminate].
    exists img', p. split; [exact Hfill|]. split; [exact Hp|].
    apply Hfirst. reflexivity.
  - destruct (Hok (count - 1) ltac:(lia)) as [img' Hfill].
    destruct (FillFrame_paints img img' st (count - 1) count ltac:(lia) Hfill)
      as (painting & Hp & _ & _ & Hkind & _ & Hlast).
    replace (count - 1 <? 2 * (count - 1)) with true in Hkind by lia.
    destruct painting as [p | p]; [discriminate|].
    exists img', p. split; [exact Hfill|]. split; [exact Hp|].
    apply Hlast. reflexivity.
Qed.

End ViewFacts.

Lemma check_view_endpoints_witness :
  frame_index 0%Q 30 = 0 /\ frame_index 1%Q 30 = 29.
Proof.
  destruct (check_view_endpoints
              (fun _ : nat => {| diameter := 20; duration := 200 |})
              {| strip_width := 600; strip_height := 20; strip_painted := [] |}
              0 30)
    as (H0 & H1 & _).
  - unfold INT_MAX. lia.
  - split; [exact H0 | exact H1].
Defined.

Lemma FillFrame_painting_witness :
  let style_at := fun _ : nat => {| diameter := 20; duration := 200 |} in
  let img := {| strip_width := 600; strip_height := 20; strip_painted := [] |} in
  exists img',
    FillFrame style_at img 0 29 30 = Ok img'
    /\ exists painting,
         strip_painted img' = [(580, painting)]
         /\ is_checking painting = true /\ (progress_of painting == 1)%Q.
Proof.
  intros style_at img.
  pose (img' := match FillFrame style_at img 0 29 30 with
                | Ok i => i
                | Failed _ => img
                end).
  exists img'. split; [vm_compute; reflexivity|].
  destruct (FillFrame_painting style_at img img' 0 29 30)
    as (painting & Hp & _ & _ & Hc & _ & Hlast).
  - vm_compute. discriminate.
  - vm_compute. reflexivity.
  - exists painting. split; [exact Hp|]. split; [exact Hc|].
    apply Hlast. reflexivity.
Defined.

Lemma paint_draws_painted_frame_witness :
  let style_at := fun _ : nat => {| diameter := 20; duration := 200 |} in
  let margin_at := fun _ : nat =>
    {| margin_left := 2; margin_top := 3;
       margin_right := 2; margin_bottom := 3 |} in
  exists g' d,
    paint 7 1 style_at margin_at 100 50 0 (1 # 2) ∅ = Ok (g', d)
    /\ d = {| draw_left := 102; draw_top := 53;
              source_x := 15 * 20; source_part := 20 |}.
Proof.
  intros style_at margin_at.
  pose (r := match paint 7 1 style_at margin_at 100 50 0 (1 # 2) ∅ with
             | Ok r => r
             | Failed _ => (∅, {| draw_left := 0; draw_top := 0;
                                  source_x := 0; source_part := 0 |})
             end).
  exists r.1, r.2. split; [vm_compute; reflexivity|].
  destruct (paint_draws_painted_frame 7 1 style_at margin_at
              100 50 0 (1 # 2) ∅ r.1 r.2)
    as (_ & Hd & _).
  - apply generated_new.
  - vm_compute. reflexivity.
  - exact Hd.
Defined.

Lemma paintFrame_again_witness :
  let style_at := fun _ : nat => {| diameter := 20; duration := 200 |} in
  exists g1 d1,
    paintFrame 7 1 style_at 0 0 0 (1 # 2) ∅ = Ok (g1, d1)
    /\ paintFrame 7 1 style_at 5 6 0 (1 # 2) g1
       = Ok (g1, {| draw_left := 5; draw_top := 6;
                    source_x := source_x d1; source_part := source_part d1 |}).
Proof.
  intros style_at.
  pose (r := match paintFrame 7 1 style_at 0 0 0 (1 # 2) ∅ with
             | Ok r => r
             | Failed _ => (∅, {| draw_left := 0; draw_top := 0;
                                  source_x := 0; source_part := 0 |})
             end).
  exists r.1, r.2. split; [vm_compute; reflexivity|].
  apply (paintFrame_again 7 1 style_at 0 0 5 6 0 (1 # 2) ∅).
  - apply generated_new.
  - vm_compute. reflexivity.
Defined.

Lemma paintFrame_keeps_paintings_witness :
  let style_at := fun _ : nat => {| diameter := 20; duration := 200 |} in
  exists g1 d1 g2 d2,
    paintFrame 7 1 style_at 0 0 0 (1 # 2) ∅ = Ok (g1, d1)
    /\ paintFrame 7 1 style_at 0 0 1 1%Q g1 = Ok (g2, d2)
    /\ g2 !! 0%nat = g1 !! 0%nat.
Proof.
  intros style_at.
  pose (none := {| draw_left := 0; draw_top := 0;
                   source_x := 0; source_part := 0 |}).
  pose (r1 := match paintFrame 7 1 style_at 0 0 0 (1 # 2) ∅ with
              | Ok r => r
              | Failed _ => (∅, none)
              end).
  pose (r2 := match paintFrame 7 1 style_at 0 0 1 1%Q r1.1 with
              | Ok r => r
              | Failed _ => (∅, none)
              end).
  exists r1.1, r1.2, r2.1, r2.2.
  split; [vm_compute; reflexivity|].
  split; [vm_compute; reflexivity|].
  refine (proj1 (paintFrame_keeps_paintings 7 1 style_at 0 0 1 1%Q
                   r1.1 r2.1 r2.2 _) 0%nat _).
  - vm_compute. reflexivity.
  - discriminate.
Defined.

Lemma palette_change_repaints_witness :
  let style_at := fun _ : nat => {| diameter := 20; duration := 200 |} in
  exists g' d frames painting,
    paintFrame 7 1 style_at 0 0 0 1%Q (background_updated true ∅)
    = Ok (g', d)
    /\ g' = {[ 0%nat := frames ]}
    /\ strip_painted (image frames) = [(29 * 20, painting)].
Proof.
  intros style_at.
  pose (r := match paintFrame 7 1 style_at 0 0 0 1%Q
                     (background_updated true ∅) with
             | Ok r => r
             | Failed _ => (∅, {| draw_left := 0; draw_top := 0;
                                  source_x := 0; source_part := 0 |})
             end).
  destruct (palette_change_repaints 7 1 style_at 0 0 0 1%Q ∅ r.1 r.2)
    as (frames & painting & Hg & Hp & _).
  - vm_compute. reflexivity.
  - exists r.1, r.2, frames, painting.
    split; [vm_compute; reflexivity|]. split; [exact Hg | exact Hp].
Defined.

End CheckViewFacts.

Module PatternBuffer.
Import Contract Pattern PatternFacts.

Section LoopFrame.

Variable Shifted : Type.
Variable shifted_mul : Shifted -> Z -> Shifted.
Variable unshifted : Shifted -> Z.
Variable pattern : Shifted.

Local Abbreviation line_loop := (line_loop Shifted shifted_mul unshifted).
Local Abbreviation image_loop := (image_loop Shifted shifted_mul unshifted).

(** The words between the last pixel of a line and the first pixel of
    the next are left as they are. *)
Lemma image_loop_padding (w ipl : Z) (n : nat) : forall (b0 : list Z) (r : Z),
  0 <= r -> 0 <= w <= ipl ->
  4 * (r + Z.of_nat n * ipl) <= Z.of_nat (length b0) ->
  let c := image_loop pattern w 4 1 (4 * ipl - w * 4) (ipl - w * 1) n
             {| buffer := b0; maskBytes := 4 * r + 3; resultInts := r |} in
  forall i j, 0 <= i < Z.of_nat n -> 4 * w <= j < 4 * ipl ->
    buffer c !! Z.to_nat (4 * (r + i * ipl) + j)
    = b0 !! Z.to_nat (4 * (r + i * ipl) + j).
Proof.
  induction n as [|n IH]; intros b0 r Hr Hw Hlen; cbn zeta.
  - intros; lia.
  - cbn [Pattern.image_loop].
    assert (Hn : Z.of_nat (S n) * ipl = ipl + Z.of_nat n * ipl) by lia.
    assert (Hn0 : 0 <= Z.of_nat n * ipl) by nia.
    destruct (line_loop_spec Shifted shifted_mul unshifted pattern
                (Z.to_nat w) b0 r) as (Hm & Hri & [Hl1 Hun1] & _);
      [lia | lia |].
    set (c1 := line_loop pattern 4 1 (Z.to_nat w) _) in *.
    rewrite Hm, Hri, Z2Nat.id by lia.
    replace (4 * (r + w) + 3 + (4 * ipl - w * 4)) with (4 * (r + ipl) + 3) by lia.
    replace (r + w + (ipl - w * 1)) with (r + ipl) by lia.
    rewrite Z2Nat.id in Hun1 by lia.
    destruct (image_loop_spec Shifted shifted_mul unshifted pattern
                w ipl n (buffer c1) (r + ipl)) as ([_ Hun2] & _);
      [lia | lia | lia |].
    specialize (IH (buffer c1) (r + ipl) ltac:(lia) Hw ltac:(lia)).
    cbn zeta in IH.
    set (c2 := image_loop _ _ _ _ _ _ _ _) in *.
    intros i j Hi Hj.
    destruct (Z.eq_dec i 0) as [-> | Hi0].
    + rewrite Hun2 by lia. apply Hun1. lia.
    + assert (Hge : ipl <= i * ipl) by nia.
      replace (4 * (r + i * ipl) + j)
        with (4 * (r + ipl + (i - 1) * ipl) + j) by lia.
      rewrite IH by lia. apply Hun1. lia.
Qed.

(** With no pixels in a line the loops leave the buffer as it is. *)
Lemma image_loop_no_width (a b d e : Z) (n : nat) : forall c,
  buffer (image_loop pattern 0 a b d e n c) = buffer c.
Proof.
  induction n as [|n IH]; intros c; [reflexivity|].
  cbn [Pattern.image_loop]. change (Z.to_nat 0) with O.
  cbn [Pattern.line_loop]. rewrite IH. reflexivity.
Qed.

End LoopFrame.

Section BufferFacts.

Variable QColor : Type.
Variable Shifted : Type.
Variable shifted : QColor -> Shifted.
Variable shifted_mul : Shifted -> Z -> Shifted.
Variable unshifted : Shifted -> Z.
Variable convertToFormat : QImage -> Format -> QImage.

Local Abbreviation ColorizePattern :=
  (ColorizePattern QColor Shifted shifted shifted_mul unshifted convertToFormat).
Local Abbreviation premultiplied := (premultiplied convertToFormat).
Local Abbreviation colorized := (colorized QColor Shifted shifted shifted_mul unshifted).

Lemma assertions_only (image : QImage) (color : QColor) :
  succeeded (ColorizePattern image color)
  = succeeded (assertions (premultiplied image)).
Proof.
  rewrite ColorizePattern_unfold.
  destruct (assertions (premultiplied image)); reflexivity.
Qed.

Lemma succeeded_unit (r : Result unit) : succeeded r = true -> r = Ok tt.
Proof. destruct r as [[]|]; [reflexivity | discriminate]. Qed.

(** X7. On a buffer of whole lines the assertions of [ColorizePattern]
    pass exactly for the 32-bit images whose lines are a whole number of
    words and hold at least [width] pixels. *)
Theorem ColorizePattern_succeeds_iff (image : QImage) (color : QColor) :
  let im := premultiplied image in
  valid_buffer im ->
  succeeded (ColorizePattern image color) = true
  <-> depth im = 32 /\ bytesPerLine im mod 4 = 0
      /\ 4 * width im <= bytesPerLine im.
Proof.
  intros im Hv. rewrite assertions_only. fold im. split.
  - intros Hok. apply succeeded_unit in Hok.
    destruct (assertions_ok _ Hok) as (Hd & Hb & Hw).
    split; [exact Hd|]. split; [|lia].
    rewrite Hb, Z.mul_comm. apply Z.mod_mul. lia.
  - intros (Hd & Hm & Hw).
    rewrite (assertions_well_formed im); [reflexivity|].
    repeat split; try assumption; apply Hv.
Qed.

(** X8. [ColorizePattern] works in place on the buffer of the converted
    image: the geometry and the size of the buffer are kept, every pixel
    becomes the little-endian word computed from the color and from the
    alpha byte that pixel had, and the bytes of a line behind its last
    pixel are not written. *)
Theorem ColorizePattern_in_place (image : QImage) (color : QColor) :
  let im := premultiplied image in
  well_formed im ->
  exists r, ColorizePattern image color = Ok r
    /\ format r = format im /\ width r = width im /\ height r = height im
    /\ depth r = depth im /\ bytesPerLine r = bytesPerLine im
    /\ length (bits r) = length (bits im)
    /\ (forall x y, 0 <= x < width im -> 0 <= y < height im ->
          exists a, alpha_byte im x y = Some a
            /\ pixel_bytes r x y
               = [Some (byte_of 0 (colorized color a));
                  Some (byte_of 1 (colorized color a));
                  Some (byte_of 2 (colorized color a));
                  Some (byte_of 3 (colorized color a))])
    /\ (forall y j, 0 <= y < height im ->
          4 * width im <= j < bytesPerLine im ->
          bits r !! Z.to_nat (y * bytesPerLine im + j)
          = bits im !! Z.to_nat (y * bytesPerLine im + j)).
Proof.
  intros im Hwf.
  pose proof (assertions_well_formed im Hwf) as Hok.
  destruct Hwf as ((Hw0 & Hh0 & Hlen) & Hd & Hmod & Hwide).
  destruct (assertions_ok _ Hok) as (_ & Hb & Hw).
  destruct (ColorizePattern_pixels QColor Shifted shifted shifted_mul unshifted
              convertToFormat image color (conj Hw0 (conj Hh0 Hlen)) Hok)
    as (r & Hr & Hf & Hrw & Hrh & Hrd & Hrb & Hpix).
  fold im in Hf, Hrw, Hrh, Hrd, Hrb, Hpix.
  exists r. split; [exact Hr|]. repeat (split; [assumption|]).
  rewrite ColorizePattern_unfold in Hr. fold im in Hr. rewrite Hok in Hr.
  cbn [mbind Result_bind bind] in Hr. injection Hr as Hr.
  rewrite Hd in Hr. change (Z.shiftr 32 3) with 4 in Hr.
  change (4 - 1) with (4 * 0 + 3) in Hr.
  set (ipl := Z.shiftr (bytesPerLine im) 2) in *.
  replace (bytesPerLine im - width im * 4) with (4 * ipl - width im * 4)
    in Hr by lia.
  destruct (image_loop_spec Shifted shifted_mul unshifted (shifted color)
              (width im) ipl (Z.to_nat (height im)) (bits im) 0)
    as ([Hl _] & _); [lia | lia | nia |].
  pose proof (image_loop_padding Shifted shifted_mul unshifted (shifted color)
                (width im) ipl (Z.to_nat (height im)) (bits im) 0
                ltac:(lia) ltac:(lia) ltac:(nia)) as Hpad.
  cbn zeta in Hpad.
  set (c := Pattern.image_loop _ _ _ _ _ _ _ _ _ _ _) in *.
  assert (Hbits : bits r = buffer c) by (rewrite <- Hr; reflexivity).
  split; [rewrite Hbits; exact Hl|]. split.
  - intros x y Hx Hy.
    assert (Hin : (Z.to_nat (y * bytesPerLine im + 4 * x + 3)
                   < length (bits im))%nat) by nia.
    destruct (lookup_lt_is_Some_2 _ _ Hin) as [a Ha].
    exists a. split; [exact Ha|].
    unfold pixel_bytes. rewrite Hrb.
    assert (Hload : load8 (bits im) (y * bytesPerLine im + 4 * x + 3) = a).
    { unfold load8. rewrite Ha. reflexivity. }
    pose proof (Hpix x y 0 Hx Hy ltac:(lia)) as H0.
    pose proof (Hpix x y 1 Hx Hy ltac:(lia)) as H1.
    pose proof (Hpix x y 2 Hx Hy ltac:(lia)) as H2.
    pose proof (Hpix x y 3 Hx Hy ltac:(lia)) as H3.
    rewrite Hload in H0, H1, H2, H3.
    assert (Hnn : 0 <= y * bytesPerLine im + 4 * x) by nia.
    replace (Z.to_nat (y * bytesPerLine im + 4 * x + 0))
      with (Z.to_nat (y * bytesPerLine im + 4 * x)) in H0 by lia.
    replace (Z.to_nat (y * bytesPerLine im + 4 * x + 1))
      with (Z.to_nat (y * bytesPerLine im + 4 * x) + 1)%nat in H1 by lia.
    replace (Z.to_nat (y * bytesPerLine im + 4 * x + 2))
      with (Z.to_nat (y * bytesPerLine im + 4 * x) + 2)%nat in H2 by lia.
    replace (Z.to_nat (y * bytesPerLine im + 4 * x + 3))
      with (Z.to_nat (y * bytesPerLine im + 4 * x) + 3)%nat in H3 by lia.
    rewrite H0, H1, H2, H3. reflexivity.
  - intros y j Hy Hj. rewrite Hbits.
    specialize (Hpad y j ltac:(lia) ltac:(lia)).
    replace (4 * (0 + y * ipl) + j) with (y * bytesPerLine im + j)
      in Hpad by lia.
    exact Hpad.
Qed.

(** X9. An image without pixels that passes the assertions is returned
    as converted, its buffer as it was. *)
Theorem ColorizePattern_empty (image : QImage) (color : QColor) :
  let im := premultiplied image in
  width im = 0 \/ height im = 0 ->
  succeeded (ColorizePattern image color) = true ->
  ColorizePattern image color = Ok im.
Proof.
  intros im Hempty Hok. rewrite assertions_only in Hok.
  apply succeeded_unit in Hok. fold im in Hok.
  rewrite ColorizePattern_unfold. fold im. rewrite Hok.
  cbn [mbind Result_bind bind]. f_equal.
  assert (Hsame : forall b, b = bits im -> with_bits im b = im).
  { intros b ->. destruct im; reflexivity. }
  apply Hsame. destruct Hempty as [Hw | Hh].
  - rewrite Hw. apply image_loop_no_width.
  - rewrite Hh. reflexivity.
Qed.

End BufferFacts.

Lemma ColorizePattern_succeeds_iff_witness :
  let image := {| format := Format_ARGB32_Premultiplied; width := 1; height := 2;
                  depth := 32; bytesPerLine := 8;
                  bits := [1; 2; 3; 200; 7; 7; 7; 7;
                           4; 5; 6; 100; 8; 8; 8; 8] |} in
  succeeded (ColorizePattern Z Z (fun c => c) Z.mul (fun s => s) (fun i _ => i)
               image 65793) = true.
Proof.
  intros image.
  apply (ColorizePattern_succeeds_iff Z Z (fun c => c) Z.mul (fun s => s)
           (fun i _ => i) image 65793).
  - unfold valid_buffer. simpl. lia.
  - simpl. repeat split; try reflexivity. lia.
Defined.

Lemma ColorizePattern_in_place_witness :
  let image := {| format := Format_ARGB32_Premultiplied; width := 1; height := 2;
                  depth := 32; bytesPerLine := 8;
                  bits := [1; 2; 3; 200; 7; 7; 7; 7;
                           4; 5; 6; 100; 8; 8; 8; 8] |} in
  exists r,
    ColorizePattern Z Z (fun c => c) Z.mul (fun s => s) (fun i _ => i)
      image 65793 = Ok r
    /\ length (bits r) = 16%nat
    /\ bits r !! 4%nat = Some 7.
Proof.
  intros image.
  destruct (ColorizePattern_in_place Z Z (fun c => c) Z.mul (fun s => s)
              (fun i _ => i) image 65793)
    as (r & Hr & _ & _ & _ & _ & _ & Hlen & _ & Hpad).
  - unfold well_formed, valid_buffer. simpl. repeat split; try reflexivity; lia.
  - exists r. split; [exact Hr|]. split; [exact Hlen|].
    apply (Hpad 0 4); simpl; lia.
Defined.

Lemma ColorizePattern_empty_witness :
  let image := {| format := Format_ARGB32_Premultiplied; width := 0; height := 3;
                  depth := 32; bytesPerLine := 4;
                  bits := [1; 2; 3; 4; 5; 6; 7; 8; 9; 10; 11; 12] |} in
  ColorizePattern Z Z (fun c => c) Z.mul (fun s => s) (fun i _ => i)
    image 65793 = Ok image.
Proof.
  intros image.
  apply (ColorizePattern_empty Z Z (fun c => c) Z.mul (fun s => s)
           (fun i _ => i) image 65793).
  - left. reflexivity.
  - reflexivity.
Defined.

End PatternBuffer.

Module LifetimeFacts.
Import Contract Preview PreviewFacts GuardFacts Lifetime.

Section Traces.
Context `{Host}.

Lemma blur_variant_refl p : blur_variant p p.
Proof. by exists []. Qed.

Lemma blur_variant_trans p1 p2 p3 :
  blur_variant p1 p2 -> blur_variant p2 p3 -> blur_variant p1 p3.
Proof.
  intros [bs ->] [bs' ->]. exists (bs ++ bs'). by rewrite fold_left_app.
Qed.

Lemma blur_variant_step p v : blur_variant p (withBlurred p v).
Proof. by exists [v]. Qed.

Lemma blur_variant_document p p' :
  blur_variant p p' -> document p' = document p.
Proof.
  intros [bs ->]. revert p. induction bs as [|v bs IH]; intros p; simpl.
  - reflexivity.
  - rewrite IH. apply withBlurred_document.
Qed.

Lemma tame_refl b : tame b b.
Proof. repeat split; auto. apply blur_variant_refl. Qed.


Lemma tame_trans b1 b2 b3 : tame b1 b2 -> tame b2 b3 -> tame b1 b3.
Proof.
  intros (Hg & Hf & Hp & Hs & Hb & Hk) (Hg' & Hf' & Hp' & Hs' & Hb' & Hk').
  repeat split; try congruence; auto.
  - eapply blur_variant_trans; eassumption.
  - intros Hno. rewrite Hk', Hk; congruence.
Qed.

Local Ltac tame_by_cases :=
  unfold tame, has_blur; cbn;
  repeat case_match; cbn in *; simplify_eq;
  repeat split; auto using blur_variant_refl, blur_variant_step;
  try congruence; try (intros; eauto; fail).

Lemma updateServiceBg_tame bg b : tame b (updateServiceBg bg b).
Proof. unfold updateServiceBg. tame_by_cases. Qed.

Lemma startFadeInFrom_tame p b : tame b (startFadeInFrom p b).
Proof. unfold startFadeInFrom. tame_by_cases. Qed.

Lemma checkBlurAnimationStart_tame b : tame b (checkBlurAnimationStart b).
Proof. unfold checkBlurAnimationStart, startFadeInFrom. tame_by_cases. Qed.

Lemma setScaledFromImage_tame i bl b : tame b (setScaledFromImage i bl b).
Proof.
  unfold setScaledFromImage, updateServiceBg, startFadeInFrom.
  tame_by_cases.
Qed.

Lemma setScaledFromThumb_tame o b : tame b (setScaledFromThumb o b).2.
Proof.
  unfold setScaledFromThumb.
  repeat case_match; cbn [snd]; try apply tame_refl.
  all: apply setScaledFromImage_tame.
Qed.

Lemma with_effects_nil w : with_effects [] w = w.
Proof. destruct w. unfold with_effects. cbn. by rewrite app_nil_r. Qed.

Lemma set_box_same w : set_box (box w) w = w.
Proof. by destruct w. Qed.

Lemma redrawn_refl w : redrawn [] w w.
Proof.
  exists (box w). split; [apply tame_refl|]. left.
  by rewrite set_box_same, with_effects_nil.
Qed.

Lemma redrawn_box es f w :
  tame (box w) (f (box w)) -> redrawn es w (with_effects es (on_box f w)).
Proof. intros Ht. exists (f (box w)). split; [exact Ht|]. by left. Qed.

(** A tame change of the box before a redraw is part of the redraw. *)
Lemma redrawn_after es b w w' :
  tame (box w) b -> redrawn es (set_box b w) w' -> redrawn es w w'.
Proof.
  intros Ht (b' & Ht' & Hw). exists b'. split.
  - eapply tame_trans; [exact Ht | exact Ht'].
  - exact Hw.
Qed.

Lemma step_radial_redrawn ms timer w w' :
  step_radial ms timer w = Ok w' ->
  exists es, redrawn es w w'
    /\ (es = [] \/ timer = true /\ es = [UpdateRadialRect]).
Proof.
  unfold step_radial.
  destruct (document (_paper (box w))) as [d|]; [|discriminate].
  destruct (radial_update _ _ _ _) as [radial updated].
  match goal with
  | |- context [if ?c then emit _ _ else _] => destruct c eqn:Hc
  end; intros [= <-].
  - exists [UpdateRadialRect]. split.
    + exists (set_radial radial (box w)).
      split; [tame_by_cases|]. right. reflexivity.
    + right. split; [|reflexivity].
      destruct timer; [reflexivity | discriminate].
  - exists []. split; [|by left].
    exists (set_radial radial (box w)).
    split; [tame_by_cases|]. right. by rewrite with_effects_nil.
Qed.

Lemma paintImage_box ms w w' ops :
  paintImage ms w = Ok (w', ops) ->
  exists b, tame (box w) b /\ w' = set_box b w.
Proof.
  unfold paintImage.
  destruct (check _ _); cbn [mbind Result_bind bind]; [|discriminate].
  destruct (animation_current _ _ _) as [fadeIn fade].
  intros [= <- _]. eexists. split; [|reflexivity].
  eapply tame_trans; [|apply checkBlurAnimationStart_tame].
  tame_by_cases.
Qed.

Lemma paintRadial_redrawn ms w w' ops :
  paintRadial ms w = Ok (w', ops) -> redrawn [] w w'.
Proof.
  unfold paintRadial.
  destruct (radial_animating (_radial (box w))).
  - destruct (step_radial ms false w) as [w1|] eqn:Hstep;
      cbn [mbind Result_bind bind]; [|discriminate].
    apply step_radial_redrawn in Hstep as (es & Hr & [-> | [? _]]);
      [|discriminate].
    destruct (negb _); intros [= <- _]; exact Hr.
  - cbn [mbind Result_bind bind negb]. intros [= <- _]. apply redrawn_refl.
Qed.

Lemma paintEvent_redrawn ms w w' ops :
  paintEvent ms w = Ok (w', ops) -> redrawn [] w w'.
Proof.
  unfold paintEvent.
  destruct (negb (bool_decide (is_Some (backgroundColor (_paper (box w)))))
            || isPattern (_paper (box w)));
    [|intros [= <- _]; apply redrawn_refl].
  destruct (negb (pixmap_isNull (_scaled (box w)))).
  - destruct (paintImage ms w) as [[w1 im]|] eqn:Him;
      cbn [mbind Result_bind bind]; [|discriminate].
    destruct (paintRadial ms w1) as [[w2 rd]|] eqn:Hrd;
      cbn [mbind Result_bind bind]; [|discriminate].
    intros [= <- _].
    apply paintImage_box in Him as (b & Ht & ->).
    apply paintRadial_redrawn in Hrd.
    eapply redrawn_after; eassumption.
  - pose proof (setScaledFromThumb_tame (outside w) (box w)) as Ht.
    destruct (setScaledFromThumb (outside w) (box w)) as [done b].
    cbn [snd] in Ht. destruct done.
    + destruct (paintImage ms (set_box b w)) as [[w1 im]|] eqn:Him;
        cbn [mbind Result_bind bind]; [|discriminate].
      destruct (paintRadial ms w1) as [[w2 rd]|] eqn:Hrd;
        cbn [mbind Result_bind bind]; [|discriminate].
      intros [= <- _].
      apply paintImage_box in Him as (b1 & Ht1 & ->).
      apply paintRadial_redrawn in Hrd.
      cbn [box set_box] in Ht1.
      eapply redrawn_after; [exact Ht|].
      eapply redrawn_after; [exact Ht1|].
      exact Hrd.
    + destruct (negb (bool_decide _)).
      * intros [= <- _]. eapply redrawn_after; [exact Ht|]. apply redrawn_refl.
      * destruct (paintRadial ms (set_box b w)) as [[w2 rd]|] eqn:Hrd;
          cbn [mbind Result_bind bind]; [|discriminate].
        intros [= <- _]. apply paintRadial_redrawn in Hrd.
        eapply redrawn_after; eassumption.
Qed.

(** What an event does to the world, by cases. *)
Lemma deliver_cases e w w' :
  deliver e w = Ok w' ->
  (exists i t, e = MainThread i /\ pending w !! i = Some t
     /\ w' = run_task t (set_pending (delete i (pending w)) w))
  \/ w' = w
  \/ (destroyed w = false
      /\ ((exists es, redrawn es w w' /\ forallb repaint_request es = true
             /\ ((exists ms, e = Paint ms) -> es = []))
          \/ (e = ButtonClicked DoApply /\ w' = apply w)
          \/ (e = ButtonClicked DoCloseBox /\ w' = closeBox w)
          \/ (e = ButtonClicked DoShare /\ w' = share w)
          \/ (exists o, e = OutsideChanged o /\ w' = set_outside o w)
          \/ (e = Destroyed /\ w' = destructor w))).
Proof.
  destruct e; cbn [deliver];
    try (destruct (destroyed w) eqn:Hd; [intros [= <-]; by right; left|]).
  - (* Paint *)
    destruct (paintEvent ms w) as [[w1 ops]|] eqn:Hp;
      cbn [mbind Result_bind bind]; [|discriminate].
    intros [= <-]. apply paintEvent_redrawn in Hp.
    right. right. split; [reflexivity|]. left.
    exists []. repeat split; auto.
  - (* RadialTimer *)
    destruct (radial_animating _); [|intros [= <-]; by right; left].
    intros Hs. apply step_radial_redrawn in Hs as (es & Hr & Hes).
    right. right. split; [reflexivity|]. left. exists es.
    split; [exact Hr|]. split.
    + destruct Hes as [-> | [_ ->]]; reflexivity.
    + intros [? [=]].
  - (* FadeInTimer *)
    destruct (animating _); [|intros [= <-]; by right; left].
    intros [= <-]. right. right. split; [reflexivity|]. left.
    exists [Update]. split; [|split; [reflexivity | intros [? [=]]]].
    apply (redrawn_box [Update]
             (fun b => set_fade (_fadeOutThumbnail b)
                         (animation_step ms (_fadeIn b)) b)).
    tame_by_cases.
  - (* BlurClicked *)
    destruct (_blur (box w)) as [c|] eqn:Hb; [|intros [= <-]; by right; left].
    destruct (disabled c); intros [= <-]; [by right; left|].
    right. right. split; [reflexivity|]. left.
    exists [Update]. split; [|split; [reflexivity | intros [? [=]]]].
    unfold blur_changed.
    eexists. split; [|left; reflexivity].
    cbn [box on_box set_box].
    eapply tame_trans; [|apply checkBlurAnimationStart_tame].
    unfold tame, has_blur; cbn. rewrite Hb.
    repeat split; auto using blur_variant_refl.
  - (* ButtonClicked *)
    destruct (has_button a (box w)); [|intros [= <-]; by right; left].
    intros Hw. right. right. split; [reflexivity|].
    destruct a; injection Hw as <-; auto 10.
  - (* DownloaderTaskFinished *)
    intros [= <-]. right. right. split; [reflexivity|]. left.
    exists [Update]. split; [|split; [reflexivity | intros [? [=]]]].
    exists (box w). split; [apply tame_refl|]. left.
    by rewrite set_box_same.
  - (* OutsideChanged *)
    intros [= <-]. right. right. split; [reflexivity|].
    right. right. right. right. left. eauto.
  - (* MainThread *)
    destruct (pending w !! i) as [t|] eqn:Hp; intros [= <-].
    + left. eauto.
    + by right; left.
  - (* Destroyed *)
    intros [= <-]. right. right. split; [reflexivity|].
    right. right. right. right. right. auto.
Qed.

(** [checkLoadedDocument] does nothing, or starts a read with a new pair
    of guard ends while the end the box holds is dead. *)
Lemma checkLoadedDocument_cases w :
  checkLoadedDocument w = w
  \/ (alive (_generating (box w)) (guards w) = false
      /\ exists image,
           checkLoadedDocument w
           = assign_generating (Some (length (guards w)))
               (set_pending
                  (pending w ++ [ReadDone (Some (length (guards w))) image])
                  (set_guards (guards w ++ [true]) w))).
Proof.
  unfold checkLoadedDocument.
  destruct (document (_paper (box w))) as [d|]; [|by left].
  destruct (negb (image_isNull (_full (box w)))); [by left|].
  destruct (negb (loaded (documents (outside w) d))); [by left|].
  destruct (alive (_generating (box w)) (guards w)) eqn:Ha; [by left|].
  right. split; [reflexivity|]. cbn. eauto.
Qed.

(** What a run of [checkLoadedDocument] leaves alone. *)
Lemma checkLoadedDocument_frame w :
  effects (checkLoadedDocument w) = effects w
  /\ outside (checkLoadedDocument w) = outside w
  /\ destroyed (checkLoadedDocument w) = destroyed w
  /\ _paper (box (checkLoadedDocument w)) = _paper (box w)
  /\ _full (box (checkLoadedDocument w)) = _full (box w)
  /\ _serviceBg (box (checkLoadedDocument w)) = _serviceBg (box w)
  /\ pending w `prefix_of` pending (checkLoadedDocument w).
Proof.
  destruct (checkLoadedDocument_cases w) as [-> | (_ & image & ->)].
  - repeat split; reflexivity.
  - cbn. repeat split; try reflexivity. by apply prefix_app_r.
Qed.

Lemma redrawn_frame es w w' :
  redrawn es w w' ->
  effects w' = effects w ++ es
  /\ outside w' = outside w
  /\ destroyed w' = destroyed w
  /\ blur_variant (_paper (box w)) (_paper (box w'))
  /\ _full (box w') = _full (box w)
  /\ (is_Some (_serviceBg (box w)) -> is_Some (_serviceBg (box w')))
  /\ pending w `prefix_of` pending w'.
Proof.
  intros (b & (Hg & Hf & Hp & Hs & _) & [-> | ->]).
  - cbn. repeat split; auto.
  - destruct (checkLoadedDocument_frame (with_effects es (set_box b w)))
      as (-> & -> & -> & -> & -> & -> & Hpre).
    cbn in *. repeat split; auto.
Qed.

(** What a completion does to the box and to the effects. *)
Lemma run_task_frame t w :
  let w' := run_task t w in
  outside w' = outside w
  /\ destroyed w' = destroyed w
  /\ _paper (box w') = _paper (box w)
  /\ (is_Some (_serviceBg (box w)) -> is_Some (_serviceBg (box w')))
  /\ (alive (task_guard t) (guards w) = false ->
      box w' = box w /\ effects w' = effects w /\ pending w' = pending w
      /\ guards w' = destroy (task_guard t) (guards w))
  /\ (effects w' = effects w \/ effects w' = effects w ++ [Update]).
Proof.
  destruct t as [g image | g image scaled blurred]; cbn [run_task task_guard].
  - destruct (alive g (guards w)) eqn:Ha.
    + cbn. repeat split; auto; try discriminate.
    + cbn. repeat split; auto.
  - unfold decode_done. destruct (alive g (guards w)) eqn:Ha; cbn [negb].
    + destruct (setScaledFromImage_tame scaled blurred
                  (set_full image (box w))) as (_ & _ & [bs Hp] & Hs & _).
      cbn [set_guards box outside destroyed effects emit on_box set_box].
      assert (Hpaper : _paper (setScaledFromImage scaled blurred
                                 (set_full image (box w))) = _paper (box w)).
      { unfold setScaledFromImage, updateServiceBg, startFadeInFrom. cbn.
        repeat case_match; reflexivity. }
      repeat split; auto; try discriminate.
    + cbn. repeat split; auto.
Qed.

Local Ltac in_list :=
  match goal with
  | Hin : _ ∈ _ |- _ =>
      apply list_elem_of_In in Hin; simpl in Hin;
      intuition (simplify_eq; auto)
  end.

(** X10. What an event adds to what the box has done to the application:
    painting adds nothing; everything but a click on a button adds
    requests to repaint only; the chat background is set by a click on
    the apply button only, to the paper and the full image the box holds,
    and nothing ever opens another box or requests a wallpaper. *)
Theorem events_and_effects (e : Event) (w w' : World) :
  deliver e w = Ok w' ->
  exists es,
    effects w' = effects w ++ es
    /\ ((exists ms, e = Paint ms) -> es = [])
    /\ ((forall a, e <> ButtonClicked a) ->
        forallb repaint_request es = true)
    /\ (forall p image, SetChatBackground p image ∈ es ->
          e = ButtonClicked DoApply
          /\ p = _paper (box w) /\ image = _full (box w))
    /\ (forall x, x ∈ es ->
          match x with
          | ShowPreviewBox _ | ShowInformBox _ | RequestWallPaper _ _ => False
          | _ => True
          end).
Proof.
  intros Hd.
  assert (Hrepaint : forall es,
            forallb repaint_request es = true ->
            (forall p image, SetChatBackground p image ∈ es -> False)
            /\ (forall x, x ∈ es ->
                  match x with
                  | ShowPreviewBox _ | ShowInformBox _
                  | RequestWallPaper _ _ => False
                  | _ => True
                  end)).
  { intros es Hes. rewrite forallb_forall in Hes. split.
    - intros p image Hin. apply list_elem_of_In, Hes in Hin. discriminate.
    - intros x Hin. apply list_elem_of_In, Hes in Hin.
      destruct x; try discriminate; exact I. }
  assert (Hnone : forall l : list Effect, l = effects w ->
            exists es,
              l = effects w ++ es
              /\ ((exists ms, e = Paint ms) -> es = [])
              /\ ((forall a, e <> ButtonClicked a) ->
                  forallb repaint_request es = true)
              /\ (forall p image, SetChatBackground p image ∈ es ->
                    e = ButtonClicked DoApply
                    /\ p = _paper (box w) /\ image = _full (box w))
              /\ (forall x, x ∈ es ->
                    match x with
                    | ShowPreviewBox _ | ShowInformBox _
                    | RequestWallPaper _ _ => False
                    | _ => True
                    end)).
  { intros l ->. exists []. rewrite app_nil_r.
    split; [reflexivity|]. split; [reflexivity|]. split; [reflexivity|].
    split; intros; by apply elem_of_nil in H1. }
  destruct (deliver_cases e w w' Hd)
    as [(i & t & -> & Ht & ->)
       | [-> | (Hlive & [(es & Hr & Hes & Hpaint)
                        | [(-> & ->) | [(-> & ->) | [(-> & ->)
                        | [(o & -> & ->) | (-> & ->)]]]]])]].
  - destruct (run_task_frame t (set_pending (delete i (pending w)) w))
      as (_ & _ & _ & _ & _ & [He | He]); cbn [effects set_pending] in He.
    + apply Hnone. exact He.
    + exists [Update]. destruct (Hrepaint [Update] eq_refl) as [H1 H2].
      split; [exact He|]. split; [intros [? [=]]|].
      split; [reflexivity|]. split; [|exact H2].
      intros p image Hin. destruct (H1 p image Hin).
  - apply Hnone. reflexivity.
  - destruct (redrawn_frame es w w' Hr) as (He & _).
    destruct (Hrepaint es Hes) as [H1 H2].
    exists es. split; [exact He|]. split; [exact Hpaint|].
    split; [auto|]. split; [|exact H2].
    intros p image Hin. destruct (H1 p image Hin).
  - unfold apply, closeBox.
    destruct (negb (paper_id (_paper (box w)) =? background_id (outside w))
              && IsCloudWallPaper (_paper (box w))).
    + exists [SetChatBackground (_paper (box w)) (_full (box w));
              SendInstallWallPaper (_paper (box w)); CloseBox].
      cbn. rewrite <- !app_assoc. split; [reflexivity|].
      split; [intros [? [=]]|]. split; [intros Hno; by destruct (Hno DoApply)|].
      split; intros; in_list.
    + exists [SetChatBackground (_paper (box w)) (_full (box w)); CloseBox].
      cbn. rewrite <- !app_assoc. split; [reflexivity|].
      split; [intros [? [=]]|]. split; [intros Hno; by destruct (Hno DoApply)|].
      split; intros; in_list.
  - exists [CloseBox]. cbn. split; [reflexivity|].
    split; [intros [? [=]]|].
    split; [intros Hno; by destruct (Hno DoCloseBox)|].
    split; intros; in_list.
  - exists [ClipboardSetText (shareUrl (_paper (box w)));
            ToastShow lng_background_link_copied].
    cbn. rewrite <- !app_assoc. split; [reflexivity|].
    split; [intros [? [=]]|].
    split; [intros Hno; by destruct (Hno DoShare)|].
    split; intros; in_list.
  - apply Hnone. reflexivity.
  - apply Hnone. reflexivity.
Qed.

(** X11. Once the box is destroyed nothing reaches it: every event,
    the completions still on their way included, leaves the box, the
    effects and the state outside as they are, and no completion has a
    live guard. *)
Theorem destroyed_box_is_inert (paper : WallPaper) (e : Event) (w : World) :
  reachable paper w -> destroyed w = true ->
  exists w',
    deliver e w = Ok w'
    /\ box w' = box w /\ effects w' = effects w /\ outside w' = outside w
    /\ destroyed w' = true
    /\ forall t, t ∈ pending w' -> alive (task_guard t) (guards w') = false.
Proof.
  intros Hr Hd.
  pose proof (live_completion_is_current paper w Hr) as Hcur.
  assert (Hdead : forall t, t ∈ pending w ->
                    alive (task_guard t) (guards w) = false).
  { intros t Hin. destruct (alive (task_guard t) (guards w)) eqn:Ha; auto.
    destruct (Hcur t Hin Ha) as [_ Hlive]. congruence. }
  assert (Hsame : exists w', Ok w = Ok w'
            /\ box w' = box w /\ effects w' = effects w
            /\ outside w' = outside w /\ destroyed w' = true
            /\ forall t, t ∈ pending w' ->
                 alive (task_guard t) (guards w') = false).
  { exists w. repeat split; auto. }
  destruct e; cbn [deliver]; rewrite ?Hd; try exact Hsame.
  destruct (pending w !! i) as [t|] eqn:Hi; [|exact Hsame].
  eexists. split; [reflexivity|].
  assert (Hin : t ∈ pending w) by (eapply list_elem_of_lookup_2; eassumption).
  destruct (run_task_frame t (set_pending (delete i (pending w)) w))
    as (Ho & Hds & _ & _ & Hquiet & _).
  destruct (Hquiet (Hdead t Hin)) as (Hb & He & Hp & Hg).
  cbn [set_pending box effects outside destroyed pending guards] in *.
  rewrite Hb, He, Ho, Hds, Hp, Hg. repeat split; auto.
  intros t' Hin'.
  destruct (alive (task_guard t') (destroy (task_guard t) (guards w)))
    eqn:Ha; auto.
  apply alive_destroy in Ha as [Ha _].
  apply list_elem_of_delete_inv in Hin'. rewrite Hdead in Ha; auto.
Qed.

Lemma cells_resize w w' :
  pending w' = pending w -> (length (guards w) <= length (guards w'))%nat ->
  cells_allocated w -> cells_allocated w'.
Proof.
  intros Hp Hl [Hnd Hc]. unfold cells_allocated. rewrite Hp.
  split; [exact Hnd|]. intros t Hin.
  destruct (Hc t Hin) as (c & Hg & Hlt). exists c. split; [exact Hg | lia].
Qed.

Lemma cells_start w w' t :
  pending w' = pending w ++ [t] ->
  task_guard t = Some (length (guards w)) ->
  (length (guards w) < length (guards w'))%nat ->
  cells_allocated w -> cells_allocated w'.
Proof.
  intros Hp Ht Hl [Hnd Hc]. unfold cells_allocated. rewrite Hp. split.
  - rewrite map_app. apply NoDup_app. split; [exact Hnd|]. split.
    + intros g Hin Hin'. cbn in Hin'. apply list_elem_of_singleton in Hin'.
      apply list_elem_of_fmap in Hin as (t0 & -> & Hin0).
      destruct (Hc t0 Hin0) as (c & Hg & Hlt).
      rewrite Hin', Ht in Hg. injection Hg as <-. lia.
    + cbn. apply NoDup_singleton.
  - intros t0 Hin. apply elem_of_app in Hin as [Hin | Hin].
    + destruct (Hc t0 Hin) as (c & Hg & Hlt). exists c. split; [exact Hg | lia].
    + apply list_elem_of_singleton in Hin as ->.
      exists (length (guards w)). split; [exact Ht | exact Hl].
Qed.

Lemma destroy_length g flags : length (destroy g flags) = length flags.
Proof. destruct g; cbn; [apply length_insert | reflexivity]. Qed.

Lemma checkLoadedDocument_cells w :
  cells_allocated w -> cells_allocated (checkLoadedDocument w).
Proof.
  intros Hc. destruct (checkLoadedDocument_cases w) as [-> | (_ & image & ->)];
    [exact Hc|].
  eapply (cells_start w); [| |  | exact Hc].
  - reflexivity.
  - reflexivity.
  - cbn. rewrite destroy_length, length_app. cbn. lia.
Qed.

Lemma redrawn_cells es w w' :
  redrawn es w w' -> cells_allocated w -> cells_allocated w'.
Proof.
  intros (b & _ & [-> | ->]) Hc.
  - eapply cells_resize; [| |exact Hc]; reflexivity.
  - apply checkLoadedDocument_cells.
    eapply cells_resize; [| |exact Hc]; reflexivity.
Qed.

Lemma run_task_cells i t w :
  pending w !! i = Some t -> cells_allocated w ->
  cells_allocated (run_task t (set_pending (delete i (pending w)) w)).
Proof.
  intros Hi [Hnd Hc].
  assert (Hc0 : cells_allocated (set_pending (delete i (pending w)) w)).
  { split; cbn.
    - rewrite <- (take_drop_middle _ _ _ Hi) in Hnd.
      rewrite delete_take_drop.
      rewrite map_app in *. cbn in Hnd.
      apply NoDup_app in Hnd as (H1 & H2 & H3).
      apply NoDup_cons in H3 as [H3 H4].
      apply NoDup_app. repeat split; auto.
      intros g Hin Hin'. apply (H2 g Hin). by right.
    - intros t0 Hin. apply list_elem_of_delete_inv in Hin. auto. }
  set (w0 := set_pending (delete i (pending w)) w) in *.
  destruct t as [g image | g image scaled blurred]; cbn [run_task].
  - destruct (alive g (guards w0)).
    + eapply (cells_start w0); [| | |exact Hc0].
      * reflexivity.
      * reflexivity.
      * cbn. rewrite !destroy_length, length_app. cbn. lia.
    + eapply cells_resize; [| |exact Hc0]; [reflexivity|].
      cbn. by rewrite destroy_length.
  - unfold decode_done. destruct (alive g (guards w0)); cbn [negb].
    + eapply cells_resize; [| |exact Hc0]; [reflexivity|].
      cbn. by rewrite destroy_length.
    + eapply cells_resize; [| |exact Hc0]; [reflexivity|].
      cbn. by rewrite destroy_length.
Qed.

Lemma deliver_cells e w w' :
  deliver e w = Ok w' -> cells_allocated w -> cells_allocated w'.
Proof.
  intros Hd Hc.
  destruct (deliver_cases e w w' Hd)
    as [(i & t & -> & Ht & ->)
       | [-> | (Hlive & [(es & Hr & _)
                        | [(-> & ->) | [(-> & ->) | [(-> & ->)
                        | [(o & -> & ->) | (-> & ->)]]]]])]].
  - by apply run_task_cells.
  - exact Hc.
  - eapply redrawn_cells; eassumption.
  - eapply cells_resize; [| |exact Hc];
      unfold apply, closeBox; by destruct (_ && _).
  - eapply cells_resize; [| |exact Hc]; reflexivity.
  - eapply cells_resize; [| |exact Hc]; reflexivity.
  - eapply cells_resize; [| |exact Hc]; reflexivity.
  - eapply cells_resize; [| |exact Hc]; [reflexivity|].
    cbn. by rewrite destroy_length.
Qed.

Lemma prepare_images_pending w :
  pending w = [] -> cells_allocated (prepare_images w).
Proof.
  intros Hp. unfold prepare_images.
  eapply cells_resize; [reflexivity | reflexivity |].
  apply checkLoadedDocument_cells.
  split; cbn; rewrite Hp; [constructor|].
  intros t Hin. by apply elem_of_nil in Hin.
Qed.

Lemma reachable_cells paper w : reachable paper w -> cells_allocated w.
Proof.
  induction 1 as [o | w e w' _ IH Hd].
  - rewrite prepare_split. apply prepare_images_pending. reflexivity.
  - eapply deliver_cells; eassumption.
Qed.

(** X12. At most one completion on its way has a live guard, and it
    holds the pair of the end the box holds: two reads or decodes never
    both reach the box. *)
Theorem one_live_completion
    (paper : WallPaper) (w : World) (i j : nat) (t t' : MainTask) :
  reachable paper w ->
  pending w !! i = Some t -> pending w !! j = Some t' ->
  alive (task_guard t) (guards w) = true ->
  alive (task_guard t') (guards w) = true ->
  i = j /\ task_guard t = _generating (box w).
Proof.
  intros Hr Hi Hj Ha Ha'.
  pose proof (live_completion_is_current paper w Hr) as Hcur.
  destruct (reachable_cells paper w Hr) as [Hnd _].
  destruct (Hcur t (list_elem_of_lookup_2 _ _ _ Hi) Ha) as [Hg _].
  destruct (Hcur t' (list_elem_of_lookup_2 _ _ _ Hj) Ha') as [Hg' _].
  split; [|exact Hg].
  eapply NoDup_lookup; [exact Hnd | |].
  - rewrite list_lookup_fmap, Hi. reflexivity.
  - rewrite list_lookup_fmap, Hj. cbn. congruence.
Qed.

Lemma prepare_images_frame w :
  effects (prepare_images w) = effects w
  /\ blur_variant (_paper (box w)) (_paper (box (prepare_images w)))
  /\ (is_Some (_serviceBg (box w)) ->
      is_Some (_serviceBg (box (prepare_images w)))).
Proof.
  unfold prepare_images.
  set (w1 := on_box (fun b => (setScaledFromThumb (outside w) b).2) w).
  destruct (checkLoadedDocument_frame w1) as (He & _ & _ & Hp & _ & Hs & _).
  destruct (setScaledFromThumb_tame (outside w) (box w)) as (_ & _ & Hv & Hbg & _).
  cbn [on_box set_box box effects set_chrome _paper _serviceBg].
  rewrite He, Hp, Hs. cbn. auto.
Qed.

Lemma prepare_widgets_frame w :
  effects (prepare_widgets w) = effects w
  /\ (is_Some (backgroundColor (_paper (box w))) ->
      is_Some (_serviceBg (box (prepare_widgets w)))).
Proof.
  unfold prepare_widgets, updateServiceBg, createBlurCheckbox.
  split; [reflexivity|]. intros [c Hc]. rewrite Hc.
  destruct (_ && _); cbn; eauto.
Qed.

(** X13. The paper of the box is the paper it was made for, up to
    [withBlurred]: it has the same document, and the papers the box sets
    as chat background or installs are such variants. *)
Theorem paper_stays_a_variant (paper : WallPaper) (w : World) :
  reachable paper w ->
  blur_variant paper (_paper (box w))
  /\ document (_paper (box w)) = document paper
  /\ forall p,
       (exists image, SetChatBackground p image ∈ effects w)
       \/ SendInstallWallPaper p ∈ effects w ->
       blur_variant paper p.
Proof.
  intros Hr.
  assert (Hinv : blur_variant paper (_paper (box w))
                 /\ forall p,
                      (exists image, SetChatBackground p image ∈ effects w)
                      \/ SendInstallWallPaper p ∈ effects w ->
                      blur_variant paper p).
  { induction Hr as [o | w e w' _ [IHp IHe] Hd].
    - rewrite prepare_split.
      destruct (prepare_images_frame (prepare_widgets (new_world paper o)))
        as (-> & Hv & _).
      destruct (prepare_widgets_box (new_world paper o)) as (Hp & _).
      cbn zeta in Hp. rewrite Hp in Hv. split; [exact Hv|].
      destruct (prepare_widgets_frame (new_world paper o)) as [-> _].
      cbn. intros p [[image Hin] | Hin]; by apply elem_of_nil in Hin.
    - set (harmless := fun x : Effect =>
               match x with
               | SetChatBackground _ _ | SendInstallWallPaper _ => False
               | _ => True
               end).
      assert (Hold : forall es,
                effects w' = effects w ++ es ->
                Forall harmless es ->
                forall p,
                  (exists image, SetChatBackground p image ∈ effects w')
                  \/ SendInstallWallPaper p ∈ effects w' ->
                  blur_variant paper p).
      { intros es -> Hes p Hin. rewrite Forall_forall in Hes.
        apply IHe. destruct Hin as [[image Hin] | Hin];
          apply elem_of_app in Hin as [Hin | Hin]; eauto;
          destruct (Hes _ Hin). }
      assert (Hrepaint : forall es, forallb repaint_request es = true ->
                Forall harmless es).
      { intros es Hes. rewrite forallb_forall in Hes.
        apply Forall_forall. intros x Hin.
        apply list_elem_of_In, Hes in Hin.
        destruct x; try discriminate; exact I. }
      destruct (deliver_cases e w w' Hd)
        as [(i & t & -> & Ht & ->)
           | [-> | (Hlive & [(es & Hrd & Hes & _)
                            | [(-> & ->) | [(-> & ->) | [(-> & ->)
                            | [(o & -> & ->) | (-> & ->)]]]]])]].
      + destruct (run_task_frame t (set_pending (delete i (pending w)) w))
          as (_ & _ & Hp & _ & _ & He); cbn [set_pending box effects] in *.
        rewrite Hp. split; [exact IHp|].
        destruct He as [He | He].
        * apply (Hold []); [by rewrite app_nil_r | constructor].
        * apply (Hold [Update]); [exact He | by repeat constructor].
      + auto.
      + destruct (redrawn_frame es w w' Hrd) as (He & _ & _ & Hv & _).
        split; [eapply blur_variant_trans; eassumption|].
        apply (Hold es); auto.
      + split.
        * unfold apply, closeBox. by destruct (_ && _).
        * intros p Hin.
          assert (Hp : p = _paper (box w)
                       \/ ((exists image, SetChatBackground p image ∈ effects w)
                            \/ SendInstallWallPaper p ∈ effects w)).
          { unfold apply, closeBox in Hin.
            destruct (_ && _); cbn in Hin;
              destruct Hin as [[image Hin] | Hin];
              repeat (apply elem_of_app in Hin as [Hin | Hin]);
              eauto; apply list_elem_of_singleton in Hin; simplify_eq; auto. }
          destruct Hp as [-> | Hp]; auto.
      + split; [exact IHp|].
        apply (Hold [CloseBox]); [reflexivity | by repeat constructor].
      + split; [exact IHp|].
        apply (Hold [ClipboardSetText (shareUrl (_paper (box w)));
                     ToastShow lng_background_link_copied]);
          [cbn; by rewrite <- app_assoc | by repeat constructor].
      + split; [exact IHp|]. exact IHe.
      + split; [exact IHp|]. exact IHe. }
  destruct Hinv as [Hv He]. split; [exact Hv|]. split; [|exact He].
  by apply blur_variant_document.
Qed.

Lemma deliver_serviceBg e w w' :
  deliver e w = Ok w' ->
  is_Some (_serviceBg (box w)) -> is_Some (_serviceBg (box w')).
Proof.
  intros Hd Hs.
  destruct (deliver_cases e w w' Hd)
    as [(i & t & -> & Ht & ->)
       | [-> | (Hlive & [(es & Hrd & _)
                        | [(-> & ->) | [(-> & ->) | [(-> & ->)
                        | [(o & -> & ->) | (-> & ->)]]]]])]]; auto.
  - destruct (run_task_frame t (set_pending (delete i (pending w)) w))
      as (_ & _ & _ & Hbg & _). auto.
  - destruct (redrawn_frame es w w' Hrd) as (_ & _ & _ & _ & _ & Hbg & _).
    auto.
  - unfold apply, closeBox. by destruct (_ && _).
Qed.

Lemma deliver_paper_without_blur e w w' :
  deliver e w = Ok w' -> has_blur (box w) = false ->
  _paper (box w') = _paper (box w).
Proof.
  intros Hd Hno.
  destruct (deliver_cases e w w' Hd)
    as [(i & t & -> & Ht & ->)
       | [-> | (Hlive & [(es & (b & Ht & Hw) & _)
                        | [(-> & ->) | [(-> & ->) | [(-> & ->)
                        | [(o & -> & ->) | (-> & ->)]]]]])]]; auto.
  - destruct (run_task_frame t (set_pending (delete i (pending w)) w))
      as (_ & _ & Hp & _). exact Hp.
  - destruct Ht as (_ & _ & _ & _ & _ & Hkeep).
    destruct Hw as [-> | ->].
    + cbn. auto.
    + destruct (checkLoadedDocument_frame (with_effects es (set_box b w)))
        as (_ & _ & _ & -> & _). cbn. auto.
  - unfold apply, closeBox. by destruct (_ && _).
Qed.

(** X14. Without the blur checkbox the paper of the box never changes.
    So for a pattern the color the pattern is prepared with is the
    background color of the paper the box was made for, and while a
    pattern has a document its thumbnail is never shown:
    [setScaledFromThumb] does nothing. *)
Theorem paper_changes_need_checkbox (paper : WallPaper) (w : World) :
  reachable paper w ->
  thumbnail paper = None \/ isPattern paper = true ->
  _blur (box w) = None
  /\ _paper (box w) = paper
  /\ (isPattern paper = true ->
      patternBackgroundColor (box w) = backgroundColor paper
      /\ (is_Some (document paper) ->
          forall o, setScaledFromThumb o (box w) = (false, box w))).
Proof.
  intros Hr Hpaper.
  assert (Hblur : forall w0, reachable paper w0 -> has_blur (box w0) = false).
  { intros w0 Hr0. destruct (reachable_chrome paper w0 Hr0) as [_ ->].
    destruct Hpaper as [-> | ->].
    - rewrite bool_decide_eq_false_2; [reflexivity|]. by intros [? ?].
    - apply andb_false_r. }
  assert (Hsame : _paper (box w) = paper).
  { induction Hr as [o | w e w' Hr IH Hd].
    - rewrite prepare_split. unfold prepare_images.
      set (w1 := prepare_widgets (new_world paper o)).
      set (w2 := on_box (fun b => (setScaledFromThumb (outside w1) b).2) w1).
      destruct (checkLoadedDocument_frame w2) as (_ & _ & _ & Hp & _).
      cbn [on_box set_box box set_chrome _paper]. rewrite Hp.
      destruct (setScaledFromThumb_tame (outside w1) (box w1))
        as (_ & _ & _ & _ & Hb & Hkeep).
      destruct (prepare_widgets_box (new_world paper o)) as (Hp1 & _).
      cbn zeta in Hp1. fold w1 in Hp1.
      assert (Hno : has_blur (box w1) = false).
      { rewrite <- Hb.
        specialize (Hblur _ (reachable_prepared paper o)).
        rewrite prepare_split in Hblur. unfold prepare_images in Hblur.
        fold w1 w2 in Hblur. cbn in Hblur.
        destruct (checkLoadedDocument_cases w2) as [Hc | (_ & image & Hc)];
          rewrite Hc in Hblur; exact Hblur. }
      unfold w2. cbn [on_box set_box box]. rewrite (Hkeep Hno). exact Hp1.
    - rewrite (deliver_paper_without_blur e w w' Hd (Hblur w Hr)).
      exact IH. }
  pose proof (Hblur w Hr) as Hno. unfold has_blur in Hno.
  split; [by destruct (_blur (box w))|]. split; [exact Hsame|].
  intros Hpat. unfold patternBackgroundColor, setScaledFromThumb.
  rewrite Hsame, Hpat. split; [reflexivity|].
  intros Hdoc o. rewrite (bool_decide_eq_true_2 _ Hdoc). cbn.
  destruct (thumbnail paper); [|reflexivity].
  by destruct (negb _).
Qed.

(** X15. The service background, which the date bubble and the checkbox
    are painted with, is never lost once it is set: it is set from
    [prepare] on for a paper with a background color, it is set whenever
    an image is set, and no event resets it. *)
Theorem serviceBg_stays (paper : WallPaper) (w : World) :
  reachable paper w ->
  (is_Some (backgroundColor paper) -> is_Some (_serviceBg (box w)))
  /\ (forall image blurred b,
        is_Some (_serviceBg (setScaledFromImage image blurred b)))
  /\ (forall e w', deliver e w = Ok w' ->
        is_Some (_serviceBg (box w)) -> is_Some (_serviceBg (box w'))).
Proof.
  intros Hr. split; [|split].
  - intros Hc. induction Hr as [o | w e w' _ IH Hd].
    + rewrite prepare_split.
      destruct (prepare_images_frame (prepare_widgets (new_world paper o)))
        as (_ & _ & Hs).
      apply Hs. by apply prepare_widgets_frame.
    + eapply deliver_serviceBg; eauto.
  - intros image blurred b.
    unfold setScaledFromImage, updateServiceBg, startFadeInFrom. cbn.
    repeat case_match; cbn; eauto.
  - intros e w'. apply deliver_serviceBg.
Qed.


End Traces.

Lemma decoding_reachable : reachable Demo.paper Demo.decoding_world.
Proof.
  apply (reachable_deliver _ Demo.ready_world (MainThread 0)).
  - apply reachable_prepared.
  - reflexivity.
Qed.

Lemma closed_reachable : reachable Demo.paper closed_world.
Proof.
  apply (reachable_deliver _ Demo.decoding_world Destroyed).
  - apply decoding_reachable.
  - reflexivity.
Qed.

Lemma events_and_effects_witness :
  exists es,
    effects (apply Demo.shown_world) = effects Demo.shown_world ++ es
    /\ forall p image, SetChatBackground p image ∈ es ->
         p = Demo.paper /\ image = None.
Proof.
  destruct (@events_and_effects Demo.toolkit Demo.host
              (ButtonClicked DoApply) Demo.shown_world
              (apply Demo.shown_world))
    as (es & He & _ & _ & Hset & _).
  - reflexivity.
  - exists es. split; [exact He|].
    intros p image Hin. destruct (Hset p image Hin) as (_ & -> & ->).
    split; reflexivity.
Defined.

Lemma destroyed_box_is_inert_witness :
  exists w',
    deliver (MainThread 0) closed_world = Ok w'
    /\ box w' = box closed_world /\ effects w' = effects closed_world.
Proof.
  destruct (@destroyed_box_is_inert Demo.toolkit Demo.host Demo.paper
              (MainThread 0) closed_world closed_reachable)
    as (w' & Hd & Hb & He & _).
  - reflexivity.
  - exists w'. auto.
Defined.

Lemma one_live_completion_witness :
  task_guard (@DecodeDone Demo.toolkit (Some 1%nat) (Some 1) (Some 1) (Some 1))
  = _generating (box Demo.decoding_world).
Proof.
  destruct (@one_live_completion Demo.toolkit Demo.host Demo.paper
              Demo.decoding_world 0 0
              (@DecodeDone Demo.toolkit (Some 1%nat) (Some 1) (Some 1) (Some 1))
              (@DecodeDone Demo.toolkit (Some 1%nat) (Some 1) (Some 1) (Some 1))
              decoding_reachable)
    as [_ Hg].
  - reflexivity.
  - reflexivity.
  - reflexivity.
  - reflexivity.
  - exact Hg.
Defined.

Lemma paper_stays_a_variant_witness :
  document (_paper (box Demo.decoding_world)) = Some 0%nat.
Proof.
  destruct (@paper_stays_a_variant Demo.toolkit Demo.host Demo.paper
              Demo.decoding_world decoding_reachable)
    as (_ & Hdoc & _).
  exact Hdoc.
Defined.

Lemma serviceBg_stays_witness :
  is_Some (_serviceBg (box decoded_world)).
Proof.
  destruct (@serviceBg_stays Demo.toolkit Demo.host Demo.paper
              Demo.decoding_world decoding_reachable)
    as (_ & _ & Hstay).
  apply (Hstay (MainThread 0) decoded_world).
  - reflexivity.
  - by eexists.
Defined.

Lemma paper_changes_need_checkbox_witness :
  _paper (box pattern_world) = pattern_paper
  /\ patternBackgroundColor (box pattern_world) = Some 3.
Proof.
  destruct (@paper_changes_need_checkbox Demo.toolkit Demo.host
              pattern_paper pattern_world (reachable_prepared _ _))
    as (_ & Hpaper & Hpattern).
  - right. reflexivity.
  - split; [exact Hpaper|].
    destruct (Hpattern eq_refl) as [Hcolor _]. exact Hcolor.
Defined.


End LifetimeFacts.

Module PreparationFacts.
Import Contract Preview SlugFacts FramesFacts PreviewFacts GuardFacts.
Import Lifetime LifetimeFacts.

Section Preparation.
Context `{Host}.

(** X17. [PrepareScaledNonPattern] asks for an image that covers the
    square of the box: with no overflow in the products, one side of the
    size it takes is [boxWideWidth], the other is at least that and keeps
    the proportions of the image up to the rounding of the division; an
    image without pixels counts as one pixel, so nothing is divided by
    zero. *)
Theorem PrepareScaledNonPattern_covers
    (image : QImage) (blur : list ImagesOption) :
  let size := boxWideWidth in
  let width := Z.max (image_width image) 1 in
  let height := Z.max (image_height image) 1 in
  0 < size -> width * size <= INT_MAX -> height * size <= INT_MAX ->
  exists takeWidth takeHeight,
    PrepareScaledNonPattern image blur
    = Images_prepare image
        (int_wrap (takeWidth * cIntRetinaFactor))
        (int_wrap (takeHeight * cIntRetinaFactor))
        ([Smooth; TransparentBackground] ++ blur) size size
    /\ size <= takeWidth /\ size <= takeHeight
    /\ (takeWidth = size \/ takeHeight = size)
    /\ (height < width ->
        takeHeight = size
        /\ takeWidth * height <= width * size < (takeWidth + 1) * height)
    /\ (width <= height ->
        takeWidth = size
        /\ takeHeight * width <= height * size < (takeHeight + 1) * width).
Proof.
  intros size width height Hs Hw Hh.
  assert (Hw1 : 1 <= width) by (unfold width; lia).
  assert (Hh1 : 1 <= height) by (unfold height; lia).
  unfold PrepareScaledNonPattern. fold size width height.
  rewrite (int_wrap_id (width * size)), (int_wrap_id (height * size))
    by (unfold INT_MAX in *; nia).
  rewrite !Z.quot_div_nonneg by nia.
  destruct (Z.gtb_spec width height) as [Hgt | Hle].
  - exists (width * size / height), size.
    split; [reflexivity|].
    pose proof (Z.mul_div_le (width * size) height ltac:(lia)) as Hlow.
    pose proof (Z.mul_succ_div_gt (width * size) height ltac:(lia)) as Hup.
    assert (Hcover : size <= width * size / height).
    { apply Z.div_le_lower_bound; nia. }
    repeat split; try lia; auto.
  - exists size, (height * size / width).
    split; [reflexivity|].
    pose proof (Z.mul_div_le (height * size) width ltac:(lia)) as Hlow.
    pose proof (Z.mul_succ_div_gt (height * size) width ltac:(lia)) as Hup.
    assert (Hcover : size <= height * size / width).
    { apply Z.div_le_lower_bound; nia. }
    repeat split; try lia; auto.
Qed.








(** X19. [Start] does one thing: it shows the preview of a color slug,
    or reports a bad link, or requests the wallpaper; a request is sent
    only for the slug and parameters it was given, when the slug names no
    color and consists of 1 to 255 accepted characters; the answer to
    the request is shown with the same parameters. *)
Theorem Start_requests_valid_slug
    (slug : QString) (params : list (QString * QString)) :
  length (Start slug params).1 = 1%nat
  /\ (forall s p, RequestWallPaper s p ∈ (Start slug params).1 ->
        s = slug /\ p = params
        /\ FromColorSlug slug = None
        /\ 1 <= size slug <= 255
        /\ (forall ch, In ch slug -> slug_char ch)
        /\ (Start slug params).2 = true)
  /\ (forall paper, ShowPreviewBox paper ∈ (Start slug params).1 ->
        exists color,
          FromColorSlug slug = Some color
          /\ paper = withUrlParams color params)
  /\ (forall result,
        wallPaperReceived params result
        = [ShowPreviewBox (withUrlParams result params)]).
Proof.
  unfold Start.
  destruct (FromColorSlug slug) as [color|] eqn:Hc; cbn [fst snd].
  - split; [reflexivity|]. split; [|split; [|reflexivity]].
    + intros s p Hin. apply list_elem_of_singleton in Hin. discriminate.
    + intros paper Hin. apply list_elem_of_singleton in Hin.
      injection Hin as ->. eauto.
  - destruct (IsValidWallPaperSlug slug) eqn:Hv; cbn [negb fst snd].
    + split; [reflexivity|]. split; [|split; [|reflexivity]].
      * intros s p Hin. apply list_elem_of_singleton in Hin.
        injection Hin as -> ->.
        assert (Hrej : ~ (slug = [] \/ 255 < size slug
                          \/ exists ch, In ch slug /\ ~ slug_char ch)).
        { intros Hr. apply IsValidWallPaperSlug_false in Hr. congruence. }
        repeat split; auto.
        -- destruct slug; [tauto | unfold size; cbn; lia].
        -- lia.
        -- intros ch Hin.
           destruct (bad_slug_char ch) eqn:Hbad.
           ++ exfalso. apply Hrej. right. right. exists ch.
              split; [exact Hin|]. by apply bad_slug_char_spec.
           ++ destruct (bad_slug_char_spec ch) as [_ Hsp].
              unfold slug_char, is_ascii_letter, is_ascii_digit, latin1 in *.
              cbn [N_of_ascii N_of_digits] in *.
              unfold bad_slug_char, latin1 in Hbad.
              cbn [N_of_ascii N_of_digits] in Hbad.
              rewrite !andb_false_iff, !orb_false_iff, !negb_false_iff in Hbad.
              rewrite !N.eqb_eq, !N.ltb_ge in Hbad. simpl in *. lia.
      * intros paper Hin. apply list_elem_of_singleton in Hin. discriminate.
    + split; [reflexivity|]. split; [|split; [|reflexivity]].
      * intros s p Hin. apply list_elem_of_singleton in Hin. discriminate.
      * intros paper Hin. apply list_elem_of_singleton in Hin. discriminate.
Qed.

End Preparation.

Lemma PrepareScaledNonPattern_covers_witness :
  exists takeWidth takeHeight,
    @PrepareScaledNonPattern Demo.toolkit Demo.host (Some 1) []
    = Images_prepare (Some 1)
        (int_wrap (takeWidth * 1)) (int_wrap (takeHeight * 1))
        [Smooth; TransparentBackground] 364 364
    /\ takeHeight = 364 /\ 485 * 3 <= takeWidth * 3.
Proof.
  destruct (@PrepareScaledNonPattern_covers Demo.toolkit Demo.host
              (Some 1) [])
    as (tw & th & Heq & _ & _ & _ & Hwide & _).
  - reflexivity.
  - vm_compute. discriminate.
  - vm_compute. discriminate.
  - exists tw, th. split; [exact Heq|].
    destruct Hwide as [Hth Hasp]; [reflexivity|].
    split; [exact Hth|]. cbn in Hasp. lia.
Defined.


End PreparationFacts.

Module TextItemsFacts.
Import Slug Contract FramesFacts TextItems.

Section ItemsFacts.

Variable ServerMaxMsgId : Z.
Variable Clean : QString -> QString.

Local Abbreviation first_id := (first_id ServerMaxMsgId).
Local Abbreviation GenerateTextItem := (GenerateTextItem Clean).
Local Abbreviation text_items := (text_items Clean).

Lemma first_id_above :
  0 <= ServerMaxMsgId ->
  ServerMaxMsgId + Z.quot ServerMaxMsgId 3 <= INT_MAX ->
  ServerMaxMsgId <= first_id.
Proof.
  intros H0 Hmax. unfold TextItems.first_id.
  pose proof (Z.quot_pos ServerMaxMsgId 3 H0 ltac:(lia)).
  rewrite int_wrap_id by (unfold INT_MAX in *; lia). lia.
Qed.

(** X20. The two text items of a box get ids of their own above every
    id of the server: while the counter does not overflow, each call of
    [GenerateTextItem] for the history of a user raises the counter by
    one and gives the new value to the item, so the ids of the two items
    differ and lie above [ServerMaxMsgId] and above the counter they
    started from; the first item comes from the peer, the second is
    outgoing and comes from the user of the session.  For a history
    whose peer is no user nothing is made. *)
Theorem text_items_ids
    (history : History) (text1 text2 : QString) (now1 now2 id : Z) :
  0 <= ServerMaxMsgId ->
  ServerMaxMsgId + Z.quot ServerMaxMsgId 3 <= INT_MAX ->
  first_id <= id -> id + 2 <= INT_MAX ->
  (peer_isUser history = false ->
   text_items history text1 text2 now1 now2 id = None)
  /\ (peer_isUser history = true ->
      exists item1 item2,
        text_items history text1 text2 now1 now2 id
        = Some (item1, item2, id + 2)
        /\ msg_id item1 <> msg_id item2
        /\ id < msg_id item1 <= id + 2 /\ id < msg_id item2 <= id + 2
        /\ ServerMaxMsgId < msg_id item1 /\ ServerMaxMsgId < msg_id item2
        /\ msg_flags item1 = [f_entities; f_from_id]
        /\ msg_flags item2 = [f_entities; f_from_id; f_out]
        /\ msg_from item1 = peer_user history
        /\ msg_from item2 = session_userId history
        /\ msg_text item1 = Clean text1 /\ msg_text item2 = Clean text2).
Proof.
  intros H0 Hmax Hid Hroom.
  pose proof (first_id_above H0 Hmax) as Habove.
  unfold TextItems.text_items, TextItems.GenerateTextItem. split.
  - intros ->. reflexivity.
  - intros ->. cbn [negb mbind option_bind].
    assert (H1 : int_wrap (id + 1) = id + 1)
      by (apply int_wrap_id; unfold INT_MAX in *; lia).
    rewrite H1.
    assert (H2 : int_wrap (id + 1 + 1) = id + 2)
      by (rewrite int_wrap_id; unfold INT_MAX in *; lia).
    cbn. rewrite H2.
    eexists. eexists. split; [reflexivity|]. cbn.
    repeat split; lia.
Qed.

End ItemsFacts.

Lemma text_items_ids_witness :
  exists item1 item2,
    text_items (fun s => s)
      {| peer_isUser := true; peer_user := 777000; session_userId := 42 |}
      [] [] 0 0 1431655764
    = Some (item1, item2, 1431655766)
    /\ msg_id item1 <> msg_id item2.
Proof.
  destruct (text_items_ids 1073741823 (fun s => s)
              {| peer_isUser := true; peer_user := 777000;
                 session_userId := 42 |} [] [] 0 0 1431655764)
    as [_ Hmade].
  - lia.
  - vm_compute. discriminate.
  - vm_compute. discriminate.
  - vm_compute. discriminate.
  - destruct (Hmade eq_refl) as (item1 & item2 & Heq & Hne & _).
    exists item1, item2. split; [exact Heq | exact Hne].
Defined.

End TextItemsFacts.

Module LayoutFacts.
Import Contract FramesFacts CheckView Layout.

Local Ltac unwrap :=
  unfold add32, sub32, mul32, div32;
  repeat match goal with
         | |- context [int_wrap ?z] =>
             lazymatch z with
             | context [int_wrap _] => fail
             | _ =>
                 rewrite (int_wrap_id z)
                   by (unfold INT_MAX;
                       Z.to_euclidean_division_equations; nia)
             end
         end.

Local Ltac finish :=
  repeat match goal with |- _ /\ _ => split end;
  intros; simplify_eq; cbn [fst snd] in *;
  try reflexivity;
  repeat match goal with |- _ /\ _ => split end;
  Z.to_euclidean_division_equations; lia.

Section LayoutFacts.

Variable st : Metrics.

Local Abbreviation blur_position := (blur_position st).
Local Abbreviation textsTop := (textsTop st).
Local Abbreviation radialRect := (radialRect st).
Local Abbreviation paintTexts := (paintTexts st).
Local Abbreviation paintDate := (paintDate st).
Local Abbreviation paintImage_from := (paintImage_from st).

(** X21. The parts of the preview are stacked without overlap.  With
    the checkbox where [createBlurCheckbox] moves it, the second text
    item ends [historyPaddingBottom] above the checkbox, which ends
    [historyPaddingBottom] above the bottom of the box and is centred;
    without a checkbox the second item ends that far above the bottom.
    The first item ends where the second begins, and the radial
    rectangle is centred and ends at least [historyPaddingBottom] above
    the first item whenever it fits there. *)
Theorem preview_parts_stacked
    (blur : option (Z * Z)) (width height height1 height2 : Z) :
  pixels (historyPaddingBottom st) ->
  pixels (radialSize_width st) -> pixels (radialSize_height st) ->
  pixels width -> pixels height -> pixels height1 -> pixels height2 ->
  (forall inner, blur = Some inner ->
     pixels inner.1 /\ pixels inner.2 /\ inner.1 <= width) ->
  let position :=
    match blur with
    | Some inner => Some (blur_position (width, height) inner)
    | None => None
    end in
  let blur_y := match position with Some p => Some p.2 | None => None end in
  let top := textsTop blur_y height height1 height2 in
  let radial := radialRect blur_y width height height1 height2 in
  let '(date_at, text1_at, text2_at, end_at) :=
    paintTexts blur_y height height1 height2 in
  date_at = top /\ text1_at = top /\ text2_at = top + height1
  /\ end_at = top + height1 + height2
  /\ (forall inner p, blur = Some inner -> position = Some p ->
        end_at + historyPaddingBottom st = p.2
        /\ p.2 + inner.2 + historyPaddingBottom st = height
        /\ 0 <= width - inner.1 - 2 * p.1 <= 1)
  /\ (blur = None -> end_at + historyPaddingBottom st = height)
  /\ rect_width radial = radialSize_width st
  /\ rect_height radial = radialSize_height st
  /\ (radialSize_width st <= width ->
      0 <= width - rect_width radial - 2 * rect_left radial <= 1)
  /\ (radialSize_height st <= top - historyPaddingBottom st ->
      0 <= rect_top radial
      /\ rect_top radial + rect_height radial
         <= top - historyPaddingBottom st).
Proof.
  unfold pixels. intros Hp Hrw Hrh Hw Hh Hh1 Hh2 Hblur.
  destruct blur as [[iw ih]|].
  - destruct (Hblur _ eq_refl) as (Hiw & Hih & Hfit). cbn [fst snd] in *.
    cbn zeta. unfold Layout.paintTexts, Layout.radialRect, Layout.textsTop,
      Layout.blur_position.
    cbn [fst snd rect_left rect_top rect_width rect_height].
    unwrap. finish.
  - cbn zeta. unfold Layout.paintTexts, Layout.radialRect, Layout.textsTop.
    cbn [fst snd rect_left rect_top rect_width rect_height].
    unwrap. finish.
Qed.

(** X22. [paintDate] draws nothing without a date badge or without a
    service background.  Otherwise the bubble is as wide as the text with
    its two paddings and as high as the font with its two paddings, it is
    centred in the box, the text begins after the left padding and ends
    before the right one, and its baseline lies between the paddings of
    the bubble when the ascent is at most the height of the font. *)
Theorem date_badge_placed (date : option Z) (serviceBg : bool) (width : Z) :
  let padding := msgServicePadding st in
  pixels (margin_left padding) -> pixels (margin_right padding) ->
  pixels (margin_top padding) -> pixels (margin_bottom padding) ->
  pixels (msgServiceFont_height st) -> pixels (msgServiceFont_ascent st) ->
  pixels (msgServiceMargin_top st) -> pixels width ->
  (forall textWidth, date = Some textWidth -> pixels textWidth) ->
  (paintDate date serviceBg width = None
   <-> date = None \/ serviceBg = false)
  /\ forall textWidth badge,
       date = Some textWidth ->
       paintDate date serviceBg width = Some badge ->
       rect_width (bubble badge)
       = margin_left padding + textWidth + margin_right padding
       /\ rect_height (bubble badge)
          = margin_top padding + msgServiceFont_height st
            + margin_bottom padding
       /\ rect_top (bubble badge) = msgServiceMargin_top st
       /\ text_left badge = rect_left (bubble badge) + margin_left padding
       /\ text_left badge + textWidth + margin_right padding
          = rect_left (bubble badge) + rect_width (bubble badge)
       /\ (rect_width (bubble badge) <= width ->
           0 <= width - rect_width (bubble badge)
                - 2 * rect_left (bubble badge) <= 1)
       /\ (msgServiceFont_ascent st <= msgServiceFont_height st ->
           rect_top (bubble badge) + margin_top padding
           <= text_baseline badge
           <= rect_top (bubble badge) + rect_height (bubble badge)
              - margin_bottom padding)
       /\ 0 <= 2 * bubble_radius badge <= rect_height (bubble badge).
Proof.
  intros padding Hl Hr Ht Hb Hfh Hfa Hmt Hw Hdate. unfold pixels in *. split.
  - unfold Layout.paintDate. destruct date as [tw|]; [|tauto].
    destruct serviceBg; cbn [negb].
    + split; [discriminate|]. intros [? | ?]; discriminate.
    + tauto.
  - intros tw badge -> Hpaint. specialize (Hdate tw eq_refl).
    unfold Layout.paintDate in Hpaint.
    destruct serviceBg; cbn [negb] in Hpaint; [|discriminate].
    injection Hpaint as <-. fold padding.
    cbn [bubble bubble_radius text_left text_baseline
         rect_left rect_top rect_width rect_height].
    unwrap. finish.
Qed.

(** X23. The part of the pixmap [paintImage] draws for a box no higher
    than [boxWideWidth]: it has the full width and the height of the box
    in device pixels, lies inside the square pixmap, and is centred in
    it up to one pixel of the box; for a box of that height it is the
    whole pixmap. *)
Theorem paintImage_from_inside (height : Z) :
  let factor := cIntRetinaFactor st in
  let size := boxWideWidth st in
  let from := paintImage_from height in
  pixels size -> 0 <= height <= size -> 1 <= factor <= 2 ^ 10 ->
  rect_left from = 0
  /\ rect_width from = size * factor
  /\ rect_height from = height * factor
  /\ 0 <= rect_top from
  /\ rect_top from + rect_height from <= size * factor
  /\ 0 <= size * factor - rect_height from - 2 * rect_top from <= factor
  /\ (height = size -> rect_top from = 0).
Proof.
  intros factor size from Hs Hh Hf. unfold pixels in *.
  unfold from, Layout.paintImage_from. fold factor size.
  cbn [rect_left rect_top rect_width rect_height].
  assert (Hhalf : 0 <= Z.quot (size - height) 2 <= size)
    by (Z.to_euclidean_division_equations; lia).
  assert (Hodd : 0 <= size - height - 2 * Z.quot (size - height) 2 <= 1)
    by (Z.to_euclidean_division_equations; lia).
  unfold add32, sub32, mul32, div32.
  rewrite (int_wrap_id (size - height)) by (unfold INT_MAX; lia).
  rewrite (int_wrap_id (Z.quot (size - height) 2)) by (unfold INT_MAX; lia).
  rewrite (int_wrap_id (Z.quot (size - height) 2 * factor))
    by (unfold INT_MAX; nia).
  rewrite (int_wrap_id (size * factor)) by (unfold INT_MAX; nia).
  rewrite (int_wrap_id (height * factor)) by (unfold INT_MAX; nia).
  set (half := Z.quot (size - height) 2) in *.
  repeat match goal with |- _ /\ _ => split end; try reflexivity; nia.
Qed.

End LayoutFacts.

Lemma preview_parts_stacked_witness :
  let blur_y := Some (blur_position demo_metrics (364, 364) (100, 30)).2 in
  textsTop demo_metrics blur_y 364 40 60 + 40 + 60 + 8 = 326
  /\ rect_top (radialRect demo_metrics blur_y 364 364 40 60) = 80.
Proof.
  intros blur_y.
  pose proof (preview_parts_stacked demo_metrics (Some (100, 30))
                364 364 40 60) as Hst.
  cbn zeta in Hst.
  destruct (paintTexts demo_metrics
              (Some (blur_position demo_metrics (364, 364) (100, 30)).2)
              364 40 60) as [[[date_at text1_at] text2_at] end_at] eqn:Hp.
  destruct Hst as (_ & _ & _ & Hend & Hblur & _).
  - unfold pixels. simpl. lia.
  - unfold pixels. simpl. lia.
  - unfold pixels. simpl. lia.
  - unfold pixels. lia.
  - unfold pixels. lia.
  - unfold pixels. lia.
  - unfold pixels. lia.
  - intros inner [= <-]. unfold pixels. simpl. lia.
  - split; [|reflexivity].
    destruct (Hblur (100, 30) _ eq_refl eq_refl) as (Hchain & _).
    unfold blur_y. rewrite <- Hend. exact Hchain.
Defined.

Lemma date_badge_placed_witness :
  exists badge,
    paintDate demo_metrics (Some 80) true 364 = Some badge
    /\ rect_width (bubble badge) = 104
    /\ text_left badge = rect_left (bubble badge) + 12.
Proof.
  pose (badge := match paintDate demo_metrics (Some 80) true 364 with
                 | Some b => b
                 | None => {| bubble := {| rect_left := 0; rect_top := 0;
                                           rect_width := 0; rect_height := 0 |};
                              bubble_radius := 0; text_left := 0;
                              text_baseline := 0 |}
                 end).
  exists badge. split; [reflexivity|].
  destruct (date_badge_placed demo_metrics (Some 80) true 364)
    as [_ Hplaced].
  - unfold pixels. simpl. lia.
  - unfold pixels. simpl. lia.
  - unfold pixels. simpl. lia.
  - unfold pixels. simpl. lia.
  - unfold pixels. simpl. lia.
  - unfold pixels. simpl. lia.
  - unfold pixels. simpl. lia.
  - unfold pixels. lia.
  - intros tw [= <-]. unfold pixels. lia.
  - destruct (Hplaced 80 badge eq_refl eq_refl) as (Hw & _ & _ & Ht & _).
    split; [exact Hw | exact Ht].
Defined.

Lemma paintImage_from_inside_witness :
  rect_top (paintImage_from demo_metrics 300) = 64
  /\ rect_top (paintImage_from demo_metrics 300)
     + rect_height (paintImage_from demo_metrics 300) <= 364 * 2.
Proof.
  split; [reflexivity|].
  destruct (paintImage_from_inside demo_metrics 300)
    as (_ & _ & _ & _ & Hin & _).
  - unfold pixels. simpl. lia.
  - simpl. lia.
  - simpl. lia.
  - exact Hin.
Defined.

End LayoutFacts.

Module PaintFacts.
Import Contract Preview PreviewFacts GuardFacts Lifetime LifetimeFacts.

Section Layers.
Context `{Host}.






End Layers.


End PaintFacts.

Module PaintersFacts.
Import Float64 Float64Facts Float64Bounds Contract Frames FramesFacts.
Import CheckView CheckViewFacts Painters.

(** Rounding keeps an integer below [2^52]. *)
Lemma round64_exact (x : Q) (c : Z) :
  (x == inject_Z c)%Q -> - 2 ^ 52 < c < 2 ^ 52 ->
  (round64 x == inject_Z c)%Q.
Proof.
  intros Hx Hc.
  assert (Hp0 : (pow2 (- 0) == 1)%Q) by reflexivity.
  assert (Hpos : forall (y : Q) (n : Z),
            (y == inject_Z n)%Q -> 0 < n < 2 ^ 52 ->
            (round64 y == inject_Z n)%Q).
  { intros y n Hy Hn.
    assert (Hn0 : (0 < inject_Z n)%Q).
    { change 0%Q with (inject_Z 0). rewrite <- Zlt_Qlt. lia. }
    destruct (round64_le_dyadic y n 0 52) as [_ Hup]; try lia.
    { rewrite Hy. lra. } { rewrite Hy, Hp0. lra. }
    assert (Hlow : (inject_Z n * pow2 (- 0) <= y)%Q)
      by (rewrite Hy, Hp0; lra).
    pose proof (round64_ge_dyadic y n 0 n 52 Hlow) as Hdown.
    specialize (Hdown ltac:(rewrite Hy; lra) ltac:(lia) ltac:(lia)
                  ltac:(lia) ltac:(lia) ltac:(lia)).
    rewrite Hp0 in Hup, Hdown. lra. }
  destruct (Z.lt_trichotomy c 0) as [Hneg | [-> | Hgt]].
  - assert (Hc0 : (inject_Z c < 0)%Q).
    { change 0%Q with (inject_Z 0). rewrite <- Zlt_Qlt. lia. }
    assert (Hlt : (x < 0)%Q) by (rewrite Hx; exact Hc0).
    assert (Hcmp : Qcompare x 0 = Lt) by (apply Qlt_alt; exact Hlt).
    unfold round64. rewrite Hcmp.
    assert (Hopp : (- x == inject_Z (- c))%Q).
    { rewrite Hx, inject_Z_opp. reflexivity. }
    pose proof (Hpos (- x)%Q (- c) Hopp ltac:(lia)) as Hr.
    unfold round64 in Hr.
    assert (Hgt : Qcompare (- x) 0 = Gt) by (apply Qgt_alt; lra).
    rewrite Hgt in Hr.
    rewrite Hr, inject_Z_opp. ring.
  - rewrite round64_zero; [reflexivity | exact Hx].
  - apply Hpos; [exact Hx | lia].
Qed.

Lemma mul_exact (a b : Q) (ca cb : Z) :
  (a == inject_Z ca)%Q -> (b == inject_Z cb)%Q ->
  - 2 ^ 52 < ca * cb < 2 ^ 52 ->
  (mul a b == inject_Z (ca * cb))%Q.
Proof.
  intros Ha Hb Hc. unfold mul. apply round64_exact; [|exact Hc].
  rewrite Ha, Hb, inject_Z_mult. reflexivity.
Qed.

Lemma sub_exact (a b : Q) (ca cb : Z) :
  (a == inject_Z ca)%Q -> (b == inject_Z cb)%Q ->
  - 2 ^ 52 < ca - cb < 2 ^ 52 ->
  (sub a b == inject_Z (ca - cb))%Q.
Proof.
  intros Ha Hb Hc. unfold sub. apply round64_exact; [|exact Hc].
  rewrite Ha, Hb. unfold Z.sub. rewrite inject_Z_plus, inject_Z_opp.
  reflexivity.
Qed.

Lemma add_exact (a b : Q) (ca cb : Z) :
  (a == inject_Z ca)%Q -> (b == inject_Z cb)%Q ->
  - 2 ^ 52 < ca + cb < 2 ^ 52 ->
  (add a b == inject_Z (ca + cb))%Q.
Proof.
  intros Ha Hb Hc. unfold add. apply round64_exact; [|exact Hc].
  rewrite Ha, Hb, inject_Z_plus. reflexivity.
Qed.

Lemma mul_zero_l (a b : Q) : (a == 0)%Q -> (mul a b == inject_Z 0)%Q.
Proof.
  intros Ha. unfold mul. rewrite round64_zero; [reflexivity|].
  rewrite Ha. ring.
Qed.

Section ShapeFacts.

Variable st : CheckShape.
Hypothesis Hfits : shape_fits st.

Local Abbreviation d := (shape_diameter st).
Local Abbreviation s := (shape_shift st).
Local Abbreviation t := (shape_thickness st).

Lemma lt_one (p : Q) : (p == 1)%Q -> lt p 1%Q = false.
Proof.
  intros Hp. unfold lt. apply negb_false_iff, Qle_bool_iff. lra.
Qed.

Lemma lt_zero_one (p : Q) : (p == 0)%Q -> lt p 1%Q = true.
Proof.
  intros Hp. unfold lt. apply negb_true_iff.
  destruct (Qle_bool 1 p) eqn:E; [|reflexivity].
  apply Qle_bool_iff in E. lra.
Qed.

Lemma gt_zero (p : Q) : (p == 0)%Q -> gt p 0%Q = false.
Proof.
  intros Hp. unfold gt. apply negb_false_iff, Qle_bool_iff. lra.
Qed.

Lemma gt_one_zero (p : Q) : (p == 1)%Q -> gt p 0%Q = true.
Proof.
  intros Hp. unfold gt. apply negb_true_iff.
  destruct (Qle_bool p 0) eqn:E; [|reflexivity].
  apply Qle_bool_iff in E. lra.
Qed.

(** With a shift [x] that is the integer [c], the outer ellipse is the
    circle of diameter [d - 2 c] at [(c, c)]. *)
Lemma outer_ellipse (x : Q) (c : Z) :
  (x == inject_Z c)%Q -> 0 <= c <= s ->
  same_drawing
    (DrawEllipse StyleColor false x x
       (sub (of_int d) (mul 2%Q x)) (sub (of_int d) (mul 2%Q x)))
    (DrawEllipse StyleColor false (inject_Z c) (inject_Z c)
       (inject_Z (d - 2 * c)) (inject_Z (d - 2 * c))).
Proof.
  intros Hx Hc. destruct Hfits as (Hs & Ht & Hsd & Htd & Hd & _).
  assert (Hside : (sub (of_int d) (mul 2%Q x) == inject_Z (d - 2 * c))%Q).
  { apply sub_exact; [reflexivity | | lia].
    apply (mul_exact 2%Q x 2 c); [reflexivity | exact Hx | lia]. }
  cbn. repeat split; assumption.
Qed.

(** X25. The two halves of the animation join: the filling painter at
    progress 1 and the checking painter at progress 0 draw the same
    thing, one filled circle inset by the shift of the style, without
    hole and without check mark. *)
Theorem painters_join (p q : float64) :
  (p == 1)%Q -> (q == 0)%Q ->
  exists filled checked,
    PaintFillingFrame st p = [filled]
    /\ PaintCheckingFrame st q = [checked]
    /\ same_drawing filled checked
    /\ same_drawing filled
         (DrawEllipse StyleColor false (inject_Z s) (inject_Z s)
            (inject_Z (d - 2 * s)) (inject_Z (d - 2 * s))).
Proof.
  intros Hp Hq. pose proof Hfits as (Hs & Ht & Hsd & Htd & Hd & _).
  unfold PaintFillingFrame, PaintCheckingFrame.
  rewrite (lt_one p Hp), (gt_zero q Hq).
  eexists. eexists. split; [reflexivity|]. split; [reflexivity|].
  assert (Hshift : (mul p (of_int s) == inject_Z s)%Q).
  { rewrite <- (Z.mul_1_l s) at 2.
    apply (mul_exact p (of_int s) 1 s); [exact Hp | reflexivity | lia]. }
  assert (Hone : (sub 1%Q q == inject_Z 1)%Q).
  { apply (sub_exact 1%Q q 1 0); [reflexivity | exact Hq | lia]. }
  assert (Hshift' : (mul (sub 1%Q q) (of_int s) == inject_Z s)%Q).
  { rewrite <- (Z.mul_1_l s) at 2.
    apply (mul_exact _ (of_int s) 1 s); [exact Hone | reflexivity | lia]. }
  pose proof (outer_ellipse _ s Hshift ltac:(lia)) as Hf.
  pose proof (outer_ellipse _ s Hshift' ltac:(lia)) as Hc.
  split; [|exact Hf].
  cbn in Hf, Hc |- *.
  destruct Hf as (_ & _ & Hf1 & Hf2 & Hf3 & Hf4).
  destruct Hc as (_ & _ & Hc1 & Hc2 & Hc3 & Hc4).
  repeat split; try reflexivity.
  - rewrite Hf1, Hc1. reflexivity.
  - rewrite Hf2, Hc2. reflexivity.
  - rewrite Hf3, Hc3. reflexivity.
  - rewrite Hf4, Hc4. reflexivity.
Qed.

(** The ring the animation starts with and the check mark it ends
    with. *)
Lemma ring_at_zero (p : float64) :
  (p == 0)%Q ->
  Forall2 same_drawing (PaintFillingFrame st p)
    [DrawEllipse StyleColor false 0%Q 0%Q (inject_Z d) (inject_Z d);
     DrawEllipse Transparent true (inject_Z t) (inject_Z t)
       (inject_Z (d - 2 * t)) (inject_Z (d - 2 * t))].
Proof.
  intros Hp. pose proof Hfits as (Hs & Ht & Hsd & Htd & Hd & _).
  unfold PaintFillingFrame. rewrite (lt_zero_one p Hp).
  assert (Hshift : (mul p (of_int s) == inject_Z 0)%Q)
    by (apply mul_zero_l; exact Hp).
  pose proof (outer_ellipse _ 0 Hshift ltac:(lia)) as Hout.
  replace (d - 2 * 0) with d in Hout by lia.
  constructor; [exact Hout|]. constructor; [|constructor].
  set (half := sub (div (of_int d) 2%Q) (of_int t)).
  assert (Hremove : (mul p half == inject_Z 0)%Q)
    by (apply mul_zero_l; exact Hp).
  assert (Hinset : (add (of_int t) (mul p half) == inject_Z t)%Q).
  { rewrite <- (Z.add_0_r t) at 2.
    apply (add_exact _ _ t 0); [reflexivity | exact Hremove | lia]. }
  assert (Hinner : (sub (of_int d) (mul 2%Q (add (of_int t) (mul p half)))
                    == inject_Z (d - 2 * t))%Q).
  { apply sub_exact; [reflexivity | | lia].
    apply (mul_exact 2%Q _ 2 t); [reflexivity | exact Hinset | lia]. }
  cbn. repeat split; assumption.
Qed.

Lemma check_at_one (p : float64) :
  (p == 1)%Q ->
  Forall2 same_drawing (PaintCheckingFrame st p)
    [DrawEllipse StyleColor false 0%Q 0%Q (inject_Z d) (inject_Z d);
     DrawPath true (shape_stroke st)
       [(inject_Z (tip_x st - shape_small st),
         inject_Z (tip_y st - shape_small st));
        (inject_Z (tip_x st), inject_Z (tip_y st));
        (inject_Z (tip_x st + shape_large st),
         inject_Z (tip_y st - shape_large st))]].
Proof.
  intros Hp.
  pose proof Hfits
    as (Hs & Ht & Hsd & Htd & Hd & Hsmall & Hsmall' & Hlarge & Hright & Htip).
  unfold PaintCheckingFrame. rewrite (gt_one_zero p Hp).
  assert (Hzero : (sub 1%Q p == 0)%Q).
  { rewrite (sub_exact 1%Q p 1 1); [reflexivity | reflexivity | exact Hp | lia]. }
  assert (Hshift : (mul (sub 1%Q p) (of_int s) == inject_Z 0)%Q)
    by (apply mul_zero_l; exact Hzero).
  pose proof (outer_ellipse _ 0 Hshift ltac:(lia)) as Hout.
  replace (d - 2 * 0) with d in Hout by lia.
  constructor; [exact Hout|]. constructor; [|constructor].
  cbn [fst snd].
  assert (Hsm : (mul (of_int (shape_small st)) p
                 == inject_Z (shape_small st))%Q).
  { rewrite <- (Z.mul_1_r (shape_small st)) at 2.
    apply (mul_exact _ p _ 1); [reflexivity | exact Hp | lia]. }
  assert (Hlg : (mul (of_int (shape_large st)) p
                 == inject_Z (shape_large st))%Q).
  { rewrite <- (Z.mul_1_r (shape_large st)) at 2.
    apply (mul_exact _ p _ 1); [reflexivity | exact Hp | lia]. }
  assert (Hng : (mul (of_int (- shape_large st)) p
                 == inject_Z (- shape_large st))%Q).
  { rewrite <- (Z.mul_1_r (- shape_large st)) at 2.
    apply (mul_exact _ p _ 1); [reflexivity | exact Hp | lia]. }
  cbn. split; [reflexivity|]. split; [reflexivity|].
  constructor; [|constructor; [|constructor; [|constructor]]].
  - split; cbn [fst snd];
      (apply sub_exact; [reflexivity | exact Hsm | lia]).
  - split; reflexivity.
  - split; cbn [fst snd].
    + replace (tip_x st + shape_large st)
        with (tip_x st - - shape_large st) by lia.
      apply sub_exact; [reflexivity | exact Hng | lia].
    + apply sub_exact; [reflexivity | exact Hlg | lia].
Qed.

End ShapeFacts.

(** X26. A strip begins with the ring and ends with the check mark:
    for a style whose sizes fit its circle, the first frame [FillFrame]
    paints is the full circle with a hole inset by the thickness, and
    the last frame is the full circle with the whole check mark cut out,
    from [tip - (small, small)] over [tip] to [tip + (large, -large)]. *)
Theorem strip_begins_and_ends
    (style_at : nat -> ServiceCheck) (shape : CheckShape)
    (img img' : StripImage) (st : nat) (index count : Z) :
  shape_fits shape ->
  count <= INT_MAX ->
  FillFrame style_at img st index count = Ok img' ->
  exists painting,
    strip_painted img'
    = strip_painted img ++ [(index * diameter (style_at st), painting)]
    /\ (index = 0 ->
        Forall2 same_drawing (drawn shape painting)
          [DrawEllipse StyleColor false 0%Q 0%Q
             (inject_Z (shape_diameter shape))
             (inject_Z (shape_diameter shape));
           DrawEllipse Transparent true
             (inject_Z (shape_thickness shape))
             (inject_Z (shape_thickness shape))
             (inject_Z (shape_diameter shape - 2 * shape_thickness shape))
             (inject_Z (shape_diameter shape - 2 * shape_thickness shape))])
    /\ (index = count - 1 ->
        Forall2 same_drawing (drawn shape painting)
          [DrawEllipse StyleColor false 0%Q 0%Q
             (inject_Z (shape_diameter shape))
             (inject_Z (shape_diameter shape));
           DrawPath true (shape_stroke shape)
             [(inject_Z (tip_x shape - shape_small shape),
               inject_Z (tip_y shape - shape_small shape));
              (inject_Z (tip_x shape), inject_Z (tip_y shape));
              (inject_Z (tip_x shape + shape_large shape),
               inject_Z (tip_y shape - shape_large shape))]]).
Proof.
  intros Hfits Hmax Hfill.
  assert (Hcount : 1 < count /\ 0 <= index < count).
  { unfold FillFrame in Hfill.
    destruct (count >? 1) eqn:Hc; cbn [check mbind Result_bind bind] in Hfill;
      [|discriminate].
    destruct ((index >=? 0) && (index <? count)) eqn:Hi;
      cbn [check mbind Result_bind bind] in Hfill; [|discriminate].
    lia. }
  destruct (FillFrame_paints style_at img img' st index count Hmax Hfill)
    as (painting & Hp & _ & _ & Hkind & Hfirst & Hlast).
  exists painting. split; [exact Hp|]. split.
  - intros ->. specialize (Hfirst eq_refl).
    replace (count - 1 <? 2 * 0) with false in Hkind by lia.
    destruct painting as [p | p]; [|discriminate].
    apply (ring_at_zero shape Hfits p Hfirst).
  - intros ->. specialize (Hlast eq_refl).
    replace (count - 1 <? 2 * (count - 1)) with true in Hkind by lia.
    destruct painting as [p | p]; [discriminate|].
    apply (check_at_one shape Hfits p Hlast).
Qed.

Lemma demo_shape_fits : shape_fits demo_shape.
Proof. unfold shape_fits. simpl. lia. Qed.

Lemma painters_join_witness :
  exists filled checked,
    PaintFillingFrame demo_shape 1%Q = [filled]
    /\ PaintCheckingFrame demo_shape 0%Q = [checked]
    /\ same_drawing filled checked.
Proof.
  destruct (painters_join demo_shape demo_shape_fits 1%Q 0%Q)
    as (filled & checked & Hf & Hc & Hsame & _).
  - reflexivity.
  - reflexivity.
  - exists filled, checked. auto.
Defined.

Lemma strip_begins_and_ends_witness :
  let style_at := fun _ : nat => {| diameter := 20; duration := 200 |} in
  let img := {| strip_width := 600; strip_height := 20; strip_painted := [] |} in
  exists img' painting,
    FillFrame style_at img 0 0 30 = Ok img'
    /\ strip_painted img' = [(0, painting)]
    /\ length (drawn demo_shape painting) = 2%nat.
Proof.
  intros style_at img.
  pose (img' := match FillFrame style_at img 0 0 30 with
                | Ok i => i
                | Failed _ => img
                end).
  destruct (strip_begins_and_ends style_at demo_shape img img' 0 0 30
              demo_shape_fits)
    as (painting & Hp & Hring & _).
  - vm_compute. discriminate.
  - vm_compute. reflexivity.
  - exists img', painting. split; [vm_compute; reflexivity|].
    split; [exact Hp|].
    apply Forall2_length in Hring; [exact Hring | reflexivity].
Defined.

End PaintersFacts.
